(** * Oscilloscopio didattico: waveform sampler, trace renderer, measurement checker

    The repository holds two editions of the same single-file React
    application: the plain JavaScript edition ([osci.jsx], module [Jsx]
    below) and the type-annotated edition (module [Tsx]).  Both define
    [waveformSample], [randn], [ScopeCanvas] and [doCheck]; only the
    JavaScript edition has [computeCorrect].

    Numbers.  A JavaScript number is modelled by a real number; the three
    values that are not finite ([Infinity], [-Infinity], [NaN]) are added by
    the type [number], which is used where the program produces or tests
    them (the reference period, the result of [parseFloat], [isFinite]).
    The modules [Jsx] and [Tsx] compute with exact real arithmetic, which is
    the program up to rounding.  The sampler and the trace loop are embedded
    a second time over an arbitrary rounding arithmetic (modules [JsxM] and
    [TsxM]); the properties whose outcome is decided by a computed value
    (the sign of the square wave, the wrap of the sawtooth, the number of
    samples) are stated there.  Overflow is not modelled.

    Randomness.  [Math.random] reads the next draw from a tape (a list of
    reals); a computation that needs more draws than the tape holds has no
    result on that tape. *)

From Stdlib Require Import Reals Lra Lia ZArith String List Bool.
From stdpp Require Import base option gmap.
Import ListNotations.

Open Scope R_scope.

(** ** JavaScript numbers and the [Math] functions used by the program *)

Module Js.

Inductive number : Type :=
| Fin (r : R)
| Infinity
| NegInfinity
| NaN.

Definition isFinite (x : number) : bool :=
  match x with
  | Fin _ => true
  | _ => false
  end.

(** [Math.floor] and [Math.round] (round half up). *)
Definition Math_floor (x : R) : Z := Int_part x.
Definition Math_round (x : R) : Z := Int_part (x + / 2).

(** Truncation towards zero and the remainder operator [a % b], whose
    result has the sign of the dividend. *)
Definition trunc (x : R) : Z :=
  if Rle_dec 0 x then Int_part x else (- Int_part (- x))%Z.
Definition rem (a b : R) : R := a - b * IZR (trunc (a / b)).

(** Comparisons as booleans. *)
Definition gtb (x y : R) : bool := if Rgt_dec x y then true else false.
Definition geb (x y : R) : bool := if Rge_dec x y then true else false.
Definition leb (x y : R) : bool := if Rle_dec x y then true else false.

End Js.

Import Js.

(** ** The random tape *)

Definition Rand (A : Type) : Type := list R -> option (A * list R).

Definition ret {A} (a : A) : Rand A := fun tape => Some (a, tape).

Definition bind {A B} (m : Rand A) (k : A -> Rand B) : Rand B :=
  fun tape =>
    match m tape with
    | Some (a, tape') => k a tape'
    | None => None
    end.

Notation "x <- m ;; k" := (bind m (fun x => k))
  (at level 100, m at next level, right associativity).

(** [Math.random()]: the next draw. *)
Definition Math_random : Rand R :=
  fun tape =>
    match tape with
    | [] => None
    | u :: rest => Some (u, rest)
    end.

(** [let u = 0; while (u === 0) u = Math.random();] leaves in [u] the first
    draw that is not zero. *)
Fixpoint untilNonzero (tape : list R) : option (R * list R) :=
  match tape with
  | [] => None
  | u :: rest => if Req_dec_T u 0 then untilNonzero rest else Some (u, rest)
  end.

(** ** Shared data *)

(** The parameter object of [waveformSample]; [noise] may be missing, the
    destructuring pattern then gives it the default [0]. *)
Record WaveParams : Type := {
  p_amplitude : R;
  p_frequency : R;
  p_phase : R;
  p_dc : R;
  p_difficulty : string;
  p_noise : option R
}.

Record Channel : Type := {
  ch_id : Z;
  ch_enabled : bool;
  ch_waveform : string;
  ch_amplitude : R;
  ch_frequency : R;
  ch_phase : R;
  ch_dc : R;
  ch_color : string;
  ch_noise : R
}.

Record Shared : Type := {
  sh_locked : bool;
  sh_difficulty : string;
  sh_showCorrect : bool;      (* JavaScript edition only *)
  sh_timeBase : R;
  sh_sampleRate : R;
  sh_durationDivs : Z;
  sh_verticalDivs : Z;
  sh_channels : list Channel
}.

(** The five measurements a student enters for a channel, as typed. *)
Record Measures : Type := {
  m_vmax : string;
  m_vmin : string;
  m_vpp : string;
  m_period : string;
  m_freq : string
}.

(** The student's view; [measures] is keyed by channel id and is missing
    when the stored view has no such object. *)
Record View : Type := {
  v_vPerDiv : R;
  v_sPerDiv : R;
  v_vOffset : R;
  v_tOffset : R;
  v_name : string;
  v_surname : string;
  v_class : string;
  v_date : string;
  v_measures : option (gmap Z Measures)
}.

(** The initial state of [useStudentView], the same in both editions. *)
Definition blankMeasures : Measures :=
  {| m_vmax := ""; m_vmin := ""; m_vpp := ""; m_period := ""; m_freq := "" |}.

Definition defaultView : View :=
  {| v_vPerDiv := 1;
     v_sPerDiv := 0.001;
     v_vOffset := 0;
     v_tOffset := 0;
     v_name := "";
     v_surname := "";
     v_class := "";
     v_date := "";
     v_measures :=
       Some (<[1%Z := blankMeasures]> (<[2%Z := blankMeasures]> (<[3%Z := blankMeasures]> ∅))) |}.

(** The keys of a measurement object, in the order the checker visits them. *)
Inductive Field : Type := vmax | vmin | vpp | period | freq.

Definition entry (k : Field) (user : Measures) : string :=
  match k with
  | vmax => m_vmax user
  | vmin => m_vmin user
  | vpp => m_vpp user
  | period => m_period user
  | freq => m_freq user
  end.

(** The reference values of a channel. *)
Record Correct : Type := {
  c_vmax : number;
  c_vmin : number;
  c_vpp : number;
  c_period : number;
  c_freq : number
}.

Definition reference (k : Field) (corr : Correct) : number :=
  match k with
  | vmax => c_vmax corr
  | vmin => c_vmin corr
  | vpp => c_vpp corr
  | period => c_period corr
  | freq => c_freq corr
  end.

(** The calls made on the 2D drawing context, in order. *)
Inductive DrawCmd : Type :=
| clearRect (x y w h : R)
| fillStyle (c : string)
| fillRect (x y w h : R)
| strokeStyle (c : string)
| lineWidth (w : R)
| lineJoin (j : string)
| lineCap (c : string)
| setLineDash (segments : list R)
| beginPath
| moveTo (x y : R)
| lineTo (x y : R)
| stroke.

(** [for (const a of l) body(a)] and [l.forEach(body)] where the body draws
    and may read random draws. *)
Fixpoint forEach {A} (l : list A) (body : A -> Rand (list DrawCmd)) : Rand (list DrawCmd) :=
  match l with
  | [] => ret []
  | a :: rest => cs <- body a ;; ds <- forEach rest body ;; ret (cs ++ ds)
  end.

(** [for (const a of l) body(a)] where the body updates a state and may
    throw. *)
Fixpoint forOf {A S} (l : list A) (body : S -> A -> option S) (s : S) : option S :=
  match l with
  | [] => Some s
  | a :: rest =>
      match body s a with
      | Some s' => forOf rest body s'
      | None => None
      end
  end.

(** The logical size of the canvas. *)
Definition width : R := 980.
Definition height : R := 520.

(** ** The JavaScript edition *)

Module Jsx.

Definition randn : Rand R :=
  u <- untilNonzero ;;
  v <- untilNonzero ;;
  ret (sqrt (-2 * ln u) * cos (2 * PI * v)).

Definition waveformSample (type : string) (t : R) (p : WaveParams) : Rand R :=
  let amplitude := p_amplitude p in
  let frequency := p_frequency p in
  let phase := p_phase p in
  let dc := p_dc p in
  let difficulty := p_difficulty p in
  let noise := default 0 (p_noise p) in
  let w := 2 * PI * frequency in
  let baseSine := sin (w * t + phase) in
  y <- (if String.eqb type "sine" then
          ret (amplitude * baseSine)
        else if String.eqb type "square" then
          let s := sin (w * t + phase) in
          ret (amplitude * (if geb s 0 then 1 else -1))
        else if String.eqb type "triangle" then
          let frac := rem (rem (t * frequency + phase / (2 * PI)) 1 + 1) 1 in
          ret (amplitude * (4 * Rabs (frac - 0.5) - 1))
        else if String.eqb type "saw" then
          let frac := rem (rem (t * frequency + phase / (2 * PI)) 1 + 1) 1 in
          ret (amplitude * (2 * frac - 1))
        else if String.eqb type "rectified" then
          ret (amplitude * Rmax 0 baseSine)
        else if String.eqb type "am" then
          let m := 0.5 * (1 + sin (2 * PI * (frequency / 10) * t)) in
          ret ((amplitude * m) * sin (w * t + phase))
        else if String.eqb type "fm" then
          let dev := 0.2 * frequency in
          let instPhase :=
            2 * PI * (frequency * t
                      + (dev / (2 * PI)) * (1 - cos (2 * PI * (frequency / 8) * t)))
            + phase in
          ret (amplitude * sin instPhase)
        else if String.eqb type "noise" then
          r <- Math_random ;;
          ret (amplitude * (r * 2 - 1))
        else if String.eqb type "sum2" then
          ret (0.6 * amplitude * sin (w * t + phase)
               + 0.6 * amplitude * sin (2 * w * t + phase / 3))
        else
          ret (amplitude * baseSine)) ;;
  let y := y + dc in
  let noiseStd := noise in
  let noiseStd :=
    if String.eqb difficulty "intermedio" then noiseStd + 0.02 * amplitude else noiseStd in
  let noiseStd :=
    if String.eqb difficulty "avanzato" then noiseStd + 0.05 * amplitude else noiseStd in
  if gtb noiseStd 0 then
    g <- randn ;; ret (y + g * noiseStd)
  else
    ret y.

(** *** defaultSharedState *)

Definition defaultSharedState : Shared :=
  {| sh_locked := false;
     sh_difficulty := "base";
     sh_showCorrect := false;
     sh_timeBase := 0.001;
     sh_sampleRate := 20000;
     sh_durationDivs := 10;
     sh_verticalDivs := 8;
     sh_channels :=
       [ {| ch_id := 1; ch_enabled := true; ch_waveform := "sine"; ch_amplitude := 2;
            ch_frequency := 1000; ch_phase := 0; ch_dc := 0; ch_color := "#22c55e";
            ch_noise := 0 |};
         {| ch_id := 2; ch_enabled := false; ch_waveform := "square"; ch_amplitude := 1;
            ch_frequency := 500; ch_phase := 0; ch_dc := 0; ch_color := "#3b82f6";
            ch_noise := 0 |};
         {| ch_id := 3; ch_enabled := false; ch_waveform := "triangle";
            ch_amplitude := 1.5; ch_frequency := 200; ch_phase := 0; ch_dc := 0;
            ch_color := "#ef4444"; ch_noise := 0 |} ] |}.

(** *** ScopeCanvas

    The body of the drawing effect, split at its loops: the grid and the
    axes, the point of one sample, the trace of one channel. *)

Definition grid (shared : Shared) (view : View) : list DrawCmd :=
  let divX := sh_durationDivs shared in
  let divY := sh_verticalDivs shared in
  let vDiv := v_vPerDiv view in
  let dx := width / IZR divX in
  let dy := height / IZR divY in
  [clearRect 0 0 width height; fillStyle "#0b1020"; fillRect 0 0 width height;
   strokeStyle "#1f2a44"; lineWidth 1]
  ++ flat_map (fun i : Z =>
                 [beginPath; moveTo (IZR i * dx) 0; lineTo (IZR i * dx) height; stroke])
              (seqZ 0 (divX + 1))
  ++ flat_map (fun j : Z =>
                 [beginPath; moveTo 0 (IZR j * dy); lineTo width (IZR j * dy); stroke])
              (seqZ 0 (divY + 1))
  ++ [strokeStyle "#334155"; setLineDash [6; 6]; beginPath;
      moveTo 0 (height / 2 - (v_vOffset view / vDiv) * dy);
      lineTo width (height / 2 - (v_vOffset view / vDiv) * dy);
      stroke; setLineDash []].

Definition sampleCount (shared : Shared) (view : View) : Z :=
  let totalTime := v_sPerDiv view * IZR (sh_durationDivs shared) in
  Z.max 1000 (Math_floor (sh_sampleRate shared * totalTime)).

Definition samplePoint (shared : Shared) (view : View) (ch : Channel) (N i : Z)
    : Rand (list DrawCmd) :=
  let totalTime := v_sPerDiv view * IZR (sh_durationDivs shared) in
  let vDiv := v_vPerDiv view in
  let dy := height / IZR (sh_verticalDivs shared) in
  let t := (IZR i / IZR (N - 1)) * totalTime + v_tOffset view in
  yV <- waveformSample (ch_waveform ch) t
          {| p_amplitude := ch_amplitude ch;
             p_frequency := ch_frequency ch;
             p_phase := ch_phase ch;
             p_dc := ch_dc ch;
             p_difficulty := sh_difficulty shared;
             p_noise := Some (ch_noise ch) |} ;;
  let x := (IZR i / IZR (N - 1)) * width in
  let y := height / 2 - ((yV - v_vOffset view) / vDiv) * dy in
  ret [if Z.eqb i 0 then moveTo x y else lineTo x y].

Definition trace (shared : Shared) (view : View) (ch : Channel) : Rand (list DrawCmd) :=
  if negb (ch_enabled ch) then ret [] else
  let N := sampleCount shared view in
  points <- forEach (seqZ 0 N) (samplePoint shared view ch N) ;;
  ret ([lineWidth 2; strokeStyle (ch_color ch); beginPath] ++ points ++ [stroke]).

Definition ScopeCanvas (shared : Shared) (view : View) : Rand (list DrawCmd) :=
  traces <- forEach (sh_channels shared) (trace shared view) ;;
  ret (grid shared view ++ traces).

(** *** computeCorrect *)

(** The body of the loop of [computeCorrect]: the reference values of one
    channel. *)
Definition correctFor (ch : Channel) : Correct :=
  let amplitude := ch_amplitude ch in
  let dc := ch_dc ch in
  let frequency := ch_frequency ch in
  let waveform := ch_waveform ch in
  if String.eqb waveform "sine" then
    let freq := frequency in
    {| c_vmax := Fin (dc + amplitude);
       c_vmin := Fin (dc - amplitude);
       c_vpp := Fin (2 * amplitude);
       c_period := if gtb freq 0 then Fin (1 / freq) else Infinity;
       c_freq := Fin freq |}
  else if String.eqb waveform "square" then
    let freq := frequency in
    {| c_vmax := Fin (dc + amplitude);
       c_vmin := Fin (dc - amplitude);
       c_vpp := Fin (2 * amplitude);
       c_period := if gtb freq 0 then Fin (1 / freq) else Infinity;
       c_freq := Fin freq |}
  else
    let freq := if String.eqb waveform "noise" then 0 else frequency in
    {| c_vmax := Fin (dc + amplitude);
       c_vmin := Fin (dc - amplitude);
       c_vpp := Fin (2 * amplitude);
       c_period := if gtb freq 0 then Fin (1 / freq) else Infinity;
       c_freq := Fin freq |}.

Definition computeCorrect (shared : Shared) : gmap Z Correct :=
  foldl (fun map ch => <[ch_id ch := correctFor ch]> map) ∅ (sh_channels shared).

(** *** doCheck *)

Record ChannelCheck : Type := { cc_ok : bool; cc_comp : list (Field * bool) }.

Record CheckResult : Type := { r_ok : bool; r_perChannel : gmap Z ChannelCheck }.

(** One turn of the loop over the fields: does the entry [u] match the
    reference [c] within [tol]? *)
Definition fieldPass (u c : number) (tol : R) : bool :=
  if negb (isFinite u) || negb (isFinite c) then false
  else
    match u, c with
    | Fin u, Fin c =>
        let rel := Rabs (u - c) / (Rabs c + 1e-9) in
        leb rel tol
    | _, _ => false
    end.

(** The loop over the fields of one channel: the pair [(ok, comp)]. *)
Definition checkFields (parseFloat : string -> number)
    (fields : list (Field * R)) (user : Measures) (corr : Correct)
    : bool * list (Field * bool) :=
  foldl (fun '(ok, comp) '(k, tol) =>
           let u := parseFloat (entry k user) in
           let c := reference k corr in
           let pass := fieldPass u c tol in
           (if pass then ok else false, comp ++ [(k, pass)]))
        (true, []) fields.

(** [doCheck] throws (no result) when an enabled channel has no
    measurement object. *)
Definition doCheck (parseFloat : string -> number) (shared : Shared) (view : View)
    : option CheckResult :=
  let correctValues := computeCorrect shared in
  let tolV := 0.05 in
  let tolF := 0.02 in
  forOf (sh_channels shared)
    (fun res ch =>
       if negb (ch_enabled ch) then Some res else
       match v_measures view with
       | None => None
       | Some measures =>
           match measures !! ch_id ch, correctValues !! ch_id ch with
           | Some user, Some corr =>
               let fields :=
                 [(vmax, tolV); (vmin, tolV); (vpp, tolV); (period, tolF); (freq, tolF)] in
               let '(ok, comp) := checkFields parseFloat fields user corr in
               Some {| r_ok := if ok then r_ok res else false;
                       r_perChannel :=
                         <[ch_id ch := {| cc_ok := ok; cc_comp := comp |}]>
                           (r_perChannel res) |}
           | _, _ => None
           end
       end)
    {| r_ok := true; r_perChannel := ∅ |}.

End Jsx.

(** ** The type-annotated edition *)

Module Tsx.

Definition randn : Rand R :=
  u <- untilNonzero ;;
  v <- untilNonzero ;;
  ret (sqrt (-2 * ln u) * cos (2 * PI * v)).

Definition NORM : R := 1.299038105676658.

Definition waveformSample (type : string) (t : R) (p : WaveParams) : Rand R :=
  let amplitude := p_amplitude p in
  let frequency := p_frequency p in
  let phase := p_phase p in
  let dc := p_dc p in
  let difficulty := p_difficulty p in
  let noise := default 0 (p_noise p) in
  let w := 2 * PI * frequency in
  let baseSine := sin (w * t + phase) in
  y <- (if String.eqb type "sine" then
          ret (amplitude * baseSine)
        else if String.eqb type "square" then
          ret (amplitude * (if geb (sin (w * t + phase)) 0 then 1 else -1))
        else if String.eqb type "triangle" then
          let frac := rem (rem (t * frequency + phase / (2 * PI)) 1 + 1) 1 in
          ret (amplitude * (4 * Rabs (frac - 0.5) - 1))
        else if String.eqb type "saw" then
          let frac := rem (rem (t * frequency + phase / (2 * PI)) 1 + 1) 1 in
          ret (amplitude * (2 * frac - 1))
        else if String.eqb type "rectified" then
          ret (amplitude * Rmax 0 baseSine)
        else if String.eqb type "am" then
          let m := 0.5 * (1 + sin (2 * PI * (frequency / 10) * t)) in
          ret ((amplitude * m) * sin (w * t + phase))
        else if String.eqb type "fm" then
          let dev := 0.2 * frequency in
          let inst :=
            2 * PI * (frequency * t
                      + (dev / (2 * PI)) * (1 - cos (2 * PI * (frequency / 8) * t)))
            + phase in
          ret (amplitude * sin inst)
        else if String.eqb type "noise" then
          r <- Math_random ;;
          ret (amplitude * (r * 2 - 1))
        else if String.eqb type "sum2" then
          let raw := sin (w * t + phase) + 0.5 * sin (2 * w * t + 2 * phase) in
          ret (amplitude * (raw / NORM))
        else
          ret (amplitude * baseSine)) ;;
  let n := noise in
  let n := if String.eqb difficulty "intermedio" then n + 0.02 * amplitude else n in
  let n := if String.eqb difficulty "avanzato" then n + 0.05 * amplitude else n in
  y <- (if gtb n 0 then g <- randn ;; ret (y + g * n) else ret y) ;;
  ret (y + dc).

(** *** defaultSharedState *)

Definition defaultSharedState : Shared :=
  {| sh_locked := false;
     sh_difficulty := "base";
     sh_showCorrect := false;
     sh_timeBase := 0.001;
     sh_sampleRate := 20000;
     sh_durationDivs := 10;
     sh_verticalDivs := 10;
     sh_channels :=
       [ {| ch_id := 1; ch_enabled := true; ch_waveform := "sine"; ch_amplitude := 2;
            ch_frequency := 1000; ch_phase := 0; ch_dc := 0; ch_color := "#22c55e";
            ch_noise := 0 |};
         {| ch_id := 2; ch_enabled := false; ch_waveform := "square"; ch_amplitude := 1;
            ch_frequency := 500; ch_phase := 0; ch_dc := 0; ch_color := "#3b82f6";
            ch_noise := 0 |};
         {| ch_id := 3; ch_enabled := false; ch_waveform := "triangle";
            ch_amplitude := 1.5; ch_frequency := 200; ch_phase := 0; ch_dc := 0;
            ch_color := "#ef4444"; ch_noise := 0 |} ] |}.

(** *** ScopeCanvas

    The body of the drawing effect, split at its loops: the grid and the
    axes, the point of one sample, the trace of one channel. *)

Definition grid (shared : Shared) (view : View) : list DrawCmd :=
  let divX := sh_durationDivs shared in
  let divY := sh_verticalDivs shared in
  let vDiv := v_vPerDiv view in
  let dx := width / IZR divX in
  let dy := height / IZR divY in
  [clearRect 0 0 width height; fillStyle "#0b1020"; fillRect 0 0 width height;
   strokeStyle "#1f2a44"; lineWidth 1]
  ++ flat_map (fun i : Z =>
                 let x := IZR (Math_round (IZR i * dx)) + 0.5 in
                 [beginPath; moveTo x 0; lineTo x height; stroke])
              (seqZ 0 (divX + 1))
  ++ flat_map (fun j : Z =>
                 let y := IZR (Math_round (IZR j * dy)) + 0.5 in
                 [beginPath; moveTo 0 y; lineTo width y; stroke])
              (seqZ 0 (divY + 1))
  ++ [strokeStyle "#475569"; lineWidth 1.5; setLineDash [];
      beginPath; moveTo (width / 2) 0; lineTo (width / 2) height; stroke;
      beginPath;
      moveTo 0 (height / 2 - (v_vOffset view / vDiv) * dy);
      lineTo width (height / 2 - (v_vOffset view / vDiv) * dy);
      stroke].

Definition sampleCount (shared : Shared) (view : View) : Z :=
  let totalTime := v_sPerDiv view * IZR (sh_durationDivs shared) in
  Z.max 2000 (Math_floor (sh_sampleRate shared * totalTime)).

Definition samplePoint (shared : Shared) (view : View) (ch : Channel) (N i : Z)
    : Rand (list DrawCmd) :=
  let totalTime := v_sPerDiv view * IZR (sh_durationDivs shared) in
  let vDiv := v_vPerDiv view in
  let dy := height / IZR (sh_verticalDivs shared) in
  let t := (IZR i / IZR (N - 1)) * totalTime + v_tOffset view in
  yV <- waveformSample (ch_waveform ch) t
          {| p_amplitude := ch_amplitude ch;
             p_frequency := ch_frequency ch;
             p_phase := ch_phase ch;
             p_dc := ch_dc ch;
             p_difficulty := sh_difficulty shared;
             p_noise := Some (ch_noise ch) |} ;;
  let xR := (IZR i / IZR (N - 1)) * width in
  let yR := height / 2 - ((yV - v_vOffset view) / vDiv) * dy in
  let x := IZR (Math_round xR) + 0.5 in
  let y := IZR (Math_round yR) + 0.5 in
  ret [if Z.eqb i 0 then moveTo x y else lineTo x y].

Definition trace (shared : Shared) (view : View) (ch : Channel) : Rand (list DrawCmd) :=
  if negb (ch_enabled ch) then ret [] else
  let N := sampleCount shared view in
  points <- forEach (seqZ 0 N) (samplePoint shared view ch N) ;;
  ret ([lineWidth 2; lineJoin "round"; lineCap "round"; strokeStyle (ch_color ch);
        beginPath] ++ points ++ [stroke]).

Definition ScopeCanvas (shared : Shared) (view : View) : Rand (list DrawCmd) :=
  traces <- forEach (sh_channels shared) (trace shared view) ;;
  ret (grid shared view ++ traces).

(** *** doCheck *)

Record ChannelErrors : Type := { ce_ok : bool; ce_errors : nat }.

Record CheckResult : Type := {
  r_ok : bool;
  r_perChannel : gmap Z ChannelErrors;
  r_punteggio : Z;
  r_erroriCount : nat;
  r_datiMancanti : nat
}.

Definition defaultMeasures : gmap Z Measures :=
  <[1%Z := blankMeasures]> (<[2%Z := blankMeasures]> (<[3%Z := blankMeasures]> ∅)).

(** The reference values, computed inside [doCheck]. *)
Definition corr (ch : Channel) : Correct :=
  {| c_vmax := Fin (ch_amplitude ch + ch_dc ch);
     c_vmin := Fin (- ch_amplitude ch + ch_dc ch);
     c_vpp := Fin (2 * ch_amplitude ch);
     c_period := if gtb (ch_frequency ch) 0 then Fin (1 / ch_frequency ch) else Infinity;
     c_freq := Fin (ch_frequency ch) |}.

(** One turn of the loop over the fields: is the entry [u] an error against
    the reference [c]? *)
Definition fieldFails (u c : number) (tol : R) : bool :=
  if negb (isFinite u) || negb (isFinite c) then true
  else
    match u, c with
    | Fin u, Fin c =>
        let rel := Rabs (u - c) / (Rabs c + 1e-9) in
        gtb rel tol
    | _, _ => true
    end.

(** [(res.perChannel[id] = res.perChannel[id] || { ok: true, errors: 0 }).errors++] *)
Definition countError (id : Z) (perChannel : gmap Z ChannelErrors) : gmap Z ChannelErrors :=
  let r := default {| ce_ok := true; ce_errors := 0 |} (perChannel !! id) in
  <[id := {| ce_ok := ce_ok r; ce_errors := S (ce_errors r) |}]> perChannel.

Definition doCheck (parseFloat : string -> number) (shared : Shared) (view : View)
    : CheckResult :=
  let measures := default defaultMeasures (v_measures view) in
  let tolV := 0.05 in
  let tolF := 0.02 in
  let blank (s : string) : nat := if String.eqb s "" then 1%nat else 0%nat in
  let datiMancanti :=
    (blank (v_name view) + blank (v_surname view) + blank (v_class view)
     + blank (v_date view))%nat in
  let '(ok, perChannel) :=
    foldl (fun res ch =>
             if negb (ch_enabled ch) then res else
             let user := measures !! ch_id ch in
             foldl (fun '(ok, perChannel) '(k, tol) =>
                      let u := match user with
                               | Some m => parseFloat (entry k m)
                               | None => NaN
                               end in
                      let c := reference k (corr ch) in
                      if fieldFails u c tol
                      then (false, countError (ch_id ch) perChannel)
                      else (ok, perChannel))
                   res
                   [(vmax, tolV); (vmin, tolV); (vpp, tolV); (period, tolF); (freq, tolF)])
          (true, ∅) (sh_channels shared) in
  let totalErrors := map_fold (fun _ r total => (total + ce_errors r)%nat) 0%nat perChannel in
  let perChannel :=
    (fun r => {| ce_ok := Nat.eqb (ce_errors r) 0; ce_errors := ce_errors r |})
      <$> perChannel in
  let punteggio := (10 - Z.min 5 (Z.of_nat (Nat.div2 (S totalErrors))))%Z in
  let punteggio := if Nat.eqb datiMancanti 0 then punteggio else Z.max 0 (punteggio - 1) in
  {| r_ok := ok; r_perChannel := perChannel; r_punteggio := punteggio;
     r_erroriCount := totalErrors; r_datiMancanti := datiMancanti |}.

(** *** setMeasure *)

(** [{ ...safeChannel, [k]: v }] for the five keys a [MeasureCard] edits. *)
Definition setField (k : Field) (v : string) (m : Measures) : Measures :=
  match k with
  | vmax => {| m_vmax := v; m_vmin := m_vmin m; m_vpp := m_vpp m;
               m_period := m_period m; m_freq := m_freq m |}
  | vmin => {| m_vmax := m_vmax m; m_vmin := v; m_vpp := m_vpp m;
               m_period := m_period m; m_freq := m_freq m |}
  | vpp => {| m_vmax := m_vmax m; m_vmin := m_vmin m; m_vpp := v;
              m_period := m_period m; m_freq := m_freq m |}
  | period => {| m_vmax := m_vmax m; m_vmin := m_vmin m; m_vpp := m_vpp m;
                 m_period := v; m_freq := m_freq m |}
  | freq => {| m_vmax := m_vmax m; m_vmin := m_vmin m; m_vpp := m_vpp m;
               m_period := m_period m; m_freq := v |}
  end.

(** The state update of [setMeasure(chId, k, v)]: a missing [measures]
    object is replaced by the default one and a missing entry of the channel
    by the blank one before the field is written. *)
Definition setMeasure (chId : Z) (k : Field) (v : string) (s : View) : View :=
  let safeMeasures := default defaultMeasures (v_measures s) in
  let safeChannel := default blankMeasures (safeMeasures !! chId) in
  let safeMeasures := <[chId := setField k v safeChannel]> safeMeasures in
  {| v_vPerDiv := v_vPerDiv s;
     v_sPerDiv := v_sPerDiv s;
     v_vOffset := v_vOffset s;
     v_tOffset := v_tOffset s;
     v_name := v_name s;
     v_surname := v_surname s;
     v_class := v_class s;
     v_date := v_date s;
     v_measures := Some safeMeasures |}.

End Tsx.

(** ** The teacher's page: [randomize]

    [randomize] has the same text in both editions. *)

(** [+(x).toFixed(2)]: [x] rounded to two decimals, a half away from zero. *)
Definition toFixed2 (x : R) : R :=
  if Rlt_dec x 0 then - (IZR (Math_round (- x * 100)) / 100)
  else IZR (Math_round (x * 100)) / 100.

(** [arr[Math.floor(Math.random() * arr.length)]].  [Math.random] draws from
    [0, 1), which keeps the index in range; a tape entry that sends the index
    out of range is no draw of [Math.random] and gives no result. *)
Definition pick {A} (arr : list A) : Rand A :=
  r <- Math_random ;;
  fun tape =>
    let i := Math_floor (r * INR (length arr)) in
    if (0 <=? i)%Z then
      match arr !! Z.to_nat i with
      | Some a => Some (a, tape)
      | None => None
      end
    else None.

(** [l.map(f)] where [f] reads random draws. *)
Fixpoint mapRand {A B} (f : A -> Rand B) (l : list A) : Rand (list B) :=
  match l with
  | [] => ret []
  | a :: rest => b <- f a ;; bs <- mapRand f rest ;; ret (b :: bs)
  end.

Definition baseFreqs : list R := [50; 100; 200; 500; 1000; 2000; 5000].

Definition forms : list string :=
  ["sine"; "square"; "triangle"; "saw"; "rectified"; "am"; "fm"; "sum2"]%string.

(** The object literal of the [map] callback: the draws are read in the order
    of its properties. *)
Definition randomizeChannel (level : string) (ch : Channel) : Rand Channel :=
  enabled <- Math_random ;;
  waveform <- pick forms ;;
  amplitude <- Math_random ;;
  frequency <- pick baseFreqs ;;
  phase <- Math_random ;;
  dc <- Math_random ;;
  noise <- Math_random ;;
  ret {| ch_id := ch_id ch;
         ch_enabled := gtb enabled 0.2;
         ch_waveform := waveform;
         ch_amplitude := toFixed2 (0.5 + amplitude * 4);
         ch_frequency := frequency;
         ch_phase := toFixed2 (phase * PI);
         ch_dc := toFixed2 (-1 + dc * 2);
         ch_color := ch_color ch;
         ch_noise :=
           if String.eqb level "avanzato" then toFixed2 (noise * 0.2)
           else if String.eqb level "intermedio" then toFixed2 (noise * 0.1)
           else toFixed2 (noise * 0.03) |}.

(** The state [randomize(level)] hands to [setShared]. *)
Definition randomize (level : string) (shared : Shared) : Rand Shared :=
  channels <- mapRand (randomizeChannel level) (sh_channels shared) ;;
  ret {| sh_locked := sh_locked shared;
         sh_difficulty := level;
         sh_showCorrect := sh_showCorrect shared;
         sh_timeBase := sh_timeBase shared;
         sh_sampleRate := sh_sampleRate shared;
         sh_durationDivs := sh_durationDivs shared;
         sh_verticalDivs := sh_verticalDivs shared;
         sh_channels := channels |}.

(** * The arithmetic of the machine

    The modules [Jsx] and [Tsx] evaluate the expressions of the program over
    the real numbers: that is what the program computes up to rounding, and
    it is the model of the properties whose outcome depends continuously on
    the operands.  Where the program decides on a computed value (the sign
    of a sine, the integer below a product, the wrap of a remainder) the
    outcome follows the number the machine computed, and the functions
    concerned are embedded once more, operation by operation, over an
    arbitrary arithmetic.

    A [Machine] gives the rounding [rnd] applied to the exact result of
    [+], [-], [*] and [/], to a decimal literal that is not a number of the
    machine and to [Math.PI], and the functions [Math.sin], [Math.cos],
    [Math.sqrt] and [Math.log] of the engine, whose results the language
    leaves to the implementation.  The laws are those of binary64 rounding
    to nearest, overflow aside: rounding is odd and monotone, and the
    integers up to [2^53] and one half are numbers of the machine.
    Negation, [Math.abs], [Math.max], [Math.floor], [Math.round], [%] and
    the comparisons are exact on every machine. *)

Record Machine : Type := {
  rnd : R -> R;
  Math_sin : R -> R;
  Math_cos : R -> R;
  Math_sqrt : R -> R;
  Math_log : R -> R;
  rnd_opp : forall x, rnd (- x) = - rnd x;
  rnd_le : forall x y, x <= y -> rnd x <= rnd y;
  rnd_int : forall n : Z, (Z.abs n <= 2 ^ 53)%Z -> rnd (IZR n) = IZR n;
  rnd_half : rnd 0.5 = 0.5
}.

Definition fadd (M : Machine) (x y : R) : R := rnd M (x + y).
Definition fsub (M : Machine) (x y : R) : R := rnd M (x - y).
Definition fmul (M : Machine) (x y : R) : R := rnd M (x * y).
Definition fdiv (M : Machine) (x y : R) : R := rnd M (x / y).
Definition Math_PI (M : Machine) : R := rnd M PI.

(** The arithmetic without rounding, on which the machine-level functions
    are those of [Jsx] and [Tsx]. *)
Definition exact : Machine :=
  {| rnd := fun x => x;
     Math_sin := sin;
     Math_cos := cos;
     Math_sqrt := sqrt;
     Math_log := ln;
     rnd_opp := fun x => eq_refl;
     rnd_le := fun x y H => H;
     rnd_int := fun n _ => eq_refl;
     rnd_half := eq_refl |}.

(** ** The JavaScript edition on a machine *)

Module JsxM.

Section OnMachine.

Variable M : Machine.

Notation "x +! y" := (fadd M x y) (at level 50, left associativity).
Notation "x -! y" := (fsub M x y) (at level 50, left associativity).
Notation "x *! y" := (fmul M x y) (at level 40, left associativity).
Notation "x /! y" := (fdiv M x y) (at level 40, left associativity).

Definition randn : Rand R :=
  u <- untilNonzero ;;
  v <- untilNonzero ;;
  ret (Math_sqrt M (-2 *! Math_log M u) *! Math_cos M (2 *! Math_PI M *! v)).

Definition waveformSample (type : string) (t : R) (p : WaveParams) : Rand R :=
  let amplitude := p_amplitude p in
  let frequency := p_frequency p in
  let phase := p_phase p in
  let dc := p_dc p in
  let difficulty := p_difficulty p in
  let noise := default 0 (p_noise p) in
  let w := 2 *! Math_PI M *! frequency in
  let baseSine := Math_sin M (w *! t +! phase) in
  y <- (if String.eqb type "sine" then
          ret (amplitude *! baseSine)
        else if String.eqb type "square" then
          let s := Math_sin M (w *! t +! phase) in
          ret (amplitude *! (if geb s 0 then 1 else -1))
        else if String.eqb type "triangle" then
          let frac := rem (rem (t *! frequency +! phase /! (2 *! Math_PI M)) 1 +! 1) 1 in
          ret (amplitude *! (4 *! Rabs (frac -! 0.5) -! 1))
        else if String.eqb type "saw" then
          let frac := rem (rem (t *! frequency +! phase /! (2 *! Math_PI M)) 1 +! 1) 1 in
          ret (amplitude *! (2 *! frac -! 1))
        else if String.eqb type "rectified" then
          ret (amplitude *! Rmax 0 baseSine)
        else if String.eqb type "am" then
          let m := 0.5 *! (1 +! Math_sin M (2 *! Math_PI M *! (frequency /! 10) *! t)) in
          ret ((amplitude *! m) *! Math_sin M (w *! t +! phase))
        else if String.eqb type "fm" then
          let dev := rnd M 0.2 *! frequency in
          let instPhase :=
            2 *! Math_PI M
            *! (frequency *! t
                +! (dev /! (2 *! Math_PI M))
                   *! (1 -! Math_cos M (2 *! Math_PI M *! (frequency /! 8) *! t)))
            +! phase in
          ret (amplitude *! Math_sin M instPhase)
        else if String.eqb type "noise" then
          r <- Math_random ;;
          ret (amplitude *! (r *! 2 -! 1))
        else if String.eqb type "sum2" then
          ret (rnd M 0.6 *! amplitude *! Math_sin M (w *! t +! phase)
               +! rnd M 0.6 *! amplitude *! Math_sin M (2 *! w *! t +! phase /! 3))
        else
          ret (amplitude *! baseSine)) ;;
  let y := y +! dc in
  let noiseStd := noise in
  let noiseStd :=
    if String.eqb difficulty "intermedio" then noiseStd +! rnd M 0.02 *! amplitude
    else noiseStd in
  let noiseStd :=
    if String.eqb difficulty "avanzato" then noiseStd +! rnd M 0.05 *! amplitude
    else noiseStd in
  if gtb noiseStd 0 then
    g <- randn ;; ret (y +! g *! noiseStd)
  else
    ret y.

Definition sampleCount (shared : Shared) (view : View) : Z :=
  let totalTime := v_sPerDiv view *! IZR (sh_durationDivs shared) in
  Z.max 1000 (Math_floor (sh_sampleRate shared *! totalTime)).

Definition samplePoint (shared : Shared) (view : View) (ch : Channel) (N i : Z)
    : Rand (list DrawCmd) :=
  let totalTime := v_sPerDiv view *! IZR (sh_durationDivs shared) in
  let vDiv := v_vPerDiv view in
  let dy := height /! IZR (sh_verticalDivs shared) in
  let t := (IZR i /! IZR (N - 1)) *! totalTime +! v_tOffset view in
  yV <- waveformSample (ch_waveform ch) t
          {| p_amplitude := ch_amplitude ch;
             p_frequency := ch_frequency ch;
             p_phase := ch_phase ch;
             p_dc := ch_dc ch;
             p_difficulty := sh_difficulty shared;
             p_noise := Some (ch_noise ch) |} ;;
  let x := (IZR i /! IZR (N - 1)) *! width in
  let y := height /! 2 -! ((yV -! v_vOffset view) /! vDiv) *! dy in
  ret [if Z.eqb i 0 then moveTo x y else lineTo x y].

Definition trace (shared : Shared) (view : View) (ch : Channel) : Rand (list DrawCmd) :=
  if negb (ch_enabled ch) then ret [] else
  let N := sampleCount shared view in
  points <- forEach (seqZ 0 N) (samplePoint shared view ch N) ;;
  ret ([lineWidth 2; strokeStyle (ch_color ch); beginPath] ++ points ++ [stroke]).

End OnMachine.

End JsxM.

(** ** The type-annotated edition on a machine *)

Module TsxM.

Section OnMachine.

Variable M : Machine.

Notation "x +! y" := (fadd M x y) (at level 50, left associativity).
Notation "x -! y" := (fsub M x y) (at level 50, left associativity).
Notation "x *! y" := (fmul M x y) (at level 40, left associativity).
Notation "x /! y" := (fdiv M x y) (at level 40, left associativity).

Definition randn : Rand R :=
  u <- untilNonzero ;;
  v <- untilNonzero ;;
  ret (Math_sqrt M (-2 *! Math_log M u) *! Math_cos M (2 *! Math_PI M *! v)).

Definition NORM : R := rnd M 1.299038105676658.

Definition waveformSample (type : string) (t : R) (p : WaveParams) : Rand R :=
  let amplitude := p_amplitude p in
  let frequency := p_frequency p in
  let phase := p_phase p in
  let dc := p_dc p in
  let difficulty := p_difficulty p in
  let noise := default 0 (p_noise p) in
  let w := 2 *! Math_PI M *! frequency in
  let baseSine := Math_sin M (w *! t +! phase) in
  y <- (if String.eqb type "sine" then
          ret (amplitude *! baseSine)
        else if String.eqb type "square" then
          ret (amplitude *! (if geb (Math_sin M (w *! t +! phase)) 0 then 1 else -1))
        else if String.eqb type "triangle" then
          let frac := rem (rem (t *! frequency +! phase /! (2 *! Math_PI M)) 1 +! 1) 1 in
          ret (amplitude *! (4 *! Rabs (frac -! 0.5) -! 1))
        else if String.eqb type "saw" then
          let frac := rem (rem (t *! frequency +! phase /! (2 *! Math_PI M)) 1 +! 1) 1 in
          ret (amplitude *! (2 *! frac -! 1))
        else if String.eqb type "rectified" then
          ret (amplitude *! Rmax 0 baseSine)
        else if String.eqb type "am" then
          let m := 0.5 *! (1 +! Math_sin M (2 *! Math_PI M *! (frequency /! 10) *! t)) in
          ret ((amplitude *! m) *! Math_sin M (w *! t +! phase))
        else if String.eqb type "fm" then
          let dev := rnd M 0.2 *! frequency in
          let inst :=
            2 *! Math_PI M
            *! (frequency *! t
                +! (dev /! (2 *! Math_PI M))
                   *! (1 -! Math_cos M (2 *! Math_PI M *! (frequency /! 8) *! t)))
            +! phase in
          ret (amplitude *! Math_sin M inst)
        else if String.eqb type "noise" then
          r <- Math_random ;;
          ret (amplitude *! (r *! 2 -! 1))
        else if String.eqb type "sum2" then
          let raw :=
            Math_sin M (w *! t +! phase) +! 0.5 *! Math_sin M (2 *! w *! t +! 2 *! phase) in
          ret (amplitude *! (raw /! NORM))
        else
          ret (amplitude *! baseSine)) ;;
  let n := noise in
  let n := if String.eqb difficulty "intermedio" then n +! rnd M 0.02 *! amplitude else n in
  let n := if String.eqb difficulty "avanzato" then n +! rnd M 0.05 *! amplitude else n in
  y <- (if gtb n 0 then g <- randn ;; ret (y +! g *! n) else ret y) ;;
  ret (y +! dc).

Definition sampleCount (shared : Shared) (view : View) : Z :=
  let totalTime := v_sPerDiv view *! IZR (sh_durationDivs shared) in
  Z.max 2000 (Math_floor (sh_sampleRate shared *! totalTime)).

Definition samplePoint (shared : Shared) (view : View) (ch : Channel) (N i : Z)
    : Rand (list DrawCmd) :=
  let totalTime := v_sPerDiv view *! IZR (sh_durationDivs shared) in
  let vDiv := v_vPerDiv view in
  let dy := height /! IZR (sh_verticalDivs shared) in
  let t := (IZR i /! IZR (N - 1)) *! totalTime +! v_tOffset view in
  yV <- waveformSample (ch_waveform ch) t
          {| p_amplitude := ch_amplitude ch;
             p_frequency := ch_frequency ch;
             p_phase := ch_phase ch;
             p_dc := ch_dc ch;
             p_difficulty := sh_difficulty shared;
             p_noise := Some (ch_noise ch) |} ;;
  let xR := (IZR i /! IZR (N - 1)) *! width in
  let yR := height /! 2 -! ((yV -! v_vOffset view) /! vDiv) *! dy in
  let x := IZR (Math_round xR) +! 0.5 in
  let y := IZR (Math_round yR) +! 0.5 in
  ret [if Z.eqb i 0 then moveTo x y else lineTo x y].

Definition trace (shared : Shared) (view : View) (ch : Channel) : Rand (list DrawCmd) :=
  if negb (ch_enabled ch) then ret [] else
  let N := sampleCount shared view in
  points <- forEach (seqZ 0 N) (samplePoint shared view ch N) ;;
  ret ([lineWidth 2; lineJoin "round"; lineCap "round"; strokeStyle (ch_color ch);
        beginPath] ++ points ++ [stroke]).

End OnMachine.

End TsxM.

(** * Vocabulary of the statements

    Formulas of the spec, named parts of the embedded functions, and the
    concrete inputs the examples use. *)

(** The nine waveform kinds the program declares. *)
Definition kinds : list string :=
  ["sine"; "square"; "triangle"; "saw"; "rectified"; "am"; "fm"; "noise"; "sum2"]%string.

(** The standard deviation [waveformSample] computes for the Gaussian term:
    the channel's own noise plus the floor of the difficulty. *)
Definition noiseStdOf (p : WaveParams) : R :=
  let n := default 0 (p_noise p) in
  let n := if String.eqb (p_difficulty p) "intermedio" then n + 0.02 * p_amplitude p else n in
  if String.eqb (p_difficulty p) "avanzato" then n + 0.05 * p_amplitude p else n.

(** The value [randn] returns for the two draws [u] and [v]. *)
Definition boxMuller (u v : R) : R := sqrt (-2 * ln u) * cos (2 * PI * v).

(** The phase angle [w * t + phase] of the sampler. *)
Definition angle (p : WaveParams) (t : R) : R :=
  2 * PI * p_frequency p * t + p_phase p.

(** Spec §4.1, sum2: [A·(sin(ωt+φ) + 0.5·sin(2ωt+2φ))/1.299038105676658 + dc]. *)
Definition sum2_formula (A f phi dc t : R) : R :=
  A * (sin (2 * PI * f * t + phi) + 0.5 * sin (2 * (2 * PI * f) * t + 2 * phi))
  / 1.299038105676658 + dc.

(** Channel noise 0 and difficulty basic (["base"] in the program). *)
Definition quiet (p : WaveParams) : Prop :=
  default 0 (p_noise p) = 0 /\
  (p_difficulty p = "base"%string \/ p_difficulty p = "basic"%string).

(** The tail of the JavaScript [waveformSample]: offset, then noise. *)
Definition finish_js (p : WaveParams) (y : R) : Rand R :=
  if gtb (noiseStdOf p) 0
  then g <- Jsx.randn ;; ret (y + p_dc p + g * noiseStdOf p)
  else ret (y + p_dc p).

(** The tail of the type-annotated [waveformSample]: noise, then offset. *)
Definition finish_ts (p : WaveParams) (y : R) : Rand R :=
  y' <- (if gtb (noiseStdOf p) 0
         then g <- Tsx.randn ;; ret (y + g * noiseStdOf p)
         else ret y) ;;
  ret (y' + p_dc p).

(** The sign convention of the square wave: [sign(0) = +1]. *)
Definition sign (s : R) : R := if Rle_dec 0 s then 1 else -1.

(** A square channel of amplitude 1 with channel noise 0.5 V. *)
Definition noisySquare : WaveParams :=
  {| p_amplitude := 1; p_frequency := 1; p_phase := 0; p_dc := 0;
     p_difficulty := "base"; p_noise := Some 0.5 |}.

(** A square channel without noise. *)
Definition quietSquare : WaveParams :=
  {| p_amplitude := 2; p_frequency := 1000; p_phase := 0; p_dc := 1;
     p_difficulty := "base"; p_noise := Some 0 |}.

(** A sine channel of 2 V at 1 Hz with 1 V offset, difficulty "avanzato". *)
Definition advancedSine : WaveParams :=
  {| p_amplitude := 2; p_frequency := 1; p_phase := 0; p_dc := 1;
     p_difficulty := "avanzato"; p_noise := Some 0 |}.

(** A noise channel with channel noise 0 and difficulty "base". *)
Definition noiseProbe : WaveParams :=
  {| p_amplitude := 1; p_frequency := 1000; p_phase := 0; p_dc := 0;
     p_difficulty := "base"; p_noise := Some 0 |}.

(** A sum2 channel of amplitude 1 at [f] Hz, phase 0, no offset, no noise. *)
Definition unitSum2 (f : R) : WaveParams :=
  {| p_amplitude := 1; p_frequency := f; p_phase := 0; p_dc := 0;
     p_difficulty := "base"; p_noise := Some 0 |}.

(** The pixel alignment of the type-annotated edition. *)
Definition snap (x : R) : R := IZR (Math_round x) + 0.5.

(** The four drawing calls of the vertical gridline of index [i]: they follow
    the five set-up calls and the gridlines of smaller index. *)
Definition verticalGridline (cmds : list DrawCmd) (i : nat) : list DrawCmd :=
  take 4 (drop (5 + 4 * i) cmds).

(** The four drawing calls of the horizontal gridline of index [j]: they
    follow the set-up calls and the [divX + 1] vertical gridlines. *)
Definition horizontalGridline (divX : Z) (cmds : list DrawCmd) (j : nat) : list DrawCmd :=
  take 4 (drop (5 + 4 * Z.to_nat (divX + 1) + 4 * j) cmds).

(** The parameter object [ScopeCanvas] passes to [waveformSample]. *)
Definition paramsOf (shared : Shared) (ch : Channel) : WaveParams :=
  {| p_amplitude := ch_amplitude ch;
     p_frequency := ch_frequency ch;
     p_phase := ch_phase ch;
     p_dc := ch_dc ch;
     p_difficulty := sh_difficulty shared;
     p_noise := Some (ch_noise ch) |}.

(** A channel whose samples read no random draw. *)
Definition quietChannel (shared : Shared) (ch : Channel) : Prop :=
  ch_waveform ch <> "noise"%string /\ quiet (paramsOf shared ch).

(** Spec §4.2: [totalDisplayedTime = secondsPerDiv × horizontalDivisions],
    [t = (i/(N−1))·totalDisplayedTime + timeOffset], [x = (i/(N−1))·W],
    [y = H/2 − ((voltage − voltageOffset)/voltsPerDiv)·(H/verticalDivisions)]. *)
Definition totalDisplayedTime (shared : Shared) (view : View) : R :=
  v_sPerDiv view * IZR (sh_durationDivs shared).

Definition sampleTime (shared : Shared) (view : View) (N i : Z) : R :=
  (IZR i / IZR (N - 1)) * totalDisplayedTime shared view + v_tOffset view.

Definition pixelX (N i : Z) : R := (IZR i / IZR (N - 1)) * width.

Definition pixelY (shared : Shared) (view : View) (voltage : R) : R :=
  height / 2
  - ((voltage - v_vOffset view) / v_vPerDiv view) * (height / IZR (sh_verticalDivs shared)).

(** The first point of a polyline moves the pen, the others draw a segment. *)
Definition plot (i : Z) (x y : R) : DrawCmd :=
  if Z.eqb i 0 then moveTo x y else lineTo x y.

(** The value a call returns when it reads no draw. *)
Definition valueAt_js (type : string) (t : R) (p : WaveParams) : R :=
  match Jsx.waveformSample type t p [] with
  | Some (v, _) => v
  | None => 0
  end.

Definition valueAt_ts (type : string) (t : R) (p : WaveParams) : R :=
  match Tsx.waveformSample type t p [] with
  | Some (v, _) => v
  | None => 0
  end.

(** Channel 1 of the default state of both editions. *)
Definition channel1 : Channel :=
  {| ch_id := 1; ch_enabled := true; ch_waveform := "sine"; ch_amplitude := 2;
     ch_frequency := 1000; ch_phase := 0; ch_dc := 0; ch_color := "#22c55e";
     ch_noise := 0 |}.

(** The fields in the order of the checker's table, and the tolerance the
    table gives each: 5% for the voltages, 2% for period and frequency. *)
Definition allFields : list Field := [vmax; vmin; vpp; period; freq].

Definition tolerance (k : Field) : R :=
  match k with
  | vmax | vmin | vpp => 0.05
  | period | freq => 0.02
  end.

(** [ch] is a channel of [shared] and the only one with its id. *)
Definition placed (shared : Shared) (ch : Channel) : Prop :=
  exists pre post,
    sh_channels shared = pre ++ ch :: post /\
    Forall (fun c => ch_id c <> ch_id ch) (pre ++ post).

(** The student's view holds a measurement object for every enabled channel. *)
Definition measured (shared : Shared) (view : View) (ms : gmap Z Measures) : Prop :=
  v_measures view = Some ms /\
  Forall (fun c => ch_enabled c = true -> is_Some (ms !! ch_id c)) (sh_channels shared).

(** The outcome of one field in each edition. *)
Definition pass_js (parseFloat : string -> number) (user : Measures) (ch : Channel)
    (k : Field) : bool :=
  Jsx.fieldPass (parseFloat (entry k user)) (reference k (Jsx.correctFor ch)) (tolerance k).

Definition fails_ts (parseFloat : string -> number) (user : option Measures) (ch : Channel)
    (k : Field) : bool :=
  Tsx.fieldFails
    (match user with Some m => parseFloat (entry k m) | None => NaN end)
    (reference k (Tsx.corr ch)) (tolerance k).

(** The relative error of the spec, [|user − ref| / (|ref| + 1e−9)]. *)
Definition relativeError (user ref : R) : R := Rabs (user - ref) / (Rabs ref + 1e-9).

(** One turn of the loop of [doCheck] over the channels. *)
Definition step_js (parseFloat : string -> number) (shared : Shared) (view : View)
    (res : Jsx.CheckResult) (ch : Channel) : option Jsx.CheckResult :=
  if negb (ch_enabled ch) then Some res else
  match v_measures view with
  | None => None
  | Some measures =>
      match measures !! ch_id ch, Jsx.computeCorrect shared !! ch_id ch with
      | Some user, Some corr =>
          let '(ok, comp) :=
            Jsx.checkFields parseFloat
              [(vmax, 0.05); (vmin, 0.05); (vpp, 0.05); (period, 0.02); (freq, 0.02)]
              user corr in
          Some {| Jsx.r_ok := if ok then Jsx.r_ok res else false;
                  Jsx.r_perChannel :=
                    <[ch_id ch := {| Jsx.cc_ok := ok; Jsx.cc_comp := comp |}]>
                      (Jsx.r_perChannel res) |}
      | _, _ => None
      end
  end.

(** The number of fields of a channel that the checker counts as errors. *)
Definition errorsOf (parseFloat : string -> number) (user : option Measures) (ch : Channel)
    : nat :=
  length (List.filter (fails_ts parseFloat user ch) allFields).

(** One turn of the loop of [doCheck] over the channels. *)
Definition step_ts (parseFloat : string -> number) (measures : gmap Z Measures)
    (res : bool * gmap Z Tsx.ChannelErrors) (ch : Channel)
    : bool * gmap Z Tsx.ChannelErrors :=
  if negb (ch_enabled ch) then res else
  let user := measures !! ch_id ch in
  foldl (fun '(ok, perChannel) '(k, tol) =>
           let u := match user with
                    | Some m => parseFloat (entry k m)
                    | None => NaN
                    end in
           let c := reference k (Tsx.corr ch) in
           if Tsx.fieldFails u c tol
           then (false, Tsx.countError (ch_id ch) perChannel)
           else (ok, perChannel))
        res
        [(vmax, 0.05); (vmin, 0.05); (vpp, 0.05); (period, 0.02); (freq, 0.02)].

(** The record of a channel once the loop is over: [ok] is recomputed from
    the number of errors. *)
Definition settle (r : Tsx.ChannelErrors) : Tsx.ChannelErrors :=
  {| Tsx.ce_ok := Nat.eqb (Tsx.ce_errors r) 0; Tsx.ce_errors := Tsx.ce_errors r |}.

(** When the checker counts a field as failed. *)
Definition failsRule (u c : number) (tol : R) : Prop :=
  isFinite u = false \/ isFinite c = false \/
  exists x y, u = Fin x /\ c = Fin y /\ relativeError x y > tol.

(** [parseFloat] on the entries used in the examples below; any other text
    stands for an entry that is not numeric. *)
Definition parseTable (s : string) : number :=
  if String.eqb s "3" then Fin 3
  else if String.eqb s "-1" then Fin (-1)
  else if String.eqb s "4" then Fin 4
  else if String.eqb s "0.001" then Fin 0.001
  else if String.eqb s "1000" then Fin 1000
  else if String.eqb s "2" then Fin 2
  else if String.eqb s "-2" then Fin (-2)
  else if String.eqb s "0" then Fin 0
  else if String.eqb s "1.051e-8" then Fin 1.051e-8
  else if String.eqb s "Infinity" then Infinity
  else NaN.

(** A channel of 10 nV amplitude: its reference [vmax] is [1e-8]. *)
Definition tinyChannel : Channel :=
  {| ch_id := 1; ch_enabled := true; ch_waveform := "sine"; ch_amplitude := 1e-8;
     ch_frequency := 1000; ch_phase := 0; ch_dc := 0; ch_color := "#22c55e";
     ch_noise := 0 |}.

(** A flat channel: amplitude 0, no offset; its reference [vmax] is [0]. *)
Definition flatChannel : Channel :=
  {| ch_id := 1; ch_enabled := true; ch_waveform := "sine"; ch_amplitude := 0;
     ch_frequency := 1000; ch_phase := 0; ch_dc := 0; ch_color := "#22c55e";
     ch_noise := 0 |}.

Definition entriesWith (vmaxText periodText freqText : string) : Measures :=
  {| m_vmax := vmaxText; m_vmin := "-2"; m_vpp := "4"; m_period := periodText;
     m_freq := freqText |}.

(** The default state with channel 1 replaced by [ch], and the default view
    with the entries [m] for channel 1. *)
Definition stateWith (ch : Channel) : Shared :=
  {| sh_locked := false;
     sh_difficulty := "base";
     sh_showCorrect := true;
     sh_timeBase := 0.001;
     sh_sampleRate := 20000;
     sh_durationDivs := 10;
     sh_verticalDivs := 10;
     sh_channels :=
       [ ch;
         {| ch_id := 2; ch_enabled := false; ch_waveform := "square"; ch_amplitude := 1;
            ch_frequency := 500; ch_phase := 0; ch_dc := 0; ch_color := "#3b82f6";
            ch_noise := 0 |};
         {| ch_id := 3; ch_enabled := false; ch_waveform := "triangle";
            ch_amplitude := 1.5; ch_frequency := 200; ch_phase := 0; ch_dc := 0;
            ch_color := "#ef4444"; ch_noise := 0 |} ] |}.

Definition entriesOf (m : Measures) : gmap Z Measures :=
  <[1%Z := m]> (<[2%Z := blankMeasures]> (<[3%Z := blankMeasures]> ∅)).

Definition viewWith (m : Measures) : View :=
  {| v_vPerDiv := 1; v_sPerDiv := 0.001; v_vOffset := 0; v_tOffset := 0;
     v_name := "Ada"; v_surname := "Rossi"; v_class := "4B"; v_date := "2025-01-15";
     v_measures := Some (entriesOf m) |}.

(** The channel of the round trip: sine, 2 V, 1 V offset, 1 kHz. *)
Definition roundTripChannel : Channel :=
  {| ch_id := 1; ch_enabled := true; ch_waveform := "sine"; ch_amplitude := 2;
     ch_frequency := 1000; ch_phase := 0; ch_dc := 1; ch_color := "#22c55e";
     ch_noise := 0 |}.

Definition roundTripEntries : Measures :=
  {| m_vmax := "3"; m_vmin := "-1"; m_vpp := "4"; m_period := "0.001"; m_freq := "1000" |}.

(** A noise channel configured at 1 kHz. *)
Definition noiseChannel : Channel :=
  {| ch_id := 1; ch_enabled := true; ch_waveform := "noise"; ch_amplitude := 2;
     ch_frequency := 1000; ch_phase := 0; ch_dc := 0; ch_color := "#22c55e";
     ch_noise := 0 |}.

(** A sine channel whose frequency is 0. *)
Definition zeroHzChannel : Channel :=
  {| ch_id := 1; ch_enabled := true; ch_waveform := "sine"; ch_amplitude := 2;
     ch_frequency := 0; ch_phase := 0; ch_dc := 0; ch_color := "#22c55e";
     ch_noise := 0 |}.

(** ** Vocabulary of the further properties *)

(** The position within the cycle, in periods: [t·f + φ/(2π)]. *)
Definition cycle (p : WaveParams) (t : R) : R :=
  t * p_frequency p + p_phase p / (2 * PI).

(** [((x % 1) + 1) % 1], the idiom of the triangle and sawtooth branches. *)
Definition wrap (x : R) : R := rem (rem x 1 + 1) 1.

(** The envelope of the AM branch and the instantaneous phase of the FM
    branch. *)
Definition envelope (p : WaveParams) (t : R) : R :=
  0.5 * (1 + sin (2 * PI * (p_frequency p / 10) * t)).

Definition instPhase (p : WaveParams) (t : R) : R :=
  2 * PI * (p_frequency p * t
            + (0.2 * p_frequency p / (2 * PI))
              * (1 - cos (2 * PI * (p_frequency p / 8) * t)))
  + p_phase p.

(** A sine channel at 1 kHz read in the cycle [t = -0.25 ms], and the
    rectified, AM and triangle channels of the examples. *)
Definition waveChannel (waveform : string) : Channel :=
  {| ch_id := 1; ch_enabled := true; ch_waveform := waveform; ch_amplitude := 2;
     ch_frequency := 1000; ch_phase := 0; ch_dc := 1; ch_color := "#22c55e";
     ch_noise := 0 |}.

(** The parameter object with the channel noise and the difficulty floor
    switched off. *)
Definition silenced (p : WaveParams) : WaveParams :=
  {| p_amplitude := p_amplitude p; p_frequency := p_frequency p; p_phase := p_phase p;
     p_dc := p_dc p; p_difficulty := "base"; p_noise := Some 0 |}.

(** The shared state without its disabled channels. *)
Definition enabledOnly (shared : Shared) : Shared :=
  {| sh_locked := sh_locked shared;
     sh_difficulty := sh_difficulty shared;
     sh_showCorrect := sh_showCorrect shared;
     sh_timeBase := sh_timeBase shared;
     sh_sampleRate := sh_sampleRate shared;
     sh_durationDivs := sh_durationDivs shared;
     sh_verticalDivs := sh_verticalDivs shared;
     sh_channels := List.filter ch_enabled (sh_channels shared) |}.

(** The number of drawing calls that precede the central axes: the five
    set-up calls and the four calls of each gridline. *)
Definition gridCalls (shared : Shared) : nat :=
  5 + 4 * Z.to_nat (sh_durationDivs shared + 1) + 4 * Z.to_nat (sh_verticalDivs shared + 1).

(** The default view shifted up by one volt. *)
Definition offsetView : View :=
  {| v_vPerDiv := 1; v_sPerDiv := 0.001; v_vOffset := 1; v_tOffset := 0;
     v_name := ""; v_surname := ""; v_class := ""; v_date := "";
     v_measures := None |}.

(** [datiMancanti]: the number of personal data fields left empty. *)
Definition blankFields (view : View) : nat :=
  let blank (s : string) : nat := if String.eqb s "" then 1%nat else 0%nat in
  (blank (v_name view) + blank (v_surname view) + blank (v_class view)
   + blank (v_date view))%nat.

(** [totalErrors]: the sum of the error counters of the records. *)
Definition totalErrorsOf (pc : gmap Z Tsx.ChannelErrors) : nat :=
  map_fold (fun _ r total => (total + Tsx.ce_errors r)%nat) 0%nat pc.

(** [punteggio]: the mark for [totalErrors] errors and [datiMancanti] empty
    personal data fields. *)
Definition score (totalErrors datiMancanti : nat) : Z :=
  let punteggio := (10 - Z.min 5 (Z.of_nat (Nat.div2 (S totalErrors))))%Z in
  if Nat.eqb datiMancanti 0 then punteggio else Z.max 0 (punteggio - 1).

(** The measurement objects the type-annotated [doCheck] reads. *)
Definition measuresOf (view : View) : gmap Z Measures :=
  default Tsx.defaultMeasures (v_measures view).

(** The number of fields of channel [ch] that the type-annotated [doCheck]
    counts as errors for the view. *)
Definition failedFields (parseFloat : string -> number) (view : View) (ch : Channel) : nat :=
  errorsOf parseFloat (measuresOf view !! ch_id ch) ch.

(** The state of the loop of the type-annotated [doCheck] after the channels
    [done]: the flag is still set exactly when no record exists; a record
    exists exactly for the ids of enabled channels with a failed field, its
    own flag is still [true] and its counter positive; the counters add up to
    the failed fields of the enabled channels. *)
Definition loopState (parseFloat : string -> number) (view : View) (done : list Channel)
    (res : bool * gmap Z Tsx.ChannelErrors) : Prop :=
  (fst res = true <-> snd res = ∅) /\
  (forall id r,
     snd res !! id = Some r ->
     Tsx.ce_ok r = true /\ (1 <= Tsx.ce_errors r)%nat /\
     exists ch, In ch done /\ ch_enabled ch = true /\ ch_id ch = id /\
                (1 <= failedFields parseFloat view ch)%nat) /\
  (forall ch, In ch done -> ch_enabled ch = true ->
              (1 <= failedFields parseFloat view ch)%nat ->
              is_Some (snd res !! ch_id ch)) /\
  totalErrorsOf (snd res)
  = sum_list_with (failedFields parseFloat view) (List.filter ch_enabled done).

(** The view holds no measurement object for the channel. *)
Definition unmeasured (view : View) (ch : Channel) : Prop :=
  match v_measures view with
  | None => True
  | Some measures => measures !! ch_id ch = None
  end.

(** The channels for which the two editions use the same reference values:
    all but the noise channels whose frequency field is not 0. *)
Definition sameReference (ch : Channel) : Prop :=
  ch_waveform ch = "noise"%string -> ch_frequency ch = 0.

(** The number of fields the JavaScript edition marks as failed in a record. *)
Definition failedMarks (r : Jsx.ChannelCheck) : nat :=
  length (List.filter (fun kp : Field * bool => negb (snd kp)) (Jsx.cc_comp r)).

(** A state with a single enabled channel and a view without measurement
    objects. *)
Definition bareView : View :=
  {| v_vPerDiv := 1; v_sPerDiv := 0.001; v_vOffset := 0; v_tOffset := 0;
     v_name := "Ada"; v_surname := "Rossi"; v_class := "4B"; v_date := "2025-01-15";
     v_measures := None |}.

(** Channel 1 switched off. *)
Definition idleChannel : Channel :=
  {| ch_id := 1; ch_enabled := false; ch_waveform := "sine"; ch_amplitude := 2;
     ch_frequency := 1000; ch_phase := 0; ch_dc := 0; ch_color := "#22c55e";
     ch_noise := 0 |}.

(** The student types the five entries [m] of channel [chId], one
    [setMeasure] per field, in the order of the card. *)
Definition typeEntries (chId : Z) (m : Measures) (s : View) : View :=
  foldl (fun s k => Tsx.setMeasure chId k (entry k m) s) s allFields.

(** A view whose stored [measures] object is missing. *)
Definition referenceEntries : Measures :=
  {| m_vmax := "3"; m_vmin := "-1"; m_vpp := "4"; m_period := "0.001"; m_freq := "1000" |}.

(** What [randomize(level)] makes of a channel: the id and the colour are
    kept, the waveform is one of [forms], the frequency one of [baseFreqs],
    and the numbers are two-decimal values within the ranges of the
    callback. *)
Definition noiseCeiling (level : string) : R :=
  if String.eqb level "avanzato" then 0.2
  else if String.eqb level "intermedio" then 0.1
  else 0.03.

Definition randomized (level : string) (ch ch' : Channel) : Prop :=
  ch_id ch' = ch_id ch /\
  ch_color ch' = ch_color ch /\
  In (ch_waveform ch') forms /\
  In (ch_frequency ch') baseFreqs /\
  0.5 <= ch_amplitude ch' <= 4.5 /\
  0 <= ch_phase ch' <= PI + 0.005 /\
  -1 <= ch_dc ch' <= 1 /\
  0 <= ch_noise ch' <= noiseCeiling level /\
  (exists n : Z, ch_amplitude ch' = IZR n / 100) /\
  (exists n : Z, ch_dc ch' = IZR n / 100).

(** Twenty-one draws of [Math.random], seven for each of three channels. *)
Definition draws21 : list R := replicate 21 0.5.

(** ** Vocabulary of the machine-level statements *)

(** The phase angle [w * t + phase] and the cycle position
    [t * frequency + phase / (2 * Math.PI)] as the machine computes them. *)
Definition angleOn (M : Machine) (p : WaveParams) (t : R) : R :=
  fadd M (fmul M (fmul M (fmul M 2 (Math_PI M)) (p_frequency p)) t) (p_phase p).

Definition cycleOn (M : Machine) (p : WaveParams) (t : R) : R :=
  fadd M (fmul M t (p_frequency p)) (fdiv M (p_phase p) (fmul M 2 (Math_PI M))).

(** [((x % 1) + 1) % 1] on the machine: the remainders are exact, the
    addition is rounded. *)
Definition wrapOn (M : Machine) (x : R) : R := rem (fadd M (rem x 1) 1) 1.

(** The values of the triangle and sawtooth branches for the wrapped
    position [frac]. *)
Definition triangleOn (M : Machine) (A frac : R) : R :=
  fmul M A (fsub M (fmul M 4 (Rabs (fsub M frac 0.5))) 1).

Definition sawOn (M : Machine) (A frac : R) : R :=
  fmul M A (fsub M (fmul M 2 frac) 1).

(** The standard deviation of the Gaussian term as the machine computes
    it. *)
Definition noiseStdOn (M : Machine) (p : WaveParams) : R :=
  let n := default 0 (p_noise p) in
  let n :=
    if String.eqb (p_difficulty p) "intermedio"
    then fadd M n (fmul M (rnd M 0.02) (p_amplitude p)) else n in
  if String.eqb (p_difficulty p) "avanzato"
  then fadd M n (fmul M (rnd M 0.05) (p_amplitude p)) else n.

(** The tails of the two editions of [waveformSample] on the machine. *)
Definition finishOn_js (M : Machine) (p : WaveParams) (y : R) : Rand R :=
  if gtb (noiseStdOn M p) 0
  then g <- JsxM.randn M ;;
       ret (fadd M (fadd M y (p_dc p)) (fmul M g (noiseStdOn M p)))
  else ret (fadd M y (p_dc p)).

Definition finishOn_ts (M : Machine) (p : WaveParams) (y : R) : Rand R :=
  y' <- (if gtb (noiseStdOn M p) 0
         then g <- TsxM.randn M ;; ret (fadd M y (fmul M g (noiseStdOn M p)))
         else ret y) ;;
  ret (fadd M y' (p_dc p)).

(** Spec §4.2 on the machine: the displayed time, the time of sample [i],
    and the pixel of a voltage, each operation rounded. *)
Definition totalTimeOn (M : Machine) (shared : Shared) (view : View) : R :=
  fmul M (v_sPerDiv view) (IZR (sh_durationDivs shared)).

Definition sampleTimeOn (M : Machine) (shared : Shared) (view : View) (N i : Z) : R :=
  fadd M (fmul M (fdiv M (IZR i) (IZR (N - 1))) (totalTimeOn M shared view)) (v_tOffset view).

Definition pixelXOn (M : Machine) (N i : Z) : R :=
  fmul M (fdiv M (IZR i) (IZR (N - 1))) width.

Definition pixelYOn (M : Machine) (shared : Shared) (view : View) (voltage : R) : R :=
  fsub M (fdiv M height 2)
    (fmul M (fdiv M (fsub M voltage (v_vOffset view)) (v_vPerDiv view))
       (fdiv M height (IZR (sh_verticalDivs shared)))).

Definition snapOn (M : Machine) (x : R) : R := fadd M (IZR (Math_round x)) 0.5.

(** The calls of [waveformSample] a trace of [N] samples makes for the
    indices [indices], in order: each call reads the tape the call before it
    left. *)
Definition samples_js (M : Machine) (shared : Shared) (view : View) (ch : Channel) (N : Z)
    (indices : list Z) : Rand (list R) :=
  mapRand (fun i => JsxM.waveformSample M (ch_waveform ch) (sampleTimeOn M shared view N i)
                      (paramsOf shared ch)) indices.

Definition samples_ts (M : Machine) (shared : Shared) (view : View) (ch : Channel) (N : Z)
    (indices : list Z) : Rand (list R) :=
  mapRand (fun i => TsxM.waveformSample M (ch_waveform ch) (sampleTimeOn M shared view N i)
                      (paramsOf shared ch)) indices.

(** A tape of draws none of which is zero. *)
Definition fresh (tape : list R) : Prop := Forall (fun u => u <> 0) tape.

(** A machine whose sine falls short of the exact one by [1e-15]: at
    [t = 0] it computes a negative sine where the exact sine is 0. *)
Definition lowSine : Machine :=
  {| rnd := fun x => x;
     Math_sin := fun x => sin x - 1e-15;
     Math_cos := cos;
     Math_sqrt := sqrt;
     Math_log := ln;
     rnd_opp := fun x => eq_refl;
     rnd_le := fun x y H => H;
     rnd_int := fun n _ => eq_refl;
     rnd_half := eq_refl |}.

(** * Properties of the waveform sampler *)

Lemma gtb_false x y : x <= y -> gtb x y = false.
Proof. intros H. unfold gtb. destruct (Rgt_dec x y); [lra | reflexivity]. Qed.

Lemma gtb_true x y : y < x -> gtb x y = true.
Proof. intros H. unfold gtb. destruct (Rgt_dec x y); [reflexivity | lra]. Qed.

Lemma quiet_noiseStd p : quiet p -> noiseStdOf p = 0.
Proof.
  intros [Hn [Hd | Hd]]; unfold noiseStdOf; rewrite Hn, Hd; reflexivity.
Qed.

Lemma unknown_kind_eqb (type k : string) :
  ~ In type kinds -> In k kinds -> String.eqb type k = false.
Proof.
  intros Hout Hin. apply String.eqb_neq. intros ->. exact (Hout Hin).
Qed.

Lemma randn_js_draws tape u v tape1 tape2 :
  untilNonzero tape = Some (u, tape1) ->
  untilNonzero tape1 = Some (v, tape2) ->
  Jsx.randn tape = Some (boxMuller u v, tape2).
Proof.
  intros Hu Hv. unfold Jsx.randn, bind. rewrite Hu, Hv. reflexivity.
Qed.

Lemma randn_ts_draws tape u v tape1 tape2 :
  untilNonzero tape = Some (u, tape1) ->
  untilNonzero tape1 = Some (v, tape2) ->
  Tsx.randn tape = Some (boxMuller u v, tape2).
Proof.
  intros Hu Hv. unfold Tsx.randn, bind. rewrite Hu, Hv. reflexivity.
Qed.

Lemma finish_js_quiet p y tape :
  noiseStdOf p <= 0 -> finish_js p y tape = Some (y + p_dc p, tape).
Proof. intros H. unfold finish_js. rewrite gtb_false by exact H. reflexivity. Qed.

Lemma finish_ts_quiet p y tape :
  noiseStdOf p <= 0 -> finish_ts p y tape = Some (y + p_dc p, tape).
Proof.
  intros H. unfold finish_ts. rewrite gtb_false by exact H. reflexivity.
Qed.

Lemma finish_js_noisy p y tape u v tape1 tape2 :
  0 < noiseStdOf p ->
  untilNonzero tape = Some (u, tape1) ->
  untilNonzero tape1 = Some (v, tape2) ->
  finish_js p y tape = Some (y + p_dc p + boxMuller u v * noiseStdOf p, tape2).
Proof.
  intros H Hu Hv. unfold finish_js. rewrite gtb_true by exact H.
  unfold bind. rewrite (randn_js_draws _ _ _ _ _ Hu Hv). reflexivity.
Qed.

Lemma finish_ts_noisy p y tape u v tape1 tape2 :
  0 < noiseStdOf p ->
  untilNonzero tape = Some (u, tape1) ->
  untilNonzero tape1 = Some (v, tape2) ->
  finish_ts p y tape = Some (y + boxMuller u v * noiseStdOf p + p_dc p, tape2).
Proof.
  intros H Hu Hv. unfold finish_ts. rewrite gtb_true by exact H.
  unfold bind. rewrite (randn_ts_draws _ _ _ _ _ Hu Hv). reflexivity.
Qed.

(** Every branch of the [switch] except ["noise"] is a value that reads no
    draw; [waveformSample] is that value followed by the tail. *)
Lemma waveformSample_js_shape type t p :
  type <> "noise"%string ->
  exists y, Jsx.waveformSample type t p = finish_js p y.
Proof.
  intros Hk. apply String.eqb_neq in Hk. unfold Jsx.waveformSample. rewrite Hk.
  repeat match goal with
         | |- context [if String.eqb type ?k then _ else _] =>
             destruct (String.eqb type k)
         end; eexists; reflexivity.
Qed.

Lemma waveformSample_ts_shape type t p :
  type <> "noise"%string ->
  exists y, Tsx.waveformSample type t p = finish_ts p y.
Proof.
  intros Hk. apply String.eqb_neq in Hk. unfold Tsx.waveformSample. rewrite Hk.
  repeat match goal with
         | |- context [if String.eqb type ?k then _ else _] =>
             destruct (String.eqb type k)
         end; eexists; reflexivity.
Qed.

(** ** The machine-level functions *)

(** On the exact arithmetic they are the functions of [Jsx] and [Tsx]. *)
Lemma exact_waveformSample type t p :
  JsxM.waveformSample exact type t p = Jsx.waveformSample type t p /\
  TsxM.waveformSample exact type t p = Tsx.waveformSample type t p.
Proof. split; reflexivity. Qed.

Lemma exact_sampleCount shared view :
  JsxM.sampleCount exact shared view = Jsx.sampleCount shared view /\
  TsxM.sampleCount exact shared view = Tsx.sampleCount shared view.
Proof. split; reflexivity. Qed.

Lemma exact_trace shared view ch :
  JsxM.trace exact shared view ch = Jsx.trace shared view ch /\
  TsxM.trace exact shared view ch = Tsx.trace shared view ch.
Proof. split; reflexivity. Qed.

Lemma quiet_noiseStdOn M p : quiet p -> noiseStdOn M p = 0.
Proof.
  intros [Hn [Hd | Hd]]; unfold noiseStdOn; rewrite Hn, Hd; reflexivity.
Qed.

Lemma finishOn_js_quiet M p y tape :
  noiseStdOn M p <= 0 -> finishOn_js M p y tape = Some (fadd M y (p_dc p), tape).
Proof. intros H. unfold finishOn_js. rewrite gtb_false by exact H. reflexivity. Qed.

Lemma finishOn_ts_quiet M p y tape :
  noiseStdOn M p <= 0 -> finishOn_ts M p y tape = Some (fadd M y (p_dc p), tape).
Proof. intros H. unfold finishOn_ts. rewrite gtb_false by exact H. reflexivity. Qed.

Lemma waveformSampleOn_js_shape M type t p :
  type <> "noise"%string ->
  exists y, JsxM.waveformSample M type t p = finishOn_js M p y.
Proof.
  intros Hk. apply String.eqb_neq in Hk. unfold JsxM.waveformSample. rewrite Hk.
  repeat match goal with
         | |- context [if String.eqb type ?k then _ else _] =>
             destruct (String.eqb type k)
         end; eexists; reflexivity.
Qed.

Lemma waveformSampleOn_ts_shape M type t p :
  type <> "noise"%string ->
  exists y, TsxM.waveformSample M type t p = finishOn_ts M p y.
Proof.
  intros Hk. apply String.eqb_neq in Hk. unfold TsxM.waveformSample. rewrite Hk.
  repeat match goal with
         | |- context [if String.eqb type ?k then _ else _] =>
             destruct (String.eqb type k)
         end; eexists; reflexivity.
Qed.

(** ** Square wave *)

Lemma geb_sign s : (if geb s 0 then 1 else -1) = sign s.
Proof.
  unfold geb, sign. destruct (Rge_dec s 0), (Rle_dec 0 s); try reflexivity; lra.
Qed.

Lemma sign_cases s : (0 <= s /\ sign s = 1) \/ (s < 0 /\ sign s = -1).
Proof. unfold sign. destruct (Rle_dec 0 s); [left | right]; split; lra. Qed.

Lemma square_js_shape t p :
  Jsx.waveformSample "square" t p = finish_js p (p_amplitude p * sign (sin (angle p t))).
Proof. unfold angle. rewrite <- geb_sign. reflexivity. Qed.

Lemma square_ts_shape t p :
  Tsx.waveformSample "square" t p = finish_ts p (p_amplitude p * sign (sin (angle p t))).
Proof. unfold angle. rewrite <- geb_sign. reflexivity. Qed.

Lemma untilNonzero_head u rest : u <> 0 -> untilNonzero (u :: rest) = Some (u, rest).
Proof. intros H. simpl. destruct (Req_dec_T u 0); [contradiction | reflexivity]. Qed.

Lemma boxMuller_probe : boxMuller (exp (- (1 / 2))) (1 / 2) = -1.
Proof.
  unfold boxMuller. rewrite ln_exp.
  replace (-2 * - (1 / 2)) with 1 by lra. rewrite sqrt_1.
  replace (2 * PI * (1 / 2)) with PI by lra. rewrite cos_PI. lra.
Qed.

(** C9, counterexample: with channel noise 0.5 V the square sample at [t = 0]
    for the draws [exp(-1/2)] and [1/2] is [0.5], strictly between [-A] and
    [+A] (here [A = 1], [dc = 0]). *)
Lemma square_with_noise_is_intermediate :
  Jsx.waveformSample "square" 0 noisySquare [exp (- (1 / 2)); 1 / 2] = Some (0.5, [])
  /\ Tsx.waveformSample "square" 0 noisySquare [exp (- (1 / 2)); 1 / 2] = Some (0.5, [])
  /\ 0.5 <> 1 + 0 /\ 0.5 <> -1 + 0.
Proof.
  assert (Hstd : noiseStdOf noisySquare = 0.5) by reflexivity.
  assert (Hu : untilNonzero [exp (- (1 / 2)); 1 / 2] = Some (exp (- (1 / 2)), [1 / 2])).
  { apply untilNonzero_head. pose proof (exp_pos (- (1 / 2))). lra. }
  assert (Hv : untilNonzero [1 / 2] = Some (1 / 2, [])).
  { apply untilNonzero_head. lra. }
  assert (Hs : sign (sin (angle noisySquare 0)) = 1).
  { unfold angle. simpl. replace (2 * PI * 1 * 0 + 0) with 0 by lra.
    rewrite sin_0. unfold sign. destruct (Rle_dec 0 0); lra. }
  split; [| split; [| split; lra]].
  - rewrite square_js_shape.
    rewrite (finish_js_noisy _ _ _ _ _ _ _ ltac:(rewrite Hstd; lra) Hu Hv).
    rewrite Hs, Hstd, boxMuller_probe. simpl. do 2 f_equal. lra.
  - rewrite square_ts_shape.
    rewrite (finish_ts_noisy _ _ _ _ _ _ _ ltac:(rewrite Hstd; lra) Hu Hv).
    rewrite Hs, Hstd, boxMuller_probe. simpl. do 2 f_equal. lra.
Qed.

Lemma fmul_1_r M x : rnd M x = x -> fmul M x 1 = x.
Proof. intros H. unfold fmul. rewrite Rmult_1_r. exact H. Qed.

Lemma fmul_m1_r M x : rnd M x = x -> fmul M x (-1) = - x.
Proof.
  intros H. unfold fmul. replace (x * -1) with (- x) by lra.
  rewrite rnd_opp, H. reflexivity.
Qed.

Lemma squareOn_js_shape M t p :
  JsxM.waveformSample M "square" t p
  = finishOn_js M p
      (fmul M (p_amplitude p) (if geb (Math_sin M (angleOn M p t)) 0 then 1 else -1)).
Proof. reflexivity. Qed.

Lemma squareOn_ts_shape M t p :
  TsxM.waveformSample M "square" t p
  = finishOn_ts M p
      (fmul M (p_amplitude p) (if geb (Math_sin M (angleOn M p t)) 0 then 1 else -1)).
Proof. reflexivity. Qed.

(** C9, amended: on every machine arithmetic, and for an amplitude that is a
    number of the machine, the square branch of both editions yields exactly
    [+A] or [-A] before the offset and the Gaussian term: [+A] when the
    value [Math.sin] returns for the computed angle [w*t + phase] is not
    negative (a computed sine of 0 counts as positive) and [-A] when it is
    negative.  With channel noise 0 and difficulty basic the sample is that
    value plus [dc], one rounded addition, for every [t] and whatever the
    random draws.  The sign is that of the computed sine: on a machine whose
    sine at the computed angle is negative the sample is [-A + dc] although
    the exact sine of the exact angle is 0. *)
Theorem square_sample_exact (M : Machine) (t : R) (p : WaveParams) :
  rnd M (p_amplitude p) = p_amplitude p ->
  let A := p_amplitude p in
  let s := Math_sin M (angleOn M p t) in
  exists y : R,
    (y = A \/ y = - A) /\ (0 <= s -> y = A) /\ (s < 0 -> y = - A) /\
    JsxM.waveformSample M "square" t p = finishOn_js M p y /\
    TsxM.waveformSample M "square" t p = finishOn_ts M p y /\
    (quiet p ->
     forall tape,
       JsxM.waveformSample M "square" t p tape = Some (fadd M y (p_dc p), tape) /\
       TsxM.waveformSample M "square" t p tape = Some (fadd M y (p_dc p), tape)).
Proof.
  intros HA A s.
  exists (fmul M A (if geb s 0 then 1 else -1)).
  assert (Hy : (0 <= s /\ fmul M A (if geb s 0 then 1 else -1) = A) \/
               (s < 0 /\ fmul M A (if geb s 0 then 1 else -1) = - A)).
  { unfold geb. destruct (Rge_dec s 0) as [Hs | Hs].
    - left. split; [lra | apply fmul_1_r, HA].
    - right. split; [lra | apply fmul_m1_r, HA]. }
  split; [destruct Hy as [[_ ->] | [_ ->]]; [left | right]; reflexivity |].
  split; [intros Hs; destruct Hy as [[_ ->] | [Hn _]]; [reflexivity | lra] |].
  split; [intros Hs; destruct Hy as [[Hn _] | [_ ->]]; [lra | reflexivity] |].
  split; [apply squareOn_js_shape |]. split; [apply squareOn_ts_shape |].
  intros Hq tape. pose proof (quiet_noiseStdOn M p Hq) as H0.
  rewrite squareOn_js_shape, squareOn_ts_shape.
  rewrite finishOn_js_quiet, finishOn_ts_quiet by lra. split; reflexivity.
Qed.

Lemma quietSquare_quiet : quiet quietSquare.
Proof. split; [reflexivity | left; reflexivity]. Qed.

Lemma square_sample_exact_witness :
  quiet quietSquare /\
  JsxM.waveformSample exact "square" 0 quietSquare [] = Some (2 + 1, []) /\
  TsxM.waveformSample exact "square" 0 quietSquare [] = Some (2 + 1, []) /\
  JsxM.waveformSample lowSine "square" 0 quietSquare [] = Some (- 2 + 1, []) /\
  TsxM.waveformSample lowSine "square" 0 quietSquare [] = Some (- 2 + 1, []).
Proof.
  split; [exact quietSquare_quiet |].
  assert (H0 : 2 * PI * 1000 * 0 + 0 = 0) by lra.
  destruct (square_sample_exact exact 0 quietSquare eq_refl) as (y & _ & Hp & _ & _ & _ & Hq).
  destruct (square_sample_exact lowSine 0 quietSquare eq_refl)
    as (y' & _ & _ & Hn & _ & _ & Hq').
  destruct (Hq quietSquare_quiet []) as (Hj & Ht).
  destruct (Hq' quietSquare_quiet []) as (Hj' & Ht').
  assert (Hy : y = 2).
  { apply Hp. change (0 <= sin (2 * PI * 1000 * 0 + 0)). rewrite H0, sin_0. lra. }
  assert (Hy' : y' = - 2).
  { apply Hn. change (sin (2 * PI * 1000 * 0 + 0) - 1e-15 < 0). rewrite H0, sin_0. lra. }
  subst y y'. repeat split; assumption.
Defined.

(** ** Unrecognised kinds *)

Lemma default_js_shape type t p :
  ~ In type kinds ->
  Jsx.waveformSample type t p = finish_js p (p_amplitude p * sin (angle p t)).
Proof.
  intros Hout. unfold Jsx.waveformSample.
  rewrite !(unknown_kind_eqb type _ Hout) by (simpl; tauto). reflexivity.
Qed.

Lemma default_ts_shape type t p :
  ~ In type kinds ->
  Tsx.waveformSample type t p = finish_ts p (p_amplitude p * sin (angle p t)).
Proof.
  intros Hout. unfold Tsx.waveformSample.
  rewrite !(unknown_kind_eqb type _ Hout) by (simpl; tauto). reflexivity.
Qed.

(** [untilNonzero] and [randn] return on a tape of non-zero draws that is
    long enough. *)
Lemma randn_js_returns tape :
  Forall (fun u => u <> 0) tape -> (2 <= length tape)%nat ->
  exists g rest, Jsx.randn tape = Some (g, rest).
Proof.
  intros Hnz Hlen. destruct tape as [| u [| v rest]]; simpl in Hlen; try lia.
  inversion Hnz as [| ? ? Hu Hnz']; subst. inversion Hnz' as [| ? ? Hv _]; subst.
  exists (boxMuller u v), rest.
  apply (randn_js_draws _ u v (v :: rest) rest); apply untilNonzero_head; assumption.
Qed.

Lemma randn_ts_returns tape :
  Forall (fun u => u <> 0) tape -> (2 <= length tape)%nat ->
  exists g rest, Tsx.randn tape = Some (g, rest).
Proof.
  intros Hnz Hlen. destruct tape as [| u [| v rest]]; simpl in Hlen; try lia.
  inversion Hnz as [| ? ? Hu Hnz']; subst. inversion Hnz' as [| ? ? Hv _]; subst.
  exists (boxMuller u v), rest.
  apply (randn_ts_draws _ u v (v :: rest) rest); apply untilNonzero_head; assumption.
Qed.

Lemma finish_js_returns p y tape :
  Forall (fun u => u <> 0) tape -> (2 <= length tape)%nat ->
  is_Some (finish_js p y tape).
Proof.
  intros Hnz Hlen. unfold finish_js. destruct (gtb (noiseStdOf p) 0).
  - destruct (randn_js_returns tape Hnz Hlen) as (g & rest & Hg).
    unfold bind. rewrite Hg. eexists; reflexivity.
  - eexists; reflexivity.
Qed.

Lemma finish_ts_returns p y tape :
  Forall (fun u => u <> 0) tape -> (2 <= length tape)%nat ->
  is_Some (finish_ts p y tape).
Proof.
  intros Hnz Hlen. unfold finish_ts. destruct (gtb (noiseStdOf p) 0).
  - destruct (randn_ts_returns tape Hnz Hlen) as (g & rest & Hg).
    unfold bind. rewrite Hg. eexists; reflexivity.
  - eexists; reflexivity.
Qed.

(** Every kind, declared or not: the call returns once the random source
    holds three non-zero draws (one for the kind ["noise"], two for [randn]). *)
Lemma waveformSample_returns type t p tape :
  Forall (fun u => u <> 0) tape -> (3 <= length tape)%nat ->
  is_Some (Jsx.waveformSample type t p tape) /\
  is_Some (Tsx.waveformSample type t p tape).
Proof.
  intros Hnz Hlen. destruct (String.eqb_spec type "noise") as [-> | Hk].
  - destruct tape as [| u rest]; simpl in Hlen; [lia |].
    inversion Hnz; subst.
    change (Jsx.waveformSample "noise" t p (u :: rest))
      with (finish_js p (p_amplitude p * (u * 2 - 1)) rest).
    change (Tsx.waveformSample "noise" t p (u :: rest))
      with (finish_ts p (p_amplitude p * (u * 2 - 1)) rest).
    split; [apply finish_js_returns | apply finish_ts_returns]; try assumption; lia.
  - destruct (waveformSample_js_shape type t p Hk) as [yj ->].
    destruct (waveformSample_ts_shape type t p Hk) as [yt ->].
    split; [apply finish_js_returns | apply finish_ts_returns]; try assumption; lia.
Qed.

(** C10: [waveformSample] returns a value for every kind string, in both
    editions, once the random source holds the draws it reads.  For a kind
    outside the nine declared ones both editions take the [default] branch:
    the call equals the call for ["sine"]; without noise it returns
    [amplitude·sin(ωt+φ) + dc] and reads no draw; with a positive noise
    deviation it returns that value plus the Gaussian term for the two
    non-zero draws of [randn]. *)
Theorem unknown_kind_defaults_to_sine (type : string) (t : R) (p : WaveParams) :
  (forall tape,
     Forall (fun u => u <> 0) tape -> (3 <= length tape)%nat ->
     is_Some (Jsx.waveformSample type t p tape) /\
     is_Some (Tsx.waveformSample type t p tape)) /\
  (~ In type kinds ->
   let y := p_amplitude p * sin (2 * PI * p_frequency p * t + p_phase p) in
   Jsx.waveformSample type t p = Jsx.waveformSample "sine" t p /\
   Tsx.waveformSample type t p = Tsx.waveformSample "sine" t p /\
   (noiseStdOf p <= 0 ->
    forall tape,
      Jsx.waveformSample type t p tape = Some (y + p_dc p, tape) /\
      Tsx.waveformSample type t p tape = Some (y + p_dc p, tape)) /\
   (0 < noiseStdOf p ->
    forall tape u v tape1 tape2,
      untilNonzero tape = Some (u, tape1) ->
      untilNonzero tape1 = Some (v, tape2) ->
      Jsx.waveformSample type t p tape
        = Some (y + p_dc p + boxMuller u v * noiseStdOf p, tape2) /\
      Tsx.waveformSample type t p tape
        = Some (y + boxMuller u v * noiseStdOf p + p_dc p, tape2))).
Proof.
  split; [intros tape; apply waveformSample_returns |].
  intros Hout y.
  rewrite (default_js_shape type t p Hout), (default_ts_shape type t p Hout).
  fold (angle p t) in y. fold y.
  split; [reflexivity |]. split; [reflexivity |]. split.
  - intros Hq tape. rewrite finish_js_quiet, finish_ts_quiet by exact Hq.
    split; reflexivity.
  - intros Hn tape u v tape1 tape2 Hu Hv.
    rewrite (finish_js_noisy p y tape u v tape1 tape2 Hn Hu Hv).
    rewrite (finish_ts_noisy p y tape u v tape1 tape2 Hn Hu Hv).
    split; reflexivity.
Qed.

Lemma cosine_not_a_kind : ~ In "cosine"%string kinds.
Proof. simpl. intros H. repeat destruct H as [H | H]; try discriminate H. exact H. Qed.

Lemma unknown_kind_defaults_to_sine_witness :
  ~ In "cosine"%string kinds /\
  0 < noiseStdOf advancedSine /\
  Jsx.waveformSample "cosine" 0 advancedSine [0; exp (- (1 / 2)); 1 / 2]
    = Some (2 * sin (2 * PI * 1 * 0 + 0) + 1 + -1 * (0 + 0.05 * 2), []).
Proof.
  assert (Hn : 0 < noiseStdOf advancedSine) by (unfold noiseStdOf; simpl; lra).
  assert (Hu : untilNonzero [0; exp (- (1 / 2)); 1 / 2]
               = Some (exp (- (1 / 2)), [1 / 2])).
  { simpl. destruct (Req_dec_T 0 0) as [_ | H]; [| contradiction].
    destruct (Req_dec_T (exp (- (1 / 2))) 0) as [H | _]; [| reflexivity].
    pose proof (exp_pos (- (1 / 2))). lra. }
  assert (Hv : untilNonzero [1 / 2] = Some (1 / 2, [])).
  { apply untilNonzero_head. lra. }
  split; [exact cosine_not_a_kind |]. split; [exact Hn |].
  destruct (proj2 (unknown_kind_defaults_to_sine "cosine" 0 advancedSine)
              cosine_not_a_kind) as (_ & _ & _ & Hnoisy).
  destruct (Hnoisy Hn _ _ _ _ _ Hu Hv) as [Hj _].
  rewrite boxMuller_probe in Hj. exact Hj.
Defined.

(** ** Determinism *)

Lemma noiseProbe_quiet : quiet noiseProbe.
Proof. split; [reflexivity | left; reflexivity]. Qed.

(** C2, counterexample: for the kind ["noise"], with channel noise 0 and
    difficulty "base", two calls with the same arguments return [-0.5] when
    [Math.random] draws 0.25 and [0.5] when it draws 0.75. *)
Lemma noise_kind_not_deterministic :
  quiet noiseProbe /\
  Jsx.waveformSample "noise" 0 noiseProbe [0.25] = Some (-0.5, []) /\
  Jsx.waveformSample "noise" 0 noiseProbe [0.75] = Some (0.5, []) /\
  Tsx.waveformSample "noise" 0 noiseProbe [0.25] = Some (-0.5, []) /\
  Tsx.waveformSample "noise" 0 noiseProbe [0.75] = Some (0.5, []) /\
  -0.5 <> 0.5.
Proof.
  assert (Hg : gtb 0 0 = false) by (apply gtb_false; lra).
  split; [exact noiseProbe_quiet |].
  repeat split; try lra;
    unfold Jsx.waveformSample, Tsx.waveformSample, bind, Math_random, ret; simpl;
    rewrite Hg; do 2 f_equal; lra.
Qed.

(** C2, amended: for every kind other than ["noise"], with channel noise 0
    and difficulty basic, [waveformSample] returns a value fixed by its
    arguments alone: it reads no random draw, so two calls with identical
    arguments return the identical value. *)
Theorem sample_deterministic_except_noise (type : string) (t : R) (p : WaveParams) :
  type <> "noise"%string ->
  quiet p ->
  (exists v, forall tape, Jsx.waveformSample type t p tape = Some (v, tape)) /\
  (exists v, forall tape, Tsx.waveformSample type t p tape = Some (v, tape)) /\
  (forall tape1 tape2 r1 r2,
     Jsx.waveformSample type t p tape1 = Some r1 ->
     Jsx.waveformSample type t p tape2 = Some r2 -> fst r1 = fst r2) /\
  (forall tape1 tape2 r1 r2,
     Tsx.waveformSample type t p tape1 = Some r1 ->
     Tsx.waveformSample type t p tape2 = Some r2 -> fst r1 = fst r2).
Proof.
  intros Hk Hq. pose proof (quiet_noiseStd p Hq) as H0.
  destruct (waveformSample_js_shape type t p Hk) as [yj Hj].
  destruct (waveformSample_ts_shape type t p Hk) as [yt Ht].
  assert (Ej : forall tape, Jsx.waveformSample type t p tape = Some (yj + p_dc p, tape)).
  { intros tape. rewrite Hj. apply finish_js_quiet. lra. }
  assert (Et : forall tape, Tsx.waveformSample type t p tape = Some (yt + p_dc p, tape)).
  { intros tape. rewrite Ht. apply finish_ts_quiet. lra. }
  split; [exists (yj + p_dc p); exact Ej |].
  split; [exists (yt + p_dc p); exact Et |].
  split; intros tape1 tape2 r1 r2 H1 H2.
  - rewrite Ej in H1, H2. inversion H1. inversion H2. reflexivity.
  - rewrite Et in H1, H2. inversion H1. inversion H2. reflexivity.
Qed.

Lemma sample_deterministic_except_noise_witness :
  "square"%string <> "noise"%string /\ quiet quietSquare /\
  exists v, forall tape, Jsx.waveformSample "square" 0 quietSquare tape = Some (v, tape).
Proof.
  assert (Hk : "square"%string <> "noise"%string) by discriminate.
  split; [exact Hk |]. split; [exact quietSquare_quiet |].
  exact (proj1 (sample_deterministic_except_noise "square" 0 quietSquare
                  Hk quietSquare_quiet)).
Defined.

(** ** Harmonic sum *)

Lemma unitSum2_quiet f : quiet (unitSum2 f).
Proof. split; [reflexivity | left; reflexivity]. Qed.

Lemma sum2_js_value t p tape :
  quiet p ->
  Jsx.waveformSample "sum2" t p tape
  = Some (0.6 * p_amplitude p * sin (2 * PI * p_frequency p * t + p_phase p)
          + 0.6 * p_amplitude p
            * sin (2 * (2 * PI * p_frequency p) * t + p_phase p / 3)
          + p_dc p, tape).
Proof.
  intros Hq.
  change (Jsx.waveformSample "sum2" t p)
    with (finish_js p
            (0.6 * p_amplitude p * sin (2 * PI * p_frequency p * t + p_phase p)
             + 0.6 * p_amplitude p
               * sin (2 * (2 * PI * p_frequency p) * t + p_phase p / 3))).
  apply finish_js_quiet. rewrite (quiet_noiseStd p Hq). lra.
Qed.

Lemma sum2_ts_value t p tape :
  quiet p ->
  Tsx.waveformSample "sum2" t p tape
  = Some (sum2_formula (p_amplitude p) (p_frequency p) (p_phase p) (p_dc p) t, tape).
Proof.
  intros Hq.
  change (Tsx.waveformSample "sum2" t p)
    with (finish_ts p
            (p_amplitude p
             * ((sin (2 * PI * p_frequency p * t + p_phase p)
                 + 0.5 * sin (2 * (2 * PI * p_frequency p) * t + 2 * p_phase p))
                / Tsx.NORM))).
  rewrite finish_ts_quiet by (rewrite (quiet_noiseStd p Hq); lra).
  do 2 f_equal. unfold sum2_formula, Tsx.NORM. lra.
Qed.

Lemma sqrt3_bounds : 1.732 < sqrt 3 < 1.7321.
Proof.
  assert (H3 : sqrt 3 * sqrt 3 = 3) by (apply sqrt_sqrt; lra).
  assert (Hp : 0 <= sqrt 3) by apply sqrt_pos.
  split; nra.
Qed.

Lemma sin_2PI3 : sin (2 * (PI / 3)) = sqrt 3 / 2.
Proof. rewrite sin_2a, sin_PI3, cos_PI3. lra. Qed.

(** On the unit circle [(s + s·c)² <= 27/16]: the difference factors as
    [(c - 1/2)²·((c + 3/2)² + 1/2)]. *)
Lemma harmonic_square (s c : R) :
  s * s + c * c = 1 ->
  (s + 0.5 * (2 * s * c)) * (s + 0.5 * (2 * s * c)) <= 27 / 16.
Proof.
  intros Hsc.
  assert (Hs2 : s * s = 1 - c * c) by lra.
  assert (Hg : (s + 0.5 * (2 * s * c)) * (s + 0.5 * (2 * s * c))
               = (s * s) * ((1 + c) * (1 + c))).
  { replace 0.5 with (1 / 2) by lra. field. }
  rewrite Hg, Hs2.
  assert (Hfac : 27 / 16 - (1 - c * c) * ((1 + c) * (1 + c))
                 = (c - 1 / 2) * (c - 1 / 2) * ((c + 3 / 2) * (c + 3 / 2) + 1 / 2))
    by field.
  assert (H1 : 0 <= (c - 1 / 2) * (c - 1 / 2)) by exact (Rle_0_sqr (c - 1 / 2)).
  assert (H2 : 0 <= (c + 3 / 2) * (c + 3 / 2)) by exact (Rle_0_sqr (c + 3 / 2)).
  assert (0 <= (c - 1 / 2) * (c - 1 / 2) * ((c + 3 / 2) * (c + 3 / 2) + 1 / 2)).
  { apply Rmult_le_pos; lra. }
  lra.
Qed.

(** [sin x + 0.5·sin 2x <= 3·sqrt 3/4] for every [x]. *)
Lemma harmonic_sum_bound x : sin x + 0.5 * sin (2 * x) <= 3 * sqrt 3 / 4.
Proof.
  rewrite sin_2a.
  pose proof (sin2_cos2 x) as Hsc. unfold Rsqr in Hsc.
  pose proof (harmonic_square (sin x) (cos x) Hsc) as Hsq.
  pose proof sqrt3_bounds as [Hlo Hhi].
  assert (H3 : sqrt 3 * sqrt 3 = 3) by (apply sqrt_sqrt; lra).
  destruct (Rle_dec (sin x + 0.5 * (2 * sin x * cos x)) 0) as [Hg | Hg]; [lra |].
  apply Rnot_le_lt in Hg.
  assert (HM2 : (3 * sqrt 3 / 4) * (3 * sqrt 3 / 4) = 27 / 16) by nra.
  assert (HM : 0 <= 3 * sqrt 3 / 4) by lra.
  set (g := sin x + 0.5 * (2 * sin x * cos x)) in *. clearbody g.
  set (M := 3 * sqrt 3 / 4) in *. clearbody M.
  destruct (Rle_dec g M) as [Hle | Hgt]; [exact Hle | exfalso].
  apply Rnot_le_lt in Hgt.
  assert (M * M < g * g) by (apply Rmult_le_0_lt_compat; lra).
  lra.
Qed.

(** C1: at a quarter period ([t = 1/4] s at 1 Hz, amplitude 1, phase 0, no
    offset, no noise, difficulty "base") the JavaScript edition returns
    [0.6], while the formula of the spec gives [1/1.299038105676658]; at
    [t = 1/6] s it returns [0.6·sqrt 3 > 1.01], so its peak is not within
    1% of the amplitude. *)
Theorem sum2_js_quarter_period :
  Jsx.waveformSample "sum2" (1 / 4) (unitSum2 1) [] = Some (0.6, []) /\
  sum2_formula 1 1 0 0 (1 / 4) = 1 / 1.299038105676658 /\
  0.6 <> 1 / 1.299038105676658 /\
  Jsx.waveformSample "sum2" (1 / 6) (unitSum2 1) [] = Some (0.6 * sqrt 3, []) /\
  1.01 < 0.6 * sqrt 3.
Proof.
  split; [| split; [| split; [| split]]].
  - rewrite sum2_js_value by apply unitSum2_quiet. simpl.
    replace (2 * PI * 1 * (1 / 4) + 0) with (PI / 2) by lra.
    replace (2 * (2 * PI * 1) * (1 / 4) + 0 / 3) with PI by lra.
    rewrite sin_PI2, sin_PI. do 2 f_equal. lra.
  - unfold sum2_formula.
    replace (2 * PI * 1 * (1 / 4) + 0) with (PI / 2) by lra.
    replace (2 * (2 * PI * 1) * (1 / 4) + 2 * 0) with PI by lra.
    rewrite sin_PI2, sin_PI. lra.
  - lra.
  - rewrite sum2_js_value by apply unitSum2_quiet. simpl.
    replace (2 * PI * 1 * (1 / 6) + 0) with (PI / 3) by lra.
    replace (2 * (2 * PI * 1) * (1 / 6) + 0 / 3) with (2 * (PI / 3)) by lra.
    rewrite sin_PI3, sin_2PI3. do 2 f_equal. lra.
  - pose proof sqrt3_bounds. lra.
Qed.

(** The type-annotated edition and the harmonic sum: with channel noise 0
    and difficulty basic the sample is
    [A·(sin(ωt+φ) + 0.5·sin(2ωt+2φ))/1.299038105676658 + dc]; for [A = 1],
    [φ = 0], [dc = 0] and a positive frequency the samples are bounded by the
    one at [t = 1/(6f)], inside the first period, and that maximum lies
    within 1% of 1. *)
Theorem sum2_ts_normalized (f : R) :
  0 < f ->
  (forall t p tape,
     quiet p ->
     Tsx.waveformSample "sum2" t p tape
     = Some (sum2_formula (p_amplitude p) (p_frequency p) (p_phase p) (p_dc p) t, tape)) /\
  exists tmax vmax,
    0 <= tmax <= 1 / f /\
    (forall tape, Tsx.waveformSample "sum2" tmax (unitSum2 f) tape = Some (vmax, tape)) /\
    (forall t tape v tape',
       Tsx.waveformSample "sum2" t (unitSum2 f) tape = Some (v, tape') -> v <= vmax) /\
    0.99 <= vmax <= 1.01.
Proof.
  intros Hf. split; [intros t p tape Hq; apply sum2_ts_value; exact Hq |].
  assert (Hval : forall t, sum2_formula 1 f 0 0 t
                           = (sin (2 * PI * f * t) + 0.5 * sin (2 * (2 * PI * f * t)))
                             / 1.299038105676658).
  { intros t. unfold sum2_formula.
    replace (2 * PI * f * t + 0) with (2 * PI * f * t) by lra.
    replace (2 * (2 * PI * f) * t + 2 * 0) with (2 * (2 * PI * f * t)) by lra.
    lra. }
  assert (Hmax : sum2_formula 1 f 0 0 (1 / (6 * f)) = 3 * sqrt 3 / 4 / 1.299038105676658).
  { rewrite Hval.
    replace (2 * PI * f * (1 / (6 * f))) with (PI / 3) by (field; lra).
    rewrite sin_PI3, sin_2PI3. lra. }
  pose proof sqrt3_bounds as [Hlo Hhi].
  exists (1 / (6 * f)), (sum2_formula 1 f 0 0 (1 / (6 * f))).
  split; [| split; [| split]].
  - split.
    + apply Rlt_le, Rdiv_lt_0_compat; lra.
    + unfold Rdiv. rewrite !Rmult_1_l. apply Rinv_le_contravar; lra.
  - intros tape. apply (sum2_ts_value _ (unitSum2 f)), unitSum2_quiet.
  - intros t tape v tape' H.
    rewrite (sum2_ts_value _ (unitSum2 f)) in H by apply unitSum2_quiet.
    inversion H; subst. simpl. rewrite Hmax, Hval.
    pose proof (harmonic_sum_bound (2 * PI * f * t)). lra.
  - rewrite Hmax. lra.
Qed.

Lemma sum2_ts_normalized_witness :
  0 < 1000 /\
  forall tape,
    Tsx.waveformSample "sum2" (1 / 4000) (unitSum2 1000) tape
    = Some (sum2_formula 1 1000 0 0 (1 / 4000), tape).
Proof.
  assert (Hf : 0 < 1000) by lra.
  split; [exact Hf |]. intros tape.
  exact (proj1 (sum2_ts_normalized 1000 Hf) (1 / 4000) (unitSum2 1000) tape
           (unitSum2_quiet 1000)).
Defined.

(** * Properties of the trace renderer *)

Lemma Math_floor_IZR (n : Z) : Math_floor (IZR n) = n.
Proof. unfold Math_floor. symmetry. apply Int_part_spec. lra. Qed.

Lemma Math_round_IZR (n : Z) : Math_round (IZR n) = n.
Proof. unfold Math_round. symmetry. apply Int_part_spec. lra. Qed.

Lemma Math_round_bounds (x : R) : x - 1 / 2 < IZR (Math_round x) <= x + 1 / 2.
Proof.
  unfold Math_round. destruct (base_Int_part (x + / 2)) as [Hle Hgt]. lra.
Qed.

(** A loop whose body reads no draw returns the calls of its turns in order. *)
Lemma forEach_pure {A} (l : list A) (body : A -> Rand (list DrawCmd))
    (f : A -> list DrawCmd) :
  (forall a, In a l -> forall tape, body a tape = Some (f a, tape)) ->
  forall tape, forEach l body tape = Some (flat_map f l, tape).
Proof.
  induction l as [| a l IH]; intros Hbody tape; [reflexivity |].
  simpl. unfold bind. rewrite (Hbody a (or_introl eq_refl)).
  rewrite IH by (intros b Hb; apply Hbody; right; exact Hb).
  reflexivity.
Qed.

(** Blocks of four calls: dropping [4·i] calls drops [i] blocks. *)
Lemma drop_blocks {A} (f : A -> list DrawCmd) (l : list A) (i : nat) :
  (forall a, length (f a) = 4%nat) ->
  drop (4 * i) (flat_map f l) = flat_map f (drop i l).
Proof.
  intros Hlen. revert l. induction i as [| i IH]; intros l.
  - reflexivity.
  - destruct l as [| a l]; [reflexivity |].
    replace (4 * S i)%nat with (4 + 4 * i)%nat by lia.
    simpl flat_map. rewrite drop_app_add' by (symmetry; apply Hlen).
    apply IH.
Qed.

Lemma take_block {A} (f : A -> list DrawCmd) (a : A) (l : list A) (rest : list DrawCmd) :
  length (f a) = 4%nat ->
  take 4 (flat_map f (a :: l) ++ rest) = f a.
Proof.
  intros Hlen. simpl flat_map. rewrite <- app_assoc.
  apply take_app_length'. symmetry. exact Hlen.
Qed.

Lemma gridline_block {A} (f : A -> list DrawCmd) (l : list A) (i : nat) (a : A)
    (before rest : list DrawCmd) :
  (forall a, length (f a) = 4%nat) ->
  l !! i = Some a ->
  take 4 (drop (length before + 4 * i) (before ++ flat_map f l ++ rest)) = f a.
Proof.
  intros Hlen Hi.
  rewrite drop_app_add' by reflexivity.
  rewrite drop_app_le.
  2: { rewrite (flat_map_constant_length (c := 4)) by (intros; apply Hlen).
       apply lookup_lt_Some in Hi. lia. }
  rewrite drop_blocks by exact Hlen.
  rewrite (drop_S _ _ _ Hi). apply take_block, Hlen.
Qed.

(** The JavaScript edition draws the vertical gridline of index [i] at the
    raw position [i·dx]. *)
Lemma verticalGridline_js shared view rest (i : nat) :
  (Z.of_nat i <= sh_durationDivs shared)%Z ->
  verticalGridline (Jsx.grid shared view ++ rest) i
  = let x := IZR (Z.of_nat i) * (width / IZR (sh_durationDivs shared)) in
    [beginPath; moveTo x 0; lineTo x height; stroke].
Proof.
  intros Hi. unfold Jsx.grid, verticalGridline. rewrite <- !app_assoc.
  rewrite (gridline_block _ _ i (Z.of_nat i) [_; _; _; _; _]);
    [reflexivity | intros; reflexivity |].
  rewrite lookup_seqZ_lt by lia. reflexivity.
Qed.

(** The type-annotated edition draws it at [round(i·dx) + 0.5]. *)
Lemma verticalGridline_ts shared view rest (i : nat) :
  (Z.of_nat i <= sh_durationDivs shared)%Z ->
  verticalGridline (Tsx.grid shared view ++ rest) i
  = let x := IZR (Math_round (IZR (Z.of_nat i) * (width / IZR (sh_durationDivs shared))))
             + 0.5 in
    [beginPath; moveTo x 0; lineTo x height; stroke].
Proof.
  intros Hi. unfold Tsx.grid, verticalGridline. rewrite <- !app_assoc.
  rewrite (gridline_block _ _ i (Z.of_nat i) [_; _; _; _; _]);
    [reflexivity | intros; reflexivity |].
  rewrite lookup_seqZ_lt by lia. reflexivity.
Qed.

(** The horizontal gridline of index [j], at [round(j·dy) + 0.5]. *)
Lemma horizontalGridline_ts shared view rest (j : nat) :
  (Z.of_nat j <= sh_verticalDivs shared)%Z ->
  horizontalGridline (sh_durationDivs shared) (Tsx.grid shared view ++ rest) j
  = let y := IZR (Math_round (IZR (Z.of_nat j) * (height / IZR (sh_verticalDivs shared))))
             + 0.5 in
    [beginPath; moveTo 0 y; lineTo width y; stroke].
Proof.
  intros Hj. unfold Tsx.grid, horizontalGridline. rewrite <- !app_assoc.
  rewrite (app_assoc [_; _; _; _; _] (flat_map _ _)).
  match goal with
  | |- take 4 (drop ?n ((?pre ++ ?v) ++ _)) = _ =>
      replace n with (length (pre ++ v) + 4 * j)%nat
  end.
  2: { rewrite length_app, (flat_map_constant_length (c := 4)) by (intros; reflexivity).
       rewrite length_seqZ. simpl length. lia. }
  rewrite (gridline_block _ _ j (Z.of_nat j));
    [reflexivity | intros; reflexivity |].
  rewrite lookup_seqZ_lt by lia. reflexivity.
Qed.

Lemma snap_half_integer (x : R) :
  (exists n : Z, snap x = IZR n + 1 / 2) /\ x < snap x <= x + 1.
Proof.
  unfold snap. pose proof (Math_round_bounds x) as [Hlo Hhi].
  split; [exists (Math_round x); lra | lra].
Qed.

(** ** Sample mapping *)

Lemma valueAt_js_spec type t p tape :
  type <> "noise"%string -> quiet p ->
  Jsx.waveformSample type t p tape = Some (valueAt_js type t p, tape).
Proof.
  intros Hk Hq. destruct (waveformSample_js_shape type t p Hk) as [y Hy].
  unfold valueAt_js. rewrite Hy.
  rewrite !finish_js_quiet by (rewrite (quiet_noiseStd p Hq); lra). reflexivity.
Qed.

Lemma valueAt_ts_spec type t p tape :
  type <> "noise"%string -> quiet p ->
  Tsx.waveformSample type t p tape = Some (valueAt_ts type t p, tape).
Proof.
  intros Hk Hq. destruct (waveformSample_ts_shape type t p Hk) as [y Hy].
  unfold valueAt_ts. rewrite Hy.
  rewrite !finish_ts_quiet by (rewrite (quiet_noiseStd p Hq); lra). reflexivity.
Qed.

Lemma samplePoint_js shared view ch N i tape yV tape' :
  Jsx.waveformSample (ch_waveform ch) (sampleTime shared view N i) (paramsOf shared ch) tape
    = Some (yV, tape') ->
  Jsx.samplePoint shared view ch N i tape
  = Some ([plot i (pixelX N i) (pixelY shared view yV)], tape').
Proof.
  intros H. unfold Jsx.samplePoint, bind.
  change (Jsx.waveformSample (ch_waveform ch) _ _ tape)
    with (Jsx.waveformSample (ch_waveform ch) (sampleTime shared view N i)
            (paramsOf shared ch) tape).
  rewrite H. reflexivity.
Qed.

Lemma samplePoint_ts shared view ch N i tape yV tape' :
  Tsx.waveformSample (ch_waveform ch) (sampleTime shared view N i) (paramsOf shared ch) tape
    = Some (yV, tape') ->
  Tsx.samplePoint shared view ch N i tape
  = Some ([plot i (snap (pixelX N i)) (snap (pixelY shared view yV))], tape').
Proof.
  intros H. unfold Tsx.samplePoint, bind.
  change (Tsx.waveformSample (ch_waveform ch) _ _ tape)
    with (Tsx.waveformSample (ch_waveform ch) (sampleTime shared view N i)
            (paramsOf shared ch) tape).
  rewrite H. reflexivity.
Qed.

Lemma samplePoint_js_inv shared view ch N i tape r :
  Jsx.samplePoint shared view ch N i tape = Some r ->
  exists yV,
    Jsx.waveformSample (ch_waveform ch) (sampleTime shared view N i) (paramsOf shared ch) tape
      = Some (yV, snd r) /\
    fst r = [plot i (pixelX N i) (pixelY shared view yV)].
Proof.
  intros H.
  destruct (Jsx.waveformSample (ch_waveform ch) (sampleTime shared view N i)
              (paramsOf shared ch) tape) as [[yV tape'] |] eqn:E.
  - rewrite (samplePoint_js _ _ _ _ _ _ _ _ E) in H. inversion H; subst.
    exists yV. split; reflexivity.
  - unfold Jsx.samplePoint, bind in H.
    change (Jsx.waveformSample (ch_waveform ch) _ _ tape)
      with (Jsx.waveformSample (ch_waveform ch) (sampleTime shared view N i)
              (paramsOf shared ch) tape) in H.
    rewrite E in H. discriminate H.
Qed.

Lemma samplePoint_ts_inv shared view ch N i tape r :
  Tsx.samplePoint shared view ch N i tape = Some r ->
  exists yV,
    Tsx.waveformSample (ch_waveform ch) (sampleTime shared view N i) (paramsOf shared ch) tape
      = Some (yV, snd r) /\
    fst r = [plot i (snap (pixelX N i)) (snap (pixelY shared view yV))].
Proof.
  intros H.
  destruct (Tsx.waveformSample (ch_waveform ch) (sampleTime shared view N i)
              (paramsOf shared ch) tape) as [[yV tape'] |] eqn:E.
  - rewrite (samplePoint_ts _ _ _ _ _ _ _ _ E) in H. inversion H; subst.
    exists yV. split; reflexivity.
  - unfold Tsx.samplePoint, bind in H.
    change (Tsx.waveformSample (ch_waveform ch) _ _ tape)
      with (Tsx.waveformSample (ch_waveform ch) (sampleTime shared view N i)
              (paramsOf shared ch) tape) in H.
    rewrite E in H. discriminate H.
Qed.

(** A loop whose turns each make one call: the calls line up with the turns. *)
Lemma forEach_singletons {A} (l : list A) (body : A -> Rand (list DrawCmd)) :
  (forall a tp r, body a tp = Some r -> exists c, fst r = [c]) ->
  forall tape cmds tape',
    forEach l body tape = Some (cmds, tape') ->
    length cmds = length l /\
    forall (k : nat) (a : A),
      l !! k = Some a ->
      exists tp r, body a tp = Some r /\ cmds !! k = head (fst r).
Proof.
  intros Hone. induction l as [| a l IH]; intros tape cmds tape' H.
  - inversion H; subst. split; [reflexivity |]. intros k a Hk. discriminate Hk.
  - simpl in H. unfold bind in H.
    destruct (body a tape) as [[cs tape1] |] eqn:Ea; [| discriminate H].
    destruct (forEach l body tape1) as [[ds tape2] |] eqn:El; [| discriminate H].
    inversion H; subst. destruct (Hone a tape _ Ea) as [c Hc]. simpl in Hc. subst cs.
    destruct (IH _ _ _ El) as [Hlen Hk]. split; [simpl; rewrite Hlen; reflexivity |].
    intros k b Hb. destruct k as [| k].
    + inversion Hb; subst. exists tape, ([c], tape1). split; [exact Ea | reflexivity].
    + exact (Hk k b Hb).
Qed.

Lemma trace_js_points shared view ch tape cmds tape' :
  ch_enabled ch = true ->
  Jsx.trace shared view ch tape = Some (cmds, tape') ->
  let N := Jsx.sampleCount shared view in
  exists points,
    cmds = [lineWidth 2; strokeStyle (ch_color ch); beginPath] ++ points ++ [stroke] /\
    length points = Z.to_nat N /\
    forall i : Z,
      (0 <= i < N)%Z ->
      exists tp yV tp',
        Jsx.waveformSample (ch_waveform ch) (sampleTime shared view N i)
          (paramsOf shared ch) tp = Some (yV, tp') /\
        points !! Z.to_nat i = Some (plot i (pixelX N i) (pixelY shared view yV)).
Proof.
  intros Hen H N. unfold Jsx.trace in H. rewrite Hen in H.
  cbv beta iota delta [negb] in H. fold N in H. unfold bind in H.
  destruct (forEach (seqZ 0 N) (Jsx.samplePoint shared view ch N) tape)
    as [[points tape1] |] eqn:E; [| discriminate H].
  inversion H; subst. exists points. split; [reflexivity |].
  destruct (forEach_singletons _ _
              (fun a tp r Hr =>
                 match samplePoint_js_inv shared view ch N a tp r Hr with
                 | ex_intro _ yV (conj _ Hf) => ex_intro _ _ Hf
                 end) _ _ _ E) as [Hlen Hk].
  split; [rewrite Hlen; apply length_seqZ |].
  intros i Hi.
  assert (Hl : seqZ 0 N !! Z.to_nat i = Some i).
  { rewrite lookup_seqZ_lt by lia. f_equal. lia. }
  destruct (Hk _ _ Hl) as (tp & r & Hr & Hc).
  destruct (samplePoint_js_inv _ _ _ _ _ _ _ Hr) as (yV & Hw & Hf).
  exists tp, yV, (snd r). split; [exact Hw |]. rewrite Hc, Hf. reflexivity.
Qed.

Lemma trace_ts_points shared view ch tape cmds tape' :
  ch_enabled ch = true ->
  Tsx.trace shared view ch tape = Some (cmds, tape') ->
  let N := Tsx.sampleCount shared view in
  exists points,
    cmds = [lineWidth 2; lineJoin "round"; lineCap "round"; strokeStyle (ch_color ch);
            beginPath] ++ points ++ [stroke] /\
    length points = Z.to_nat N /\
    forall i : Z,
      (0 <= i < N)%Z ->
      exists tp yV tp',
        Tsx.waveformSample (ch_waveform ch) (sampleTime shared view N i)
          (paramsOf shared ch) tp = Some (yV, tp') /\
        points !! Z.to_nat i
        = Some (plot i (snap (pixelX N i)) (snap (pixelY shared view yV))).
Proof.
  intros Hen H N. unfold Tsx.trace in H. rewrite Hen in H.
  cbv beta iota delta [negb] in H. fold N in H. unfold bind in H.
  destruct (forEach (seqZ 0 N) (Tsx.samplePoint shared view ch N) tape)
    as [[points tape1] |] eqn:E; [| discriminate H].
  inversion H; subst. exists points. split; [reflexivity |].
  destruct (forEach_singletons _ _
              (fun a tp r Hr =>
                 match samplePoint_ts_inv shared view ch N a tp r Hr with
                 | ex_intro _ yV (conj _ Hf) => ex_intro _ _ Hf
                 end) _ _ _ E) as [Hlen Hk].
  split; [rewrite Hlen; apply length_seqZ |].
  intros i Hi.
  assert (Hl : seqZ 0 N !! Z.to_nat i = Some i).
  { rewrite lookup_seqZ_lt by lia. f_equal. lia. }
  destruct (Hk _ _ Hl) as (tp & r & Hr & Hc).
  destruct (samplePoint_ts_inv _ _ _ _ _ _ _ Hr) as (yV & Hw & Hf).
  exists tp, yV, (snd r). split; [exact Hw |]. rewrite Hc, Hf. reflexivity.
Qed.

(** Without noise the trace of a channel is drawn whatever the tape, which it
    leaves untouched. *)
Lemma trace_js_quiet shared view ch :
  (ch_enabled ch = true -> quietChannel shared ch) ->
  exists cmds, forall tape, Jsx.trace shared view ch tape = Some (cmds, tape).
Proof.
  intros Hq. unfold Jsx.trace. destruct (ch_enabled ch); [| exists []; reflexivity].
  destruct (Hq eq_refl) as [Hk Hp]. cbv beta iota delta [negb].
  set (N := Jsx.sampleCount shared view).
  set (f := fun i : Z =>
              [plot i (pixelX N i)
                 (pixelY shared view
                    (valueAt_js (ch_waveform ch) (sampleTime shared view N i)
                       (paramsOf shared ch)))]).
  eexists. intros tape. unfold bind.
  rewrite (forEach_pure _ _ f); [reflexivity |].
  intros i _ tp. apply samplePoint_js, valueAt_js_spec; assumption.
Qed.

Lemma trace_ts_quiet shared view ch :
  (ch_enabled ch = true -> quietChannel shared ch) ->
  exists cmds, forall tape, Tsx.trace shared view ch tape = Some (cmds, tape).
Proof.
  intros Hq. unfold Tsx.trace. destruct (ch_enabled ch); [| exists []; reflexivity].
  destruct (Hq eq_refl) as [Hk Hp]. cbv beta iota delta [negb].
  set (N := Tsx.sampleCount shared view).
  set (f := fun i : Z =>
              [plot i (snap (pixelX N i))
                 (snap (pixelY shared view
                          (valueAt_ts (ch_waveform ch) (sampleTime shared view N i)
                             (paramsOf shared ch))))]).
  eexists. intros tape. unfold bind.
  rewrite (forEach_pure _ _ f); [reflexivity |].
  intros i _ tp. apply samplePoint_ts, valueAt_ts_spec; assumption.
Qed.

Lemma forEach_traces (l : list Channel) (body : Channel -> Rand (list DrawCmd)) :
  (forall ch, In ch l -> exists cmds, forall tape, body ch tape = Some (cmds, tape)) ->
  exists cmds, forall tape, forEach l body tape = Some (cmds, tape).
Proof.
  induction l as [| ch l IH]; intros H; [exists []; reflexivity |].
  destruct (H ch (or_introl eq_refl)) as [cs Hcs].
  destruct IH as [ds Hds]; [intros c Hc; apply H; right; exact Hc |].
  exists (cs ++ ds). intros tape. simpl. unfold bind. rewrite Hcs, Hds. reflexivity.
Qed.

Lemma ScopeCanvas_js_quiet shared view :
  (forall ch, In ch (sh_channels shared) -> ch_enabled ch = true -> quietChannel shared ch) ->
  exists traces,
    forall tape, Jsx.ScopeCanvas shared view tape = Some (Jsx.grid shared view ++ traces, tape).
Proof.
  intros H.
  destruct (forEach_traces (sh_channels shared) (Jsx.trace shared view)) as [traces Ht].
  { intros ch Hin. apply trace_js_quiet. exact (H ch Hin). }
  exists traces. intros tape. unfold Jsx.ScopeCanvas, bind. rewrite Ht. reflexivity.
Qed.

Lemma ScopeCanvas_ts_quiet shared view :
  (forall ch, In ch (sh_channels shared) -> ch_enabled ch = true -> quietChannel shared ch) ->
  exists traces,
    forall tape, Tsx.ScopeCanvas shared view tape = Some (Tsx.grid shared view ++ traces, tape).
Proof.
  intros H.
  destruct (forEach_traces (sh_channels shared) (Tsx.trace shared view)) as [traces Ht].
  { intros ch Hin. apply trace_ts_quiet. exact (H ch Hin). }
  exists traces. intros tape. unfold Tsx.ScopeCanvas, bind. rewrite Ht. reflexivity.
Qed.

(** The drawing always starts with the grid. *)
Lemma ScopeCanvas_js_grid shared view tape cmds tape' :
  Jsx.ScopeCanvas shared view tape = Some (cmds, tape') ->
  exists traces, cmds = Jsx.grid shared view ++ traces.
Proof.
  unfold Jsx.ScopeCanvas, bind.
  destruct (forEach (sh_channels shared) (Jsx.trace shared view) tape) as [[traces tp] |];
    intros H; inversion H; subst. exists traces. reflexivity.
Qed.

Lemma ScopeCanvas_ts_grid shared view tape cmds tape' :
  Tsx.ScopeCanvas shared view tape = Some (cmds, tape') ->
  exists traces, cmds = Tsx.grid shared view ++ traces.
Proof.
  unfold Tsx.ScopeCanvas, bind.
  destruct (forEach (sh_channels shared) (Tsx.trace shared view) tape) as [[traces tp] |];
    intros H; inversion H; subst. exists traces. reflexivity.
Qed.

(** ** Grid *)

Lemma default_js_channels_quiet ch :
  In ch (sh_channels Jsx.defaultSharedState) -> ch_enabled ch = true ->
  quietChannel Jsx.defaultSharedState ch.
Proof.
  simpl. intros [<- | [<- | [<- | []]]] Hen; try discriminate Hen.
  split; [discriminate | split; [reflexivity | left; reflexivity]].
Qed.

Lemma default_ts_channels_quiet ch :
  In ch (sh_channels Tsx.defaultSharedState) -> ch_enabled ch = true ->
  quietChannel Tsx.defaultSharedState ch.
Proof.
  simpl. intros [<- | [<- | [<- | []]]] Hen; try discriminate Hen.
  split; [discriminate | split; [reflexivity | left; reflexivity]].
Qed.

(** C5: on the default state (width 980, 10 horizontal divisions) the
    JavaScript edition draws the vertical gridline of index 5 at [x = 490],
    not at [490.5]: its grid loop does not snap.  The type-annotated edition
    draws it at [round(5·98) + 0.5 = 490.5]. *)
Theorem gridline_5_of_default_state (tape : list R) :
  (exists cmds,
     Jsx.ScopeCanvas Jsx.defaultSharedState defaultView tape = Some (cmds, tape) /\
     verticalGridline cmds 5 = [beginPath; moveTo 490 0; lineTo 490 520; stroke]) /\
  (exists cmds,
     Tsx.ScopeCanvas Tsx.defaultSharedState defaultView tape = Some (cmds, tape) /\
     verticalGridline cmds 5 = [beginPath; moveTo 490.5 0; lineTo 490.5 520; stroke]) /\
  490 <> 490.5.
Proof.
  split; [| split; [| lra]].
  - destruct (ScopeCanvas_js_quiet Jsx.defaultSharedState defaultView
                default_js_channels_quiet) as [traces H].
    eexists. split; [apply H |].
    rewrite verticalGridline_js by (simpl; lia). simpl. unfold width, height.
    change (Z.of_nat 5) with 5%Z.
    replace (5 * (980 / 10)) with 490 by lra. reflexivity.
  - destruct (ScopeCanvas_ts_quiet Tsx.defaultSharedState defaultView
                default_ts_channels_quiet) as [traces H].
    eexists. split; [apply H |].
    rewrite verticalGridline_ts by (simpl; lia). simpl. unfold width, height.
    change (Z.of_nat 5) with 5%Z.
    replace (5 * (980 / 10)) with (IZR 490) by lra. rewrite Math_round_IZR.
    replace (490 + 0.5) with 490.5 by lra. reflexivity.
Qed.

(** The grid of the type-annotated edition: whenever the canvas is drawn,
    the vertical gridline of index [i <= divX] is at [round(i·W/divX) + 0.5]
    and the horizontal one of index [j <= divY] at [round(j·H/divY) + 0.5];
    each coordinate is an integer plus one half, above the raw position by
    at most one pixel.  For width 980 and 10 divisions the vertical gridline
    of index 5 is at 490.5. *)
Theorem grid_ts_pixel_snapped (shared : Shared) (view : View) (tape : list R)
    (cmds : list DrawCmd) (tape' : list R) :
  Tsx.ScopeCanvas shared view tape = Some (cmds, tape') ->
  (forall i : nat,
     (Z.of_nat i <= sh_durationDivs shared)%Z ->
     let raw := IZR (Z.of_nat i) * (width / IZR (sh_durationDivs shared)) in
     verticalGridline cmds i
     = [beginPath; moveTo (snap raw) 0; lineTo (snap raw) height; stroke] /\
     (exists n : Z, snap raw = IZR n + 1 / 2) /\ raw < snap raw <= raw + 1) /\
  (forall j : nat,
     (Z.of_nat j <= sh_verticalDivs shared)%Z ->
     let raw := IZR (Z.of_nat j) * (height / IZR (sh_verticalDivs shared)) in
     horizontalGridline (sh_durationDivs shared) cmds j
     = [beginPath; moveTo 0 (snap raw); lineTo width (snap raw); stroke] /\
     (exists n : Z, snap raw = IZR n + 1 / 2) /\ raw < snap raw <= raw + 1) /\
  (sh_durationDivs shared = 10%Z ->
   verticalGridline cmds 5 = [beginPath; moveTo 490.5 0; lineTo 490.5 520; stroke]).
Proof.
  intros H. destruct (ScopeCanvas_ts_grid _ _ _ _ _ H) as [traces ->].
  split; [| split].
  - intros i Hi raw. split; [| apply snap_half_integer].
    rewrite verticalGridline_ts by exact Hi. reflexivity.
  - intros j Hj raw. split; [| apply snap_half_integer].
    rewrite horizontalGridline_ts by exact Hj. reflexivity.
  - intros H10. rewrite verticalGridline_ts by (rewrite H10; simpl; lia).
    rewrite H10. unfold snap, width, height. change (Z.of_nat 5) with 5%Z.
    replace (5 * (980 / 10)) with (IZR 490) by lra. rewrite Math_round_IZR.
    replace (490 + 0.5) with 490.5 by lra. reflexivity.
Qed.

Lemma grid_ts_pixel_snapped_witness :
  exists cmds,
    Tsx.ScopeCanvas Tsx.defaultSharedState defaultView [] = Some (cmds, []) /\
    verticalGridline cmds 5 = [beginPath; moveTo 490.5 0; lineTo 490.5 520; stroke].
Proof.
  destruct (ScopeCanvas_ts_quiet Tsx.defaultSharedState defaultView
              default_ts_channels_quiet) as [traces H].
  exists (Tsx.grid Tsx.defaultSharedState defaultView ++ traces).
  split; [apply H |].
  exact (proj2 (proj2 (grid_ts_pixel_snapped Tsx.defaultSharedState defaultView [] _ []
                         (H []))) eq_refl).
Defined.

(** ** Trace *)

Lemma channel1_quiet_ts : quietChannel Tsx.defaultSharedState channel1.
Proof. split; [discriminate | split; [reflexivity | left; reflexivity]]. Qed.

Lemma pixelX_0 N : pixelX N 0 = 0.
Proof. unfold pixelX, Rdiv. rewrite !Rmult_0_l. reflexivity. Qed.

Lemma sampleTime_0 N : sampleTime Tsx.defaultSharedState defaultView N 0 = 0.
Proof. unfold sampleTime, Rdiv. rewrite !Rmult_0_l. simpl. lra. Qed.

Lemma snap_IZR (n : Z) : snap (IZR n) = IZR n + 0.5.
Proof. unfold snap. rewrite Math_round_IZR. reflexivity. Qed.

(** C4, counterexample: on its default state the type-annotated edition
    starts the polyline of channel 1 at the pixel [(0.5, 260.5)], whereas
    [(i/(N−1))·W] and [H/2 − ((voltage − voltageOffset)/voltsPerDiv)·(H/verticalDivisions)]
    are [0] and [260] for the first sample (voltage 0). *)
Lemma ts_first_point_is_snapped :
  let N := Tsx.sampleCount Tsx.defaultSharedState defaultView in
  In channel1 (sh_channels Tsx.defaultSharedState) /\
  Tsx.waveformSample "sine" (sampleTime Tsx.defaultSharedState defaultView N 0)
    (paramsOf Tsx.defaultSharedState channel1) [] = Some (0, []) /\
  Tsx.samplePoint Tsx.defaultSharedState defaultView channel1 N 0 []
    = Some ([moveTo 0.5 260.5], []) /\
  pixelX N 0 = 0 /\
  pixelY Tsx.defaultSharedState defaultView 0 = 260.
Proof.
  intros N.
  assert (Hv : Tsx.waveformSample "sine" (sampleTime Tsx.defaultSharedState defaultView N 0)
                 (paramsOf Tsx.defaultSharedState channel1) [] = Some (0, [])).
  { rewrite sampleTime_0.
    change (Tsx.waveformSample "sine" 0 (paramsOf Tsx.defaultSharedState channel1))
      with (finish_ts (paramsOf Tsx.defaultSharedState channel1)
              (2 * sin (2 * PI * 1000 * 0 + 0))).
    rewrite finish_ts_quiet by (unfold noiseStdOf; simpl; lra).
    replace (2 * PI * 1000 * 0 + 0) with 0 by lra. rewrite sin_0.
    simpl. do 2 f_equal. lra. }
  assert (Hy : pixelY Tsx.defaultSharedState defaultView 0 = 260).
  { unfold pixelY, height. simpl. lra. }
  split; [left; reflexivity |]. split; [exact Hv |].
  split; [| split; [apply pixelX_0 | exact Hy]].
  rewrite (samplePoint_ts _ _ channel1 N 0 [] 0 [] Hv).
  rewrite pixelX_0, Hy. rewrite (snap_IZR 0), (snap_IZR 260).
  unfold plot. simpl.
  replace (0 + 0.5) with 0.5 by lra. replace (260 + 0.5) with 260.5 by lra.
  reflexivity.
Qed.

(** *** The trace on a machine *)

Lemma mapRand_length {A B} (f : A -> Rand B) (l : list A) :
  forall tape bs tape', mapRand f l tape = Some (bs, tape') -> length bs = length l.
Proof.
  induction l as [| a l IH]; intros tape bs tape' H.
  - injection H as <- _. reflexivity.
  - simpl in H. unfold bind in H.
    destruct (f a tape) as [[b tape1] |]; [| discriminate H].
    destruct (mapRand f l tape1) as [[bs1 tape2] |] eqn:E; [| discriminate H].
    injection H as <- _. simpl. rewrite (IH _ _ _ E). reflexivity.
Qed.

(** The call for an element reads the tape left by the calls for the
    elements before it. *)
Lemma mapRand_threads {A B} (f : A -> Rand B) (l1 : list A) (a : A) (l2 : list A) :
  forall tape bs tape',
    mapRand f (l1 ++ a :: l2) tape = Some (bs, tape') ->
    exists before tp b tp',
      mapRand f l1 tape = Some (before, tp) /\
      f a tp = Some (b, tp') /\
      bs !! length l1 = Some b.
Proof.
  induction l1 as [| x l1 IH]; intros tape bs tape' H.
  - simpl in H. unfold bind in H.
    destruct (f a tape) as [[b tape1] |] eqn:Ea; [| discriminate H].
    destruct (mapRand f l2 tape1) as [[bs1 tape2] |]; [| discriminate H].
    injection H as <- _. exists [], tape, b, tape1.
    split; [reflexivity |]. split; [exact Ea | reflexivity].
  - simpl in H. unfold bind in H.
    destruct (f x tape) as [[b0 tape1] |] eqn:Ex; [| discriminate H].
    destruct (mapRand f (l1 ++ a :: l2) tape1) as [[bs1 tape2] |] eqn:E; [| discriminate H].
    injection H as <- _.
    destruct (IH _ _ _ E) as (before & tp & b & tp' & Hb & Ha & Hl).
    exists (b0 :: before), tp, b, tp'. split; [| split; [exact Ha | exact Hl]].
    simpl. unfold bind. rewrite Ex, Hb. reflexivity.
Qed.

(** A loop whose turns each draw one point from one sample is the run of
    the samples followed by the points. *)
Lemma forEach_mapRand {A} (l : list A) (sample : A -> Rand R) (point : A -> R -> DrawCmd)
    (body : A -> Rand (list DrawCmd)) :
  (forall a tape, body a tape = (v <- sample a ;; ret [point a v]) tape) ->
  forall tape,
    forEach l body tape = (vs <- mapRand sample l ;; ret (zip_with point l vs)) tape.
Proof.
  intros Hb. induction l as [| a l IH]; intros tape; [reflexivity |].
  cbn [forEach mapRand]. unfold bind. rewrite Hb. unfold bind.
  destruct (sample a tape) as [[v tape1] |]; [| reflexivity].
  cbn [ret]. rewrite IH. unfold bind.
  destruct (mapRand sample l tape1) as [[vs tape2] |]; reflexivity.
Qed.

Lemma samplePointOn_js M shared view ch N i tape :
  JsxM.samplePoint M shared view ch N i tape
  = (v <- JsxM.waveformSample M (ch_waveform ch) (sampleTimeOn M shared view N i)
            (paramsOf shared ch) ;;
     ret [plot i (pixelXOn M N i) (pixelYOn M shared view v)]) tape.
Proof. reflexivity. Qed.

Lemma samplePointOn_ts M shared view ch N i tape :
  TsxM.samplePoint M shared view ch N i tape
  = (v <- TsxM.waveformSample M (ch_waveform ch) (sampleTimeOn M shared view N i)
            (paramsOf shared ch) ;;
     ret [plot i (snapOn M (pixelXOn M N i)) (snapOn M (pixelYOn M shared view v))]) tape.
Proof. reflexivity. Qed.

Lemma seqZ_split (N i : Z) :
  (0 <= i < N)%Z -> seqZ 0 N = seqZ 0 i ++ i :: seqZ (i + 1) (N - i - 1).
Proof.
  intros Hi. replace N with (i + (N - i))%Z at 1 by lia.
  rewrite seqZ_app by lia. rewrite Z.add_0_l, (seqZ_cons i (N - i)) by lia.
  f_equal; f_equal; f_equal; lia.
Qed.

(** The points of a trace, whatever its set-up calls: one per sample, each
    at the pixel of the voltage its own call returned. *)
Lemma points_of_samples (N : Z) (sample : Z -> Rand R) (point : Z -> R -> DrawCmd)
    (body : Z -> Rand (list DrawCmd)) tape points tape' :
  (forall i tp, body i tp = (v <- sample i ;; ret [point i v]) tp) ->
  forEach (seqZ 0 N) body tape = Some (points, tape') ->
  length points = Z.to_nat N /\
  (exists vs, mapRand sample (seqZ 0 N) tape = Some (vs, tape')) /\
  forall i : Z,
    (0 <= i < N)%Z ->
    exists before tp voltage tp',
      mapRand sample (seqZ 0 i) tape = Some (before, tp) /\
      sample i tp = Some (voltage, tp') /\
      points !! Z.to_nat i = Some (point i voltage).
Proof.
  intros Hb H. rewrite (forEach_mapRand _ sample point body Hb) in H. unfold bind in H.
  destruct (mapRand sample (seqZ 0 N) tape) as [[vs tape1] |] eqn:E; [| discriminate H].
  injection H as <- <-.
  pose proof (mapRand_length _ _ _ _ _ E) as Hlen. rewrite length_seqZ in Hlen.
  split.
  { rewrite length_zip_with, length_seqZ, Hlen. lia. }
  split; [exists vs; reflexivity |].
  intros i Hi. rewrite (seqZ_split N i Hi) in E.
  destruct (mapRand_threads _ _ _ _ _ _ _ E) as (before & tp & v & tp' & Hbf & Hv & Hl).
  rewrite length_seqZ in Hl.
  exists before, tp, v, tp'. split; [exact Hbf |]. split; [exact Hv |].
  rewrite lookup_zip_with, lookup_seqZ_lt by lia. rewrite Hl. simpl.
  rewrite Z.add_0_l, Z2Nat.id by lia. reflexivity.
Qed.

(** When the trace is produced. *)

Lemma waveformSampleOn_js_quiet M type t p :
  type <> "noise"%string -> quiet p ->
  exists y, forall tape, JsxM.waveformSample M type t p tape = Some (y, tape).
Proof.
  intros Hk Hq. destruct (waveformSampleOn_js_shape M type t p Hk) as [y Hy].
  exists (fadd M y (p_dc p)). intros tape. rewrite Hy.
  apply finishOn_js_quiet. rewrite (quiet_noiseStdOn M p Hq). lra.
Qed.

Lemma waveformSampleOn_ts_quiet M type t p :
  type <> "noise"%string -> quiet p ->
  exists y, forall tape, TsxM.waveformSample M type t p tape = Some (y, tape).
Proof.
  intros Hk Hq. destruct (waveformSampleOn_ts_shape M type t p Hk) as [y Hy].
  exists (fadd M y (p_dc p)). intros tape. rewrite Hy.
  apply finishOn_ts_quiet. rewrite (quiet_noiseStdOn M p Hq). lra.
Qed.

Lemma mapRand_pure {A B} (f : A -> Rand B) (l : list A) :
  (forall a, In a l -> exists b, forall tape, f a tape = Some (b, tape)) ->
  exists bs, forall tape, mapRand f l tape = Some (bs, tape).
Proof.
  induction l as [| a l IH]; intros H; [exists []; reflexivity |].
  destruct (H a (or_introl eq_refl)) as [b Hb].
  destruct IH as [bs Hbs]; [intros x Hx; apply H; right; exact Hx |].
  exists (b :: bs). intros tape. simpl. unfold bind. rewrite Hb, Hbs. reflexivity.
Qed.

(** On a tape of draws that are not zero a call of [waveformSample] reads at
    most three of them: one for the ["noise"] kind and two for the Gaussian
    term. *)
Lemma fresh_drop k tape : fresh tape -> fresh (drop k tape).
Proof. apply Forall_drop. Qed.

Lemma untilNonzero_fresh tape :
  fresh tape -> (1 <= length tape)%nat ->
  exists u, untilNonzero tape = Some (u, drop 1 tape).
Proof.
  intros Hf Hl. destruct tape as [| u rest]; [simpl in Hl; lia |].
  exists u. apply untilNonzero_head. exact (Forall_inv Hf).
Qed.

Lemma randnOn_fresh (M : Machine) tape :
  fresh tape -> (2 <= length tape)%nat ->
  (exists g, JsxM.randn M tape = Some (g, drop 2 tape)) /\
  (exists g, TsxM.randn M tape = Some (g, drop 2 tape)).
Proof.
  intros Hf Hl.
  destruct (untilNonzero_fresh tape Hf ltac:(lia)) as [u Hu].
  destruct (untilNonzero_fresh (drop 1 tape) (fresh_drop 1 tape Hf)
              ltac:(rewrite length_drop; lia)) as [v Hv].
  rewrite drop_drop in Hv. change (1 + 1)%nat with 2%nat in Hv.
  split; eexists; [unfold JsxM.randn | unfold TsxM.randn];
    unfold bind; rewrite Hu, Hv; reflexivity.
Qed.

Lemma finishOn_fresh M p y tape :
  fresh tape -> (2 <= length tape)%nat ->
  (exists k v, (k <= 2)%nat /\ finishOn_js M p y tape = Some (v, drop k tape)) /\
  (exists k v, (k <= 2)%nat /\ finishOn_ts M p y tape = Some (v, drop k tape)).
Proof.
  intros Hf Hl. destruct (randnOn_fresh M tape Hf Hl) as [[gj Hj] [gt Ht]].
  unfold finishOn_js, finishOn_ts, bind.
  destruct (gtb (noiseStdOn M p) 0).
  - rewrite Hj, Ht. split; exists 2%nat; eexists; (split; [lia | reflexivity]).
  - split; exists 0%nat; eexists; (split; [lia | reflexivity]).
Qed.

Lemma noiseOn_shape M t p tape :
  JsxM.waveformSample M "noise" t p tape
  = (r <- Math_random ;;
     finishOn_js M p (fmul M (p_amplitude p) (fsub M (fmul M r 2) 1))) tape /\
  TsxM.waveformSample M "noise" t p tape
  = (r <- Math_random ;;
     finishOn_ts M p (fmul M (p_amplitude p) (fsub M (fmul M r 2) 1))) tape.
Proof.
  split; unfold bind; destruct tape as [| u rest]; reflexivity.
Qed.

Lemma waveformSampleOn_fresh M type t p tape :
  fresh tape -> (3 <= length tape)%nat ->
  (exists k v, (k <= 3)%nat /\ JsxM.waveformSample M type t p tape = Some (v, drop k tape)) /\
  (exists k v, (k <= 3)%nat /\ TsxM.waveformSample M type t p tape = Some (v, drop k tape)).
Proof.
  intros Hf Hl. destruct (string_dec type "noise") as [-> | Hk].
  - destruct (noiseOn_shape M t p tape) as [-> ->].
    destruct tape as [| u rest]; [simpl in Hl; lia |].
    unfold bind. cbn [Math_random].
    destruct (finishOn_fresh M p (fmul M (p_amplitude p) (fsub M (fmul M u 2) 1)) rest
                (Forall_inv_tail Hf) ltac:(simpl in Hl; lia))
      as [(kj & vj & Hkj & Hj) (kt & vt & Hkt & Ht)].
    rewrite Hj, Ht.
    split; [exists (S kj), vj | exists (S kt), vt]; (split; [lia | reflexivity]).
  - destruct (waveformSampleOn_js_shape M type t p Hk) as [yj ->].
    destruct (waveformSampleOn_ts_shape M type t p Hk) as [yt ->].
    destruct (finishOn_fresh M p yj tape Hf ltac:(lia)) as [(kj & vj & Hkj & Hj) _].
    destruct (finishOn_fresh M p yt tape Hf ltac:(lia)) as [_ (kt & vt & Hkt & Ht)].
    split; [exists kj, vj | exists kt, vt]; (split; [lia | assumption]).
Qed.

Lemma mapRand_fresh {A} (f : A -> Rand R) (l : list A) :
  (forall a tape, fresh tape -> (3 <= length tape)%nat ->
                  exists k v, (k <= 3)%nat /\ f a tape = Some (v, drop k tape)) ->
  forall tape,
    fresh tape -> (3 * length l <= length tape)%nat -> is_Some (mapRand f l tape).
Proof.
  intros Hf. induction l as [| a l IH]; intros tape Hfr Hl; [eexists; reflexivity |].
  simpl in Hl. destruct (Hf a tape Hfr ltac:(lia)) as (k & v & Hk & Ha).
  destruct (IH (drop k tape) (fresh_drop k tape Hfr) ltac:(rewrite length_drop; lia))
    as [[vs tape2] Hvs].
  simpl. unfold bind. rewrite Ha, Hvs. eexists; reflexivity.
Qed.

Lemma traceOn_js_unfold M shared view ch tape :
  ch_enabled ch = true ->
  JsxM.trace M shared view ch tape
  = (points <- forEach (seqZ 0 (JsxM.sampleCount M shared view))
                 (JsxM.samplePoint M shared view ch (JsxM.sampleCount M shared view)) ;;
     ret ([lineWidth 2; strokeStyle (ch_color ch); beginPath] ++ points ++ [stroke])) tape.
Proof. intros Hen. unfold JsxM.trace. rewrite Hen. reflexivity. Qed.

Lemma traceOn_ts_unfold M shared view ch tape :
  ch_enabled ch = true ->
  TsxM.trace M shared view ch tape
  = (points <- forEach (seqZ 0 (TsxM.sampleCount M shared view))
                 (TsxM.samplePoint M shared view ch (TsxM.sampleCount M shared view)) ;;
     ret ([lineWidth 2; lineJoin "round"; lineCap "round"; strokeStyle (ch_color ch);
           beginPath] ++ points ++ [stroke])) tape.
Proof. intros Hen. unfold TsxM.trace. rewrite Hen. reflexivity. Qed.

Lemma forEach_is_Some {A} (l : list A) (sample : A -> Rand R) (point : A -> R -> DrawCmd)
    (body : A -> Rand (list DrawCmd)) tape :
  (forall a tp, body a tp = (v <- sample a ;; ret [point a v]) tp) ->
  is_Some (mapRand sample l tape) -> is_Some (forEach l body tape).
Proof.
  intros Hb [[vs tape'] H]. rewrite (forEach_mapRand _ sample point body Hb).
  unfold bind. rewrite H. eexists; reflexivity.
Qed.

(** C4, amended: for every enabled channel, on every machine arithmetic,
    both editions take [N = max(floor, ⌊sampleRate × totalDisplayedTime⌋)]
    samples, the two products being those the machine computes, with the
    constant floor 1000 in the JavaScript edition and 2000 in the
    type-annotated one.  A drawn trace has exactly [N] points after its
    set-up calls; point [i] shows the voltage that the call of
    [waveformSample] at [t = (i/(N−1))·totalDisplayedTime + timeOffset]
    returned on the tape of draws left by the calls for the samples before
    it, and the trace leaves the tape the [N] calls leave.  The JavaScript
    edition puts the point at [x = (i/(N−1))·W],
    [y = H/2 − ((voltage − voltageOffset)/voltsPerDiv)·(H/verticalDivisions)],
    each operation rounded; the type-annotated edition aligns both
    coordinates to the pixel and puts it at [(round(x) + 0.5, round(y) + 0.5)].
    The trace of a channel without noise is produced on every tape, which it
    leaves untouched; the trace of any channel is produced on a tape of at
    least [3·N] draws none of which is zero. *)
Theorem trace_sample_mapping (M : Machine) (shared : Shared) (view : View) (ch : Channel) :
  ch_enabled ch = true ->
  let T := totalTimeOn M shared view in
  let Nj := JsxM.sampleCount M shared view in
  let Nt := TsxM.sampleCount M shared view in
  (T = fmul M (v_sPerDiv view) (IZR (sh_durationDivs shared)) /\
   Nj = Z.max 1000 (Math_floor (fmul M (sh_sampleRate shared) T)) /\
   Nt = Z.max 2000 (Math_floor (fmul M (sh_sampleRate shared) T))) /\
  (forall tape cmds tape',
     JsxM.trace M shared view ch tape = Some (cmds, tape') ->
     exists points,
       cmds = [lineWidth 2; strokeStyle (ch_color ch); beginPath] ++ points ++ [stroke] /\
       length points = Z.to_nat Nj /\
       (exists voltages,
          samples_js M shared view ch Nj (seqZ 0 Nj) tape = Some (voltages, tape')) /\
       forall i : Z,
         (0 <= i < Nj)%Z ->
         exists before tp voltage tp',
           samples_js M shared view ch Nj (seqZ 0 i) tape = Some (before, tp) /\
           JsxM.waveformSample M (ch_waveform ch) (sampleTimeOn M shared view Nj i)
             (paramsOf shared ch) tp = Some (voltage, tp') /\
           points !! Z.to_nat i
           = Some (plot i (pixelXOn M Nj i) (pixelYOn M shared view voltage))) /\
  (forall tape cmds tape',
     TsxM.trace M shared view ch tape = Some (cmds, tape') ->
     exists points,
       cmds = [lineWidth 2; lineJoin "round"; lineCap "round"; strokeStyle (ch_color ch);
               beginPath] ++ points ++ [stroke] /\
       length points = Z.to_nat Nt /\
       (exists voltages,
          samples_ts M shared view ch Nt (seqZ 0 Nt) tape = Some (voltages, tape')) /\
       forall i : Z,
         (0 <= i < Nt)%Z ->
         exists before tp voltage tp',
           samples_ts M shared view ch Nt (seqZ 0 i) tape = Some (before, tp) /\
           TsxM.waveformSample M (ch_waveform ch) (sampleTimeOn M shared view Nt i)
             (paramsOf shared ch) tp = Some (voltage, tp') /\
           points !! Z.to_nat i
           = Some (plot i (snapOn M (pixelXOn M Nt i))
                     (snapOn M (pixelYOn M shared view voltage)))) /\
  (quietChannel shared ch ->
   exists cj ct,
     forall tape,
       JsxM.trace M shared view ch tape = Some (cj, tape) /\
       TsxM.trace M shared view ch tape = Some (ct, tape)) /\
  (forall tape,
     Forall (fun u => u <> 0) tape ->
     ((3 * Z.to_nat Nj <= length tape)%nat -> is_Some (JsxM.trace M shared view ch tape)) /\
     ((3 * Z.to_nat Nt <= length tape)%nat -> is_Some (TsxM.trace M shared view ch tape))).
Proof.
  intros Hen T Nj Nt.
  split; [split; [reflexivity | split; reflexivity] |].
  split; [| split; [| split]].
  - intros tape cmds tape' H. rewrite (traceOn_js_unfold _ _ _ _ _ Hen) in H.
    fold Nj in H. unfold bind in H.
    destruct (forEach (seqZ 0 Nj) (JsxM.samplePoint M shared view ch Nj) tape)
      as [[points tape1] |] eqn:E; [| discriminate H].
    injection H as <- <-. exists points. split; [reflexivity |].
    exact (points_of_samples Nj _ _ _ _ _ _ (samplePointOn_js M shared view ch Nj) E).
  - intros tape cmds tape' H. rewrite (traceOn_ts_unfold _ _ _ _ _ Hen) in H.
    fold Nt in H. unfold bind in H.
    destruct (forEach (seqZ 0 Nt) (TsxM.samplePoint M shared view ch Nt) tape)
      as [[points tape1] |] eqn:E; [| discriminate H].
    injection H as <- <-. exists points. split; [reflexivity |].
    exact (points_of_samples Nt _ _ _ _ _ _ (samplePointOn_ts M shared view ch Nt) E).
  - intros [Hk Hq].
    destruct (mapRand_pure
                (fun i => JsxM.waveformSample M (ch_waveform ch)
                            (sampleTimeOn M shared view Nj i) (paramsOf shared ch))
                (seqZ 0 Nj)
                (fun i _ => waveformSampleOn_js_quiet M _ _ _ Hk Hq)) as [vj Hj].
    destruct (mapRand_pure
                (fun i => TsxM.waveformSample M (ch_waveform ch)
                            (sampleTimeOn M shared view Nt i) (paramsOf shared ch))
                (seqZ 0 Nt)
                (fun i _ => waveformSampleOn_ts_quiet M _ _ _ Hk Hq)) as [vt Ht].
    eexists. eexists. intros tape.
    rewrite (traceOn_js_unfold _ _ _ _ _ Hen), (traceOn_ts_unfold _ _ _ _ _ Hen).
    fold Nj Nt. unfold bind.
    rewrite (forEach_mapRand _ _ _ _ (samplePointOn_js M shared view ch Nj)).
    rewrite (forEach_mapRand _ _ _ _ (samplePointOn_ts M shared view ch Nt)).
    unfold bind. rewrite Hj, Ht. split; reflexivity.
  - intros tape Hf. split; intros Hl.
    + rewrite (traceOn_js_unfold _ _ _ _ _ Hen). fold Nj. unfold bind.
      destruct (forEach_is_Some (seqZ 0 Nj) _ _ _ tape
                  (samplePointOn_js M shared view ch Nj)) as [[points tp] ->];
        [| eexists; reflexivity].
      apply mapRand_fresh; [| exact Hf | rewrite length_seqZ; exact Hl].
      intros i tp Hfr H3. exact (proj1 (waveformSampleOn_fresh M _ _ _ tp Hfr H3)).
    + rewrite (traceOn_ts_unfold _ _ _ _ _ Hen). fold Nt. unfold bind.
      destruct (forEach_is_Some (seqZ 0 Nt) _ _ _ tape
                  (samplePointOn_ts M shared view ch Nt)) as [[points tp] ->];
        [| eexists; reflexivity].
      apply mapRand_fresh; [| exact Hf | rewrite length_seqZ; exact Hl].
      intros i tp Hfr H3. exact (proj2 (waveformSampleOn_fresh M _ _ _ tp Hfr H3)).
Qed.

Lemma trace_sample_mapping_witness :
  ch_enabled channel1 = true /\
  JsxM.sampleCount exact Jsx.defaultSharedState defaultView = 1000%Z /\
  TsxM.sampleCount exact Tsx.defaultSharedState defaultView = 2000%Z /\
  is_Some (JsxM.trace exact Jsx.defaultSharedState defaultView channel1 []) /\
  is_Some (TsxM.trace exact Tsx.defaultSharedState defaultView channel1 []).
Proof.
  assert (Hf : Math_floor (20000 * (0.001 * 10)) = 200%Z).
  { replace (20000 * (0.001 * 10)) with (IZR 200) by lra. apply Math_floor_IZR. }
  assert (Hq : forall shared, sh_difficulty shared = "base"%string ->
                              quietChannel shared channel1).
  { intros shared Hd. split; [discriminate |]. split; [reflexivity | left; exact Hd]. }
  split; [reflexivity |].
  destruct (trace_sample_mapping exact Jsx.defaultSharedState defaultView channel1 eq_refl)
    as ((_ & Hj & _) & _ & _ & Hpj & _).
  destruct (trace_sample_mapping exact Tsx.defaultSharedState defaultView channel1 eq_refl)
    as ((_ & _ & Ht) & _ & _ & Hpt & _).
  destruct (Hpj (Hq Jsx.defaultSharedState eq_refl)) as (cj & cj' & Hcj).
  destruct (Hpt (Hq Tsx.defaultSharedState eq_refl)) as (ct' & ct & Hct).
  unfold totalTimeOn, fmul in Hj, Ht. simpl in Hj, Ht.
  rewrite Hf in Hj, Ht.
  split; [exact Hj |]. split; [exact Ht |].
  split; [rewrite (proj1 (Hcj [])) | rewrite (proj2 (Hct []))]; eexists; reflexivity.
Defined.

(** * Properties of the measurement checker *)

Lemma leb_true_iff x y : leb x y = true <-> x <= y.
Proof. unfold leb. destruct (Rle_dec x y); split; intros; try discriminate; tauto. Qed.

Lemma gtb_true_iff x y : gtb x y = true <-> x > y.
Proof. unfold gtb. destruct (Rgt_dec x y); split; intros; try discriminate; tauto. Qed.

Lemma fieldPass_finite x y tol :
  Jsx.fieldPass (Fin x) (Fin y) tol = leb (relativeError x y) tol.
Proof. reflexivity. Qed.

Lemma fieldFails_finite x y tol :
  Tsx.fieldFails (Fin x) (Fin y) tol = gtb (relativeError x y) tol.
Proof. reflexivity. Qed.

Lemma fieldPass_not_finite u c tol :
  isFinite u = false \/ isFinite c = false -> Jsx.fieldPass u c tol = false.
Proof.
  intros [H | H]; unfold Jsx.fieldPass; rewrite H; [reflexivity |].
  rewrite orb_true_r. reflexivity.
Qed.

Lemma fieldFails_not_finite u c tol :
  isFinite u = false \/ isFinite c = false -> Tsx.fieldFails u c tol = true.
Proof.
  intros [H | H]; unfold Tsx.fieldFails; rewrite H; [reflexivity |].
  rewrite orb_true_r. reflexivity.
Qed.

Lemma fieldFails_fieldPass u c tol : Tsx.fieldFails u c tol = negb (Jsx.fieldPass u c tol).
Proof.
  destruct u, c; try reflexivity.
  rewrite fieldPass_finite, fieldFails_finite. unfold gtb, leb.
  destruct (Rgt_dec _ _), (Rle_dec _ _); try reflexivity; lra.
Qed.

(** The loop over the fields of the JavaScript edition. *)
Lemma checkFields_js parseFloat user ch :
  Jsx.checkFields parseFloat
    [(vmax, 0.05); (vmin, 0.05); (vpp, 0.05); (period, 0.02); (freq, 0.02)]
    user (Jsx.correctFor ch)
  = (forallb (pass_js parseFloat user ch) allFields,
     map (fun k => (k, pass_js parseFloat user ch k)) allFields).
Proof.
  unfold Jsx.checkFields, allFields. simpl.
  change (Jsx.fieldPass (parseFloat (m_vmax user)) _ 0.05)
    with (pass_js parseFloat user ch vmax).
  change (Jsx.fieldPass (parseFloat (m_vmin user)) _ 0.05)
    with (pass_js parseFloat user ch vmin).
  change (Jsx.fieldPass (parseFloat (m_vpp user)) _ 0.05)
    with (pass_js parseFloat user ch vpp).
  change (Jsx.fieldPass (parseFloat (m_period user)) _ 0.02)
    with (pass_js parseFloat user ch period).
  change (Jsx.fieldPass (parseFloat (m_freq user)) _ 0.02)
    with (pass_js parseFloat user ch freq).
  destruct (pass_js parseFloat user ch vmax), (pass_js parseFloat user ch vmin),
    (pass_js parseFloat user ch vpp), (pass_js parseFloat user ch period),
    (pass_js parseFloat user ch freq); reflexivity.
Qed.

(** [computeCorrect] maps the id of a placed channel to its reference values. *)
Lemma foldl_insert_other (k : Z) (l : list Channel) (m : gmap Z Correct) :
  Forall (fun c => ch_id c <> k) l ->
  foldl (fun map ch => <[ch_id ch := Jsx.correctFor ch]> map) m l !! k = m !! k.
Proof.
  revert m. induction l as [| c l IH]; intros m Hl; [reflexivity |].
  inversion Hl; subst. simpl. rewrite IH by assumption.
  apply lookup_insert_ne. assumption.
Qed.

Lemma computeCorrect_placed shared ch :
  placed shared ch -> Jsx.computeCorrect shared !! ch_id ch = Some (Jsx.correctFor ch).
Proof.
  intros (pre & post & Hch & Hid). unfold Jsx.computeCorrect. rewrite Hch.
  rewrite foldl_app. simpl.
  rewrite foldl_insert_other by (apply Forall_app in Hid; tauto).
  apply lookup_insert_eq.
Qed.

Lemma foldl_insert_is_Some (k : Z) (l : list Channel) (m : gmap Z Correct) :
  is_Some (m !! k) ->
  is_Some (foldl (fun map ch => <[ch_id ch := Jsx.correctFor ch]> map) m l !! k).
Proof.
  revert m. induction l as [| c l IH]; intros m Hm; [exact Hm |].
  simpl. apply IH. destruct (decide (ch_id c = k)) as [Hc | Hc].
  - rewrite Hc, lookup_insert_eq. eexists; reflexivity.
  - rewrite lookup_insert_ne by exact Hc. exact Hm.
Qed.

Lemma computeCorrect_member shared c :
  In c (sh_channels shared) -> is_Some (Jsx.computeCorrect shared !! ch_id c).
Proof.
  unfold Jsx.computeCorrect. generalize (∅ : gmap Z Correct).
  induction (sh_channels shared) as [| d l IH]; intros m Hin; [destruct Hin |].
  simpl. destruct Hin as [-> | Hin]; [| apply IH; exact Hin].
  apply foldl_insert_is_Some. rewrite lookup_insert_eq. eexists; reflexivity.
Qed.

(** ** The JavaScript edition of [doCheck] *)

Lemma doCheck_js_unfold parseFloat shared view :
  Jsx.doCheck parseFloat shared view
  = forOf (sh_channels shared) (step_js parseFloat shared view)
      {| Jsx.r_ok := true; Jsx.r_perChannel := ∅ |}.
Proof. reflexivity. Qed.

Lemma forOf_app {A S} (l1 l2 : list A) (body : S -> A -> option S) (s : S) :
  forOf (l1 ++ l2) body s
  = match forOf l1 body s with
    | Some s' => forOf l2 body s'
    | None => None
    end.
Proof.
  revert s. induction l1 as [| a l1 IH]; intros s; [reflexivity |].
  simpl. destruct (body s a); [apply IH | reflexivity].
Qed.

Lemma step_js_returns parseFloat shared view ms res c :
  v_measures view = Some ms ->
  (ch_enabled c = true -> is_Some (ms !! ch_id c)) ->
  In c (sh_channels shared) ->
  exists res',
    step_js parseFloat shared view res c = Some res' /\
    (forall k, k <> ch_id c -> Jsx.r_perChannel res' !! k = Jsx.r_perChannel res !! k) /\
    (Jsx.r_ok res = false -> Jsx.r_ok res' = false).
Proof.
  intros Hms Hc Hin. unfold step_js.
  destruct (ch_enabled c); simpl negb; cbv iota.
  - rewrite Hms. destruct (Hc eq_refl) as [user ->].
    destruct (computeCorrect_member shared c Hin) as [corr ->].
    destruct (Jsx.checkFields _ _ user corr) as [ok comp].
    eexists. split; [reflexivity |]. split.
    + intros k Hk. simpl. apply lookup_insert_ne. congruence.
    + simpl. intros ->. destruct ok; reflexivity.
  - exists res. split; [reflexivity |]. split; [reflexivity | tauto].
Qed.

Lemma forOf_js_returns parseFloat shared view ms (l : list Channel) :
  v_measures view = Some ms ->
  Forall (fun c => ch_enabled c = true -> is_Some (ms !! ch_id c)) l ->
  (forall c, In c l -> In c (sh_channels shared)) ->
  forall res,
    exists res',
      forOf l (step_js parseFloat shared view) res = Some res' /\
      (forall k, Forall (fun c => ch_id c <> k) l ->
                 Jsx.r_perChannel res' !! k = Jsx.r_perChannel res !! k) /\
      (Jsx.r_ok res = false -> Jsx.r_ok res' = false).
Proof.
  intros Hms. induction l as [| c l IH]; intros Hall Hsub res.
  - exists res. split; [reflexivity |]. split; [reflexivity | tauto].
  - inversion Hall as [| ? ? Hc Hl]; subst.
    destruct (step_js_returns parseFloat shared view ms res c Hms Hc
                (Hsub c (or_introl eq_refl))) as (r1 & H1 & Hk1 & Hok1).
    destruct (IH Hl (fun d Hd => Hsub d (or_intror Hd)) r1) as (r2 & H2 & Hk2 & Hok2).
    exists r2. split; [simpl; rewrite H1; exact H2 |]. split.
    + intros k Hk. inversion Hk; subst. rewrite Hk2 by assumption.
      apply Hk1. congruence.
    + intros H. apply Hok2, Hok1, H.
Qed.

(** The record [doCheck] leaves for a placed, enabled channel. *)
Lemma doCheck_js_channel parseFloat shared view ms ch user :
  placed shared ch ->
  measured shared view ms ->
  ch_enabled ch = true ->
  ms !! ch_id ch = Some user ->
  exists res,
    Jsx.doCheck parseFloat shared view = Some res /\
    Jsx.r_perChannel res !! ch_id ch
    = Some {| Jsx.cc_ok := forallb (pass_js parseFloat user ch) allFields;
              Jsx.cc_comp := map (fun k => (k, pass_js parseFloat user ch k)) allFields |} /\
    (forallb (pass_js parseFloat user ch) allFields = false -> Jsx.r_ok res = false).
Proof.
  intros Hpl [Hms Hall] Hen Huser.
  pose proof (computeCorrect_placed shared ch Hpl) as Hcorr.
  destruct Hpl as (pre & post & Hch & Hid).
  apply Forall_app in Hid as [Hpre Hpost].
  rewrite Hch in Hall. apply Forall_app in Hall as [Hall1 Hall2].
  inversion Hall2 as [| ? ? _ Hall3]; subst.
  rewrite doCheck_js_unfold, Hch, forOf_app.
  destruct (forOf_js_returns parseFloat shared view ms pre Hms Hall1
              (fun c Hc => ltac:(rewrite Hch; apply in_or_app; left; exact Hc))
              {| Jsx.r_ok := true; Jsx.r_perChannel := ∅ |}) as (r1 & H1 & _ & _).
  rewrite H1. simpl forOf.
  assert (Hstep : step_js parseFloat shared view r1 ch
                  = Some {| Jsx.r_ok := if forallb (pass_js parseFloat user ch) allFields
                                        then Jsx.r_ok r1 else false;
                            Jsx.r_perChannel :=
                              <[ch_id ch :=
                                  {| Jsx.cc_ok := forallb (pass_js parseFloat user ch) allFields;
                                     Jsx.cc_comp :=
                                       map (fun k => (k, pass_js parseFloat user ch k))
                                         allFields |}]> (Jsx.r_perChannel r1) |}).
  { unfold step_js. rewrite Hen, Hms, Huser, Hcorr. simpl negb. cbv iota.
    rewrite checkFields_js. reflexivity. }
  rewrite Hstep.
  match goal with
  | |- context [forOf post _ ?r2] =>
      destruct (forOf_js_returns parseFloat shared view ms post Hms Hall3
                  (fun c Hc => ltac:(rewrite Hch; apply in_or_app; right; right; exact Hc))
                  r2) as (r3 & H3 & Hk3 & Hok3)
  end.
  exists r3. split; [exact H3 |]. split.
  - rewrite (Hk3 (ch_id ch) Hpost). simpl. apply lookup_insert_eq.
  - intros Hf. apply Hok3. rewrite Hf. reflexivity.
Qed.

(** ** The type-annotated edition of [doCheck] *)

Lemma doCheck_ts_unfold parseFloat shared view :
  let loop := foldl (step_ts parseFloat (default Tsx.defaultMeasures (v_measures view)))
                (true, ∅) (sh_channels shared) in
  Tsx.r_ok (Tsx.doCheck parseFloat shared view) = fst loop /\
  Tsx.r_perChannel (Tsx.doCheck parseFloat shared view) = settle <$> snd loop.
Proof.
  intros loop. unfold Tsx.doCheck.
  change (foldl _ (true, ∅) (sh_channels shared)) with loop.
  destruct loop as [ok pc]. split; reflexivity.
Qed.

(** The loop over the fields counts one error per failing field. *)
Lemma fold_fields_ts (fails : Field -> R -> bool) (id : Z) (ok : bool)
    (pc : gmap Z Tsx.ChannelErrors) :
  foldl (fun '(ok, perChannel) '(k, tol) =>
           if fails k tol
           then (false, Tsx.countError id perChannel)
           else (ok, perChannel))
        (ok, pc)
        [(vmax, 0.05); (vmin, 0.05); (vpp, 0.05); (period, 0.02); (freq, 0.02)]
  = (if Nat.eqb (length (List.filter (fun k => fails k (tolerance k)) allFields)) 0
     then ok else false,
     Nat.iter (length (List.filter (fun k => fails k (tolerance k)) allFields))
       (Tsx.countError id) pc).
Proof.
  simpl.
  destruct (fails vmax 0.05), (fails vmin 0.05), (fails vpp 0.05),
    (fails period 0.02), (fails freq 0.02); reflexivity.
Qed.

Lemma step_ts_enabled parseFloat measures ok pc ch :
  ch_enabled ch = true ->
  step_ts parseFloat measures (ok, pc) ch
  = (if Nat.eqb (errorsOf parseFloat (measures !! ch_id ch) ch) 0 then ok else false,
     Nat.iter (errorsOf parseFloat (measures !! ch_id ch) ch)
       (Tsx.countError (ch_id ch)) pc).
Proof.
  intros Hen. unfold step_ts. rewrite Hen. cbv beta iota delta [negb].
  exact (fold_fields_ts
           (fun k tol =>
              Tsx.fieldFails
                (match measures !! ch_id ch with
                 | Some m => parseFloat (entry k m)
                 | None => NaN
                 end) (reference k (Tsx.corr ch)) tol)
           (ch_id ch) ok pc).
Qed.

Lemma countError_other (id k : Z) (pc : gmap Z Tsx.ChannelErrors) :
  k <> id -> Tsx.countError id pc !! k = pc !! k.
Proof. intros H. unfold Tsx.countError. apply lookup_insert_ne. congruence. Qed.

Lemma iter_countError_other (n : nat) (id k : Z) (pc : gmap Z Tsx.ChannelErrors) :
  k <> id -> Nat.iter n (Tsx.countError id) pc !! k = pc !! k.
Proof.
  intros H. induction n as [| n IH]; [reflexivity |].
  simpl. rewrite countError_other by exact H. exact IH.
Qed.

Lemma iter_countError_fresh (n : nat) (id : Z) (pc : gmap Z Tsx.ChannelErrors) :
  pc !! id = None ->
  Nat.iter n (Tsx.countError id) pc !! id
  = match n with
    | O => None
    | S _ => Some {| Tsx.ce_ok := true; Tsx.ce_errors := n |}
    end.
Proof.
  intros H. induction n as [| n IH]; [exact H |].
  simpl. unfold Tsx.countError at 1. rewrite lookup_insert_eq, IH.
  destruct n; reflexivity.
Qed.

Lemma step_ts_other parseFloat measures res c (k : Z) :
  ch_id c <> k ->
  snd (step_ts parseFloat measures res c) !! k = snd res !! k.
Proof.
  intros Hk. destruct res as [ok pc]. destruct (ch_enabled c) eqn:Hen.
  - rewrite step_ts_enabled by exact Hen. simpl.
    apply iter_countError_other. congruence.
  - unfold step_ts. rewrite Hen. reflexivity.
Qed.

Lemma step_ts_stays_false parseFloat measures pc c :
  fst (step_ts parseFloat measures (false, pc) c) = false.
Proof.
  destruct (ch_enabled c) eqn:Hen.
  - rewrite step_ts_enabled by exact Hen. simpl.
    destruct (Nat.eqb _ 0); reflexivity.
  - unfold step_ts. rewrite Hen. reflexivity.
Qed.

Lemma foldl_ts_other parseFloat measures (l : list Channel) res (k : Z) :
  Forall (fun c => ch_id c <> k) l ->
  snd (foldl (step_ts parseFloat measures) res l) !! k = snd res !! k.
Proof.
  revert res. induction l as [| c l IH]; intros res Hl; [reflexivity |].
  inversion Hl; subst. simpl. rewrite IH by assumption.
  apply step_ts_other. assumption.
Qed.

Lemma foldl_ts_stays_false parseFloat measures (l : list Channel) pc :
  fst (foldl (step_ts parseFloat measures) (false, pc) l) = false.
Proof.
  revert pc. induction l as [| c l IH]; intros pc; [reflexivity |].
  simpl. pose proof (step_ts_stays_false parseFloat measures pc c) as H.
  destruct (step_ts parseFloat measures (false, pc) c) as [ok pc']. simpl in H. subst ok.
  apply IH.
Qed.

(** The record [doCheck] leaves for a placed, enabled channel: none when no
    field is an error, otherwise the number of errors with [ok = false]; and
    any error clears the overall [ok]. *)
Lemma doCheck_ts_channel parseFloat shared view ch :
  placed shared ch ->
  ch_enabled ch = true ->
  let user := default Tsx.defaultMeasures (v_measures view) !! ch_id ch in
  let n := errorsOf parseFloat user ch in
  Tsx.r_perChannel (Tsx.doCheck parseFloat shared view) !! ch_id ch
  = match n with
    | O => None
    | S _ => Some {| Tsx.ce_ok := false; Tsx.ce_errors := n |}
    end /\
  (n <> 0%nat -> Tsx.r_ok (Tsx.doCheck parseFloat shared view) = false).
Proof.
  intros (pre & post & Hch & Hid) Hen user n.
  apply Forall_app in Hid as [Hpre Hpost].
  destruct (doCheck_ts_unfold parseFloat shared view) as [Hok Hpc].
  rewrite Hok, Hpc, Hch. clear Hok Hpc.
  set (measures := default Tsx.defaultMeasures (v_measures view)) in *.
  rewrite foldl_app. simpl foldl.
  destruct (foldl (step_ts parseFloat measures) (true, ∅) pre) as [ok1 pc1] eqn:E1.
  assert (Hfresh : pc1 !! ch_id ch = None).
  { change pc1 with (snd (ok1, pc1)). rewrite <- E1.
    rewrite foldl_ts_other by exact Hpre. reflexivity. }
  rewrite step_ts_enabled by exact Hen. fold user. fold n.
  split.
  - rewrite lookup_fmap, foldl_ts_other by exact Hpost. simpl snd.
    rewrite iter_countError_fresh by exact Hfresh.
    destruct n; reflexivity.
  - intros Hn. destruct n as [| n']; [contradiction |]. simpl Nat.eqb. cbv iota.
    apply foldl_ts_stays_false.
Qed.

(** ** Field comparison *)

Lemma fieldPass_rule u c tol : Jsx.fieldPass u c tol = false <-> failsRule u c tol.
Proof.
  unfold failsRule. destruct u as [x | | |], c as [y | | |];
    try (split; [intros _; simpl; tauto | intros _; reflexivity]).
  rewrite fieldPass_finite. unfold leb. destruct (Rle_dec (relativeError x y) tol) as [H | H].
  - split; [discriminate |].
    intros [Hu | [Hc | (x' & y' & Hx & Hy & Hr)]]; try discriminate.
    inversion Hx; inversion Hy; subst. lra.
  - split; [| reflexivity]. intros _. right. right. exists x, y.
    split; [reflexivity |]. split; [reflexivity | lra].
Qed.

Lemma fieldFails_rule u c tol : Tsx.fieldFails u c tol = true <-> failsRule u c tol.
Proof.
  rewrite fieldFails_fieldPass, negb_true_iff. apply fieldPass_rule.
Qed.

Lemma relativeError_scaled (ref factor : R) :
  relativeError (ref * (1 + factor)) ref = Rabs factor * Rabs ref / (Rabs ref + 1e-9).
Proof.
  unfold relativeError. replace (ref * (1 + factor) - ref) with (factor * ref) by ring.
  rewrite Rabs_mult. reflexivity.
Qed.

Lemma div_le_iff (a b t : R) : 0 < b -> (a / b <= t <-> a <= t * b).
Proof.
  intros Hb. split; intros H.
  - replace a with (a / b * b) by (field; lra). apply Rmult_le_compat_r; lra.
  - replace t with (t * b / b) by (field; lra).
    unfold Rdiv. apply Rmult_le_compat_r; [| exact H].
    apply Rlt_le, Rinv_0_lt_compat, Hb.
Qed.

(** An entry 4.9% above the reference is within the 5% tolerance; one 5.1%
    above it is outside exactly when the reference exceeds [5e-8] in
    magnitude. *)
Lemma boundary_pass (ref : R) : relativeError (ref * 1.049) ref <= 0.05.
Proof.
  replace 1.049 with (1 + 0.049) by lra. rewrite relativeError_scaled.
  pose proof (Rabs_pos ref) as Hr. rewrite (Rabs_pos_eq 0.049) by lra.
  apply div_le_iff; lra.
Qed.

Lemma boundary_fail (ref : R) : relativeError (ref * 1.051) ref <= 0.05 <-> Rabs ref <= 5e-8.
Proof.
  replace 1.051 with (1 + 0.051) by lra. rewrite relativeError_scaled.
  pose proof (Rabs_pos ref) as Hr. rewrite (Rabs_pos_eq 0.051) by lra.
  rewrite div_le_iff by lra. split; intros H; lra.
Qed.

Lemma relativeError_exact (x y : R) : x = y -> relativeError x y = 0.
Proof.
  intros ->. unfold relativeError. replace (y - y) with 0 by ring.
  rewrite Rabs_R0. unfold Rdiv. apply Rmult_0_l.
Qed.

Lemma fieldPass_exact (x y tol : R) : x = y -> 0 <= tol -> Jsx.fieldPass (Fin x) (Fin y) tol = true.
Proof.
  intros Hxy Ht. rewrite fieldPass_finite, leb_true_iff, relativeError_exact by exact Hxy.
  exact Ht.
Qed.

(** C6, counterexample: for the channel of amplitude [1e-8] the reference
    [vmax] is [1e-8] and the entry [1.051e-8], 5.1% above it, passes in both
    editions (relative error 0.051e-8/1.1e-8 < 0.05); for the flat channel
    the reference is [0] and the entry [0 = 0·1.051] passes. *)
Lemma entry_5_1_percent_high_passes :
  c_vmax (Jsx.correctFor tinyChannel) = Fin (0 + 1e-8) /\
  c_vmax (Tsx.corr tinyChannel) = Fin (1e-8 + 0) /\
  1.051e-8 = 1e-8 * 1.051 /\
  pass_js parseTable (entriesWith "1.051e-8" "0.001" "1000") tinyChannel vmax = true /\
  fails_ts parseTable (Some (entriesWith "1.051e-8" "0.001" "1000")) tinyChannel vmax = false /\
  pass_js parseTable (entriesWith "0" "0.001" "1000") flatChannel vmax = true /\
  fails_ts parseTable (Some (entriesWith "0" "0.001" "1000")) flatChannel vmax = false.
Proof.
  assert (Ht : Jsx.fieldPass (Fin 1.051e-8) (Fin (0 + 1e-8)) 0.05 = true).
  { rewrite fieldPass_finite, leb_true_iff.
    replace 1.051e-8 with ((0 + 1e-8) * 1.051) by lra.
    apply boundary_fail. rewrite Rabs_pos_eq; lra. }
  assert (Ht' : Jsx.fieldPass (Fin 1.051e-8) (Fin (1e-8 + 0)) 0.05 = true).
  { replace (1e-8 + 0) with (0 + 1e-8) by lra. exact Ht. }
  assert (Hz : forall y, y = 0 -> Jsx.fieldPass (Fin 0) (Fin y) 0.05 = true).
  { intros y ->. apply fieldPass_exact; lra. }
  split; [reflexivity |]. split; [reflexivity |]. split; [lra |].
  split; [exact Ht |]. split; [| split].
  - change (Tsx.fieldFails (Fin 1.051e-8) (Fin (1e-8 + 0)) 0.05 = false).
    rewrite fieldFails_fieldPass, Ht'. reflexivity.
  - change (Jsx.fieldPass (Fin 0) (Fin (0 + 0)) 0.05 = true). apply Hz. lra.
  - change (Tsx.fieldFails (Fin 0) (Fin (0 + 0)) 0.05 = false).
    rewrite fieldFails_fieldPass, Hz by lra. reflexivity.
Qed.

Lemma placed_stateWith ch : ch_id ch = 1%Z -> placed (stateWith ch) ch.
Proof.
  intros H. exists [], (tl (sh_channels (stateWith ch))). split; [reflexivity |].
  simpl. rewrite H. repeat constructor; discriminate.
Qed.

Lemma measured_viewWith ch m :
  ch_id ch = 1%Z -> measured (stateWith ch) (viewWith m) (entriesOf m).
Proof.
  intros H. split; [reflexivity |]. unfold stateWith. cbn [sh_channels].
  constructor; [intros _; rewrite H; eexists; reflexivity |].
  repeat constructor; intros _; eexists; reflexivity.
Qed.

Lemma entriesOf_1 m : entriesOf m !! 1%Z = Some m.
Proof. reflexivity. Qed.

(** C6, amended: in both editions a field fails if and only if the entry
    does not parse to a finite number, or the reference value is not finite,
    or the relative error [|user − ref|/(|ref| + 1e−9)] exceeds the
    tolerance; [doCheck] applies this rule to the five fields of every
    enabled channel with tolerance 5% for vmax, vmin, vpp and 2% for period
    and freq.  An entry [ref·1.049] is within the 5% tolerance for every
    finite [ref]; an entry [ref·1.051] fails exactly when [|ref| > 5e-8]. *)
Theorem field_comparison_rule (parseFloat : string -> number) (shared : Shared)
    (view : View) (ms : gmap Z Measures) (ch : Channel) (user : Measures) :
  placed shared ch ->
  measured shared view ms ->
  ch_enabled ch = true ->
  ms !! ch_id ch = Some user ->
  (forall k,
     pass_js parseFloat user ch k = false <->
     failsRule (parseFloat (entry k user)) (reference k (Jsx.correctFor ch)) (tolerance k)) /\
  (forall k,
     fails_ts parseFloat (Some user) ch k = true <->
     failsRule (parseFloat (entry k user)) (reference k (Tsx.corr ch)) (tolerance k)) /\
  (exists res,
     Jsx.doCheck parseFloat shared view = Some res /\
     Jsx.r_perChannel res !! ch_id ch
     = Some {| Jsx.cc_ok := forallb (pass_js parseFloat user ch) allFields;
               Jsx.cc_comp := map (fun k => (k, pass_js parseFloat user ch k)) allFields |}) /\
  Tsx.r_perChannel (Tsx.doCheck parseFloat shared view) !! ch_id ch
  = match errorsOf parseFloat (Some user) ch with
    | O => None
    | S _ => Some {| Tsx.ce_ok := false;
                     Tsx.ce_errors := errorsOf parseFloat (Some user) ch |}
    end /\
  (forall ref,
     Jsx.fieldPass (Fin (ref * 1.049)) (Fin ref) 0.05 = true /\
     Tsx.fieldFails (Fin (ref * 1.049)) (Fin ref) 0.05 = false) /\
  (forall ref,
     (Jsx.fieldPass (Fin (ref * 1.051)) (Fin ref) 0.05 = false <-> Rabs ref > 5e-8) /\
     (Tsx.fieldFails (Fin (ref * 1.051)) (Fin ref) 0.05 = true <-> Rabs ref > 5e-8)).
Proof.
  intros Hpl Hms Hen Huser.
  split; [intros k; apply fieldPass_rule |].
  split; [intros k; apply fieldFails_rule |].
  split.
  { destruct (doCheck_js_channel parseFloat shared view ms ch user Hpl Hms Hen Huser)
      as (res & Hres & Hrec & _).
    exists res. split; assumption. }
  split.
  { destruct (doCheck_ts_channel parseFloat shared view ch Hpl Hen) as [Hrec _].
    destruct Hms as [Hv _]. rewrite Hv in Hrec. simpl default in Hrec.
    rewrite Huser in Hrec. exact Hrec. }
  assert (Hpass : forall ref, Jsx.fieldPass (Fin (ref * 1.049)) (Fin ref) 0.05 = true).
  { intros ref. rewrite fieldPass_finite, leb_true_iff. apply boundary_pass. }
  assert (Hfail : forall ref,
             Jsx.fieldPass (Fin (ref * 1.051)) (Fin ref) 0.05 = false <-> Rabs ref > 5e-8).
  { intros ref. rewrite fieldPass_finite. pose proof (boundary_fail ref) as Hb.
    unfold leb. destruct (Rle_dec _ 0.05) as [H | H].
    - split; [discriminate |]. intros Hr. apply Hb in H. lra.
    - split; [| reflexivity]. intros _.
      destruct (Rle_dec (Rabs ref) 5e-8) as [Hr | Hr]; [| lra].
      apply Hb in Hr. contradiction. }
  split.
  - intros ref. split; [apply Hpass |].
    rewrite fieldFails_fieldPass, Hpass. reflexivity.
  - intros ref. split; [apply Hfail |].
    rewrite fieldFails_fieldPass, negb_true_iff. apply Hfail.
Qed.

Lemma field_comparison_rule_witness :
  placed (stateWith roundTripChannel) roundTripChannel /\
  measured (stateWith roundTripChannel) (viewWith roundTripEntries)
    (entriesOf roundTripEntries) /\
  Jsx.fieldPass (Fin (3 * 1.049)) (Fin 3) 0.05 = true /\
  Jsx.fieldPass (Fin (3 * 1.051)) (Fin 3) 0.05 = false.
Proof.
  pose proof (placed_stateWith roundTripChannel eq_refl) as Hpl.
  pose proof (measured_viewWith roundTripChannel roundTripEntries eq_refl) as Hms.
  destruct (field_comparison_rule parseTable _ _ _ _ _ Hpl Hms eq_refl
              (entriesOf_1 roundTripEntries)) as (_ & _ & _ & _ & Hpass & Hfail).
  split; [exact Hpl |]. split; [exact Hms |].
  split; [exact (proj1 (Hpass 3)) |].
  apply (proj1 (Hfail 3)). rewrite Rabs_pos_eq; lra.
Defined.

(** ** Round trip *)

Lemma correctFor_sine ch :
  ch_waveform ch = "sine"%string ->
  Jsx.correctFor ch
  = {| c_vmax := Fin (ch_dc ch + ch_amplitude ch);
       c_vmin := Fin (ch_dc ch - ch_amplitude ch);
       c_vpp := Fin (2 * ch_amplitude ch);
       c_period := if gtb (ch_frequency ch) 0 then Fin (1 / ch_frequency ch) else Infinity;
       c_freq := Fin (ch_frequency ch) |}.
Proof. intros H. unfold Jsx.correctFor. rewrite H. reflexivity. Qed.

(** C3: for an enabled channel with waveform "sine", amplitude 2, dc 1 and
    frequency 1000 the reference values are vmax 3, vmin −1, vpp 4,
    period 0.001 and freq 1000 in both editions, and entries that parse to
    exactly these numbers make the channel pass: the JavaScript edition
    records [ok = true] with every field matching, the type-annotated edition
    records no error for the channel.  [placed] and [measured] are the
    invariants of the data model: channel ids are distinct, and the view
    holds a measurement object per channel. *)
Theorem checker_round_trip (parseFloat : string -> number) (shared : Shared)
    (view : View) (ms : gmap Z Measures) (ch : Channel) (user : Measures) :
  placed shared ch ->
  measured shared view ms ->
  ch_enabled ch = true ->
  ms !! ch_id ch = Some user ->
  ch_waveform ch = "sine"%string ->
  ch_amplitude ch = 2 -> ch_dc ch = 1 -> ch_frequency ch = 1000 ->
  parseFloat (m_vmax user) = Fin 3 ->
  parseFloat (m_vmin user) = Fin (-1) ->
  parseFloat (m_vpp user) = Fin 4 ->
  parseFloat (m_period user) = Fin 0.001 ->
  parseFloat (m_freq user) = Fin 1000 ->
  let expected :=
    {| c_vmax := Fin 3; c_vmin := Fin (-1); c_vpp := Fin 4;
       c_period := Fin 0.001; c_freq := Fin 1000 |} in
  Jsx.correctFor ch = expected /\
  Jsx.computeCorrect shared !! ch_id ch = Some expected /\
  Tsx.corr ch = expected /\
  (exists res,
     Jsx.doCheck parseFloat shared view = Some res /\
     Jsx.r_perChannel res !! ch_id ch
     = Some {| Jsx.cc_ok := true;
               Jsx.cc_comp := [(vmax, true); (vmin, true); (vpp, true);
                               (period, true); (freq, true)] |}) /\
  Tsx.r_perChannel (Tsx.doCheck parseFloat shared view) !! ch_id ch = None.
Proof.
  intros Hpl Hms Hen Huser Hw Ha Hdc Hf Pvmax Pvmin Pvpp Pperiod Pfreq expected.
  assert (Hg : gtb 1000 0 = true) by (apply gtb_true; lra).
  assert (Hj : Jsx.correctFor ch = expected).
  { rewrite (correctFor_sine ch Hw), Ha, Hdc, Hf, Hg. unfold expected.
    f_equal; f_equal; lra. }
  assert (Ht : Tsx.corr ch = expected).
  { unfold Tsx.corr. rewrite Ha, Hdc, Hf, Hg. unfold expected. f_equal; f_equal; lra. }
  assert (Hpass : forall k, pass_js parseFloat user ch k = true).
  { intros k. unfold pass_js. rewrite Hj.
    destruct k; simpl entry; simpl reference; simpl tolerance;
      rewrite ?Pvmax, ?Pvmin, ?Pvpp, ?Pperiod, ?Pfreq;
      apply fieldPass_exact; lra. }
  assert (Hnone : forall k, fails_ts parseFloat (Some user) ch k = false).
  { intros k. specialize (Hpass k). unfold fails_ts, pass_js in *.
    rewrite fieldFails_fieldPass, Ht, <- Hj, Hpass. reflexivity. }
  split; [exact Hj |].
  split; [rewrite <- Hj; apply computeCorrect_placed, Hpl |].
  split; [exact Ht |]. split.
  - destruct (doCheck_js_channel parseFloat shared view ms ch user Hpl Hms Hen Huser)
      as (res & Hres & Hrec & _).
    exists res. split; [exact Hres |]. rewrite Hrec. unfold allFields.
    cbn [forallb map]. rewrite !Hpass. reflexivity.
  - destruct (doCheck_ts_channel parseFloat shared view ch Hpl Hen) as [Hrec _].
    destruct Hms as [Hv _]. rewrite Hv in Hrec. simpl default in Hrec.
    rewrite Huser in Hrec. rewrite Hrec. unfold errorsOf, allFields.
    cbn [List.filter]. rewrite !Hnone. reflexivity.
Qed.

Lemma checker_round_trip_witness :
  exists res,
    Jsx.doCheck parseTable (stateWith roundTripChannel) (viewWith roundTripEntries)
      = Some res /\
    Jsx.r_perChannel res !! 1%Z
    = Some {| Jsx.cc_ok := true;
              Jsx.cc_comp := [(vmax, true); (vmin, true); (vpp, true);
                              (period, true); (freq, true)] |}.
Proof.
  exact (proj1 (proj2 (proj2 (proj2
           (checker_round_trip parseTable (stateWith roundTripChannel)
              (viewWith roundTripEntries) (entriesOf roundTripEntries)
              roundTripChannel roundTripEntries
              (placed_stateWith roundTripChannel eq_refl)
              (measured_viewWith roundTripChannel roundTripEntries eq_refl)
              eq_refl (entriesOf_1 roundTripEntries)
              eq_refl eq_refl eq_refl eq_refl
              eq_refl eq_refl eq_refl eq_refl eq_refl))))).
Defined.

(** ** Frequency zero and noise channels *)

Lemma correctFor_period ch :
  c_period (Jsx.correctFor ch)
  = let freq := if (String.eqb (ch_waveform ch) "sine" || String.eqb (ch_waveform ch) "square")%bool
                then ch_frequency ch
                else if String.eqb (ch_waveform ch) "noise" then 0 else ch_frequency ch in
    if gtb freq 0 then Fin (1 / freq) else Infinity.
Proof.
  unfold Jsx.correctFor.
  destruct (String.eqb (ch_waveform ch) "sine"); [reflexivity |].
  destruct (String.eqb (ch_waveform ch) "square"); reflexivity.
Qed.

Lemma correctFor_zero_frequency ch :
  ch_frequency ch = 0 -> c_period (Jsx.correctFor ch) = Infinity.
Proof.
  intros H. rewrite correctFor_period, H. cbv zeta.
  assert (Hg : gtb 0 0 = false) by (apply gtb_false; lra).
  destruct (_ || _)%bool; [rewrite Hg; reflexivity |].
  destruct (String.eqb _ "noise"); rewrite Hg; reflexivity.
Qed.

Lemma corr_zero_frequency ch : ch_frequency ch = 0 -> c_period (Tsx.corr ch) = Infinity.
Proof.
  intros H. unfold Tsx.corr. simpl. rewrite H, gtb_false by lra. reflexivity.
Qed.

Lemma correctFor_noise ch :
  ch_waveform ch = "noise"%string ->
  c_freq (Jsx.correctFor ch) = Fin 0 /\ c_period (Jsx.correctFor ch) = Infinity.
Proof.
  intros H. unfold Jsx.correctFor. rewrite H. simpl.
  rewrite gtb_false by lra. split; reflexivity.
Qed.

Lemma errorsOf_positive parseFloat user ch k :
  fails_ts parseFloat user ch k = true -> (1 <= errorsOf parseFloat user ch)%nat.
Proof.
  intros H. unfold errorsOf.
  assert (Hin : In k (List.filter (fails_ts parseFloat user ch) allFields)).
  { apply filter_In. split; [destruct k; simpl; tauto | exact H]. }
  destruct (List.filter _ allFields); [destruct Hin | simpl; lia].
Qed.

(** C7: for a noise channel configured at 1000 Hz the type-annotated edition
    takes [freq = 1000] and [period = 1/1000] as reference values, so the
    entry 0 for the frequency is counted as an error; the JavaScript edition
    takes [freq = 0] and the infinite period, and accepts the entry 0. *)
Theorem noise_reference_of_each_edition :
  c_freq (Tsx.corr noiseChannel) = Fin 1000 /\
  c_period (Tsx.corr noiseChannel) = Fin (1 / 1000) /\
  fails_ts parseTable (Some (entriesWith "2" "Infinity" "0")) noiseChannel freq = true /\
  c_freq (Jsx.correctFor noiseChannel) = Fin 0 /\
  c_period (Jsx.correctFor noiseChannel) = Infinity /\
  pass_js parseTable (entriesWith "2" "Infinity" "0") noiseChannel freq = true.
Proof.
  assert (Hg : gtb 1000 0 = true) by (apply gtb_true; lra).
  split; [reflexivity |].
  split; [unfold Tsx.corr; simpl; rewrite Hg; reflexivity |].
  split.
  { change (Tsx.fieldFails (Fin 0) (Fin 1000) 0.02 = true).
    rewrite fieldFails_finite, gtb_true_iff. unfold relativeError.
    rewrite Rabs_minus_sym. replace (1000 - 0) with 1000 by lra.
    rewrite (Rabs_pos_eq 1000) by lra.
    apply Rlt_gt. apply Rnot_le_lt. intros H.
    assert (Hd : 0 < 1000 + 1e-9) by lra.
    apply (proj1 (div_le_iff _ _ _ Hd)) in H. lra. }
  destruct (correctFor_noise noiseChannel eq_refl) as [Hf Hp].
  split; [exact Hf |]. split; [exact Hp |].
  change (Jsx.fieldPass (Fin 0) (c_freq (Jsx.correctFor noiseChannel)) 0.02 = true).
  rewrite Hf. apply fieldPass_exact; lra.
Qed.

(** The JavaScript edition and noise channels: [computeCorrect] gives every
    placed channel whose waveform is "noise" the reference frequency 0 and
    the reference period [Infinity], whatever its frequency field holds. *)
Theorem noise_reference_js (shared : Shared) (ch : Channel) :
  placed shared ch ->
  ch_waveform ch = "noise"%string ->
  exists corr,
    Jsx.computeCorrect shared !! ch_id ch = Some corr /\
    c_freq corr = Fin 0 /\ c_period corr = Infinity.
Proof.
  intros Hpl Hw. exists (Jsx.correctFor ch).
  split; [apply computeCorrect_placed, Hpl | apply correctFor_noise, Hw].
Qed.

Lemma noise_reference_js_witness :
  exists corr,
    Jsx.computeCorrect (stateWith noiseChannel) !! 1%Z = Some corr /\
    c_freq corr = Fin 0 /\ c_period corr = Infinity.
Proof.
  exact (noise_reference_js (stateWith noiseChannel) noiseChannel
           (placed_stateWith noiseChannel eq_refl) eq_refl).
Defined.

(** C8, counterexample: the channel has frequency 0 and the student enters
    the right voltages, frequency 0 and "Infinity" for the period; the period
    still compares as a non-match: the JavaScript edition records
    [period: false] and [ok = false], the type-annotated edition one error. *)
Lemma infinite_period_entry_still_fails :
  parseTable "Infinity" = Infinity /\
  c_period (Jsx.correctFor zeroHzChannel) = Infinity /\
  (exists res,
     Jsx.doCheck parseTable (stateWith zeroHzChannel)
       (viewWith (entriesWith "2" "Infinity" "0")) = Some res /\
     Jsx.r_ok res = false /\
     Jsx.r_perChannel res !! 1%Z
     = Some {| Jsx.cc_ok := false;
               Jsx.cc_comp := [(vmax, true); (vmin, true); (vpp, true);
                               (period, false); (freq, true)] |}) /\
  Tsx.r_perChannel
    (Tsx.doCheck parseTable (stateWith zeroHzChannel)
       (viewWith (entriesWith "2" "Infinity" "0"))) !! 1%Z
  = Some {| Tsx.ce_ok := false; Tsx.ce_errors := 1 |}.
Proof.
  set (user := entriesWith "2" "Infinity" "0").
  pose proof (placed_stateWith zeroHzChannel eq_refl) as Hpl.
  pose proof (measured_viewWith zeroHzChannel user eq_refl) as Hms.
  assert (Hcorr : Jsx.correctFor zeroHzChannel
                  = {| c_vmax := Fin (0 + 2); c_vmin := Fin (0 - 2); c_vpp := Fin (2 * 2);
                       c_period := Infinity; c_freq := Fin 0 |}).
  { rewrite correctFor_sine by reflexivity. simpl.
    rewrite gtb_false by lra. reflexivity. }
  assert (Hcorr' : Tsx.corr zeroHzChannel
                   = {| c_vmax := Fin (2 + 0); c_vmin := Fin (- 2 + 0); c_vpp := Fin (2 * 2);
                        c_period := Infinity; c_freq := Fin 0 |}).
  { unfold Tsx.corr. simpl. rewrite gtb_false by lra. reflexivity. }
  assert (Hp : forall k, pass_js parseTable user zeroHzChannel k
                         = match k with period => false | _ => true end).
  { intros k. unfold pass_js. rewrite Hcorr.
    destruct k; simpl reference; simpl tolerance;
      [ change (parseTable (entry vmax user)) with (Fin 2)
      | change (parseTable (entry vmin user)) with (Fin (-2))
      | change (parseTable (entry vpp user)) with (Fin 4)
      | reflexivity
      | change (parseTable (entry freq user)) with (Fin 0) ];
      apply fieldPass_exact; lra. }
  assert (Hf : forall k, fails_ts parseTable (Some user) zeroHzChannel k
                         = match k with period => true | _ => false end).
  { intros k. unfold fails_ts. rewrite Hcorr'.
    destruct k; simpl reference; simpl tolerance;
      [ change (parseTable (entry vmax user)) with (Fin 2)
      | change (parseTable (entry vmin user)) with (Fin (-2))
      | change (parseTable (entry vpp user)) with (Fin 4)
      | reflexivity
      | change (parseTable (entry freq user)) with (Fin 0) ];
      rewrite fieldFails_fieldPass, fieldPass_exact by lra; reflexivity. }
  split; [reflexivity |]. split; [rewrite Hcorr; reflexivity |]. split.
  - destruct (doCheck_js_channel parseTable _ _ _ zeroHzChannel user Hpl Hms eq_refl
                (entriesOf_1 user)) as (res & Hres & Hrec & Hok).
    unfold allFields in Hrec, Hok. cbn [forallb map] in Hrec, Hok.
    rewrite !Hp in Hrec, Hok. exists res.
    split; [exact Hres |]. split; [apply Hok; reflexivity | exact Hrec].
  - destruct (doCheck_ts_channel parseTable (stateWith zeroHzChannel) (viewWith user)
                zeroHzChannel Hpl eq_refl) as [Hrec _].
    change (default Tsx.defaultMeasures (v_measures (viewWith user)) !! ch_id zeroHzChannel)
      with (Some user) in Hrec.
    unfold errorsOf, allFields in Hrec. cbn [List.filter] in Hrec.
    rewrite !Hf in Hrec. exact Hrec.
Qed.

(** C8, amended: for every enabled channel with frequency 0 the reference
    period is [Infinity] in both editions, and the period field compares as
    a non-match whatever the student enters, an infinite or undefined value
    included: the JavaScript edition records [period: false] and
    [ok = false] for the channel, the type-annotated edition counts an error
    for it, and the overall result is not ok. *)
Theorem zero_frequency_period_never_matches (parseFloat : string -> number)
    (shared : Shared) (view : View) (ms : gmap Z Measures) (ch : Channel)
    (user : Measures) :
  placed shared ch ->
  measured shared view ms ->
  ch_enabled ch = true ->
  ms !! ch_id ch = Some user ->
  ch_frequency ch = 0 ->
  c_period (Jsx.correctFor ch) = Infinity /\
  c_period (Tsx.corr ch) = Infinity /\
  (exists res r,
     Jsx.doCheck parseFloat shared view = Some res /\
     Jsx.r_perChannel res !! ch_id ch = Some r /\
     In (period, false) (Jsx.cc_comp r) /\ ~ In (period, true) (Jsx.cc_comp r) /\
     Jsx.cc_ok r = false /\ Jsx.r_ok res = false) /\
  (exists r,
     Tsx.r_perChannel (Tsx.doCheck parseFloat shared view) !! ch_id ch = Some r /\
     Tsx.ce_ok r = false /\ (1 <= Tsx.ce_errors r)%nat) /\
  Tsx.r_ok (Tsx.doCheck parseFloat shared view) = false.
Proof.
  intros Hpl Hms Hen Huser Hzero.
  pose proof (correctFor_zero_frequency ch Hzero) as Hj.
  pose proof (corr_zero_frequency ch Hzero) as Ht.
  assert (Hp : pass_js parseFloat user ch period = false).
  { unfold pass_js. cbn [reference]. rewrite Hj.
    apply fieldPass_not_finite. right. reflexivity. }
  assert (Hf : fails_ts parseFloat (Some user) ch period = true).
  { unfold fails_ts. cbn [reference]. rewrite Ht.
    apply fieldFails_not_finite. right. reflexivity. }
  split; [exact Hj |]. split; [exact Ht |]. split; [| split].
  - destruct (doCheck_js_channel parseFloat shared view ms ch user Hpl Hms Hen Huser)
      as (res & Hres & Hrec & Hok).
    assert (Hall : forallb (pass_js parseFloat user ch) allFields = false).
    { unfold allFields. cbn [forallb]. rewrite Hp.
      destruct (pass_js _ _ _ vmax), (pass_js _ _ _ vmin), (pass_js _ _ _ vpp); reflexivity. }
    eexists res, _. split; [exact Hres |]. split; [exact Hrec |].
    cbn [Jsx.cc_comp Jsx.cc_ok]. split; [| split; [| split]].
    + unfold allFields. cbn [map]. rewrite Hp. simpl. tauto.
    + unfold allFields. cbn [map]. rewrite Hp. simpl.
      intros [H | [H | [H | [H | [H | []]]]]]; discriminate H.
    + exact Hall.
    + apply Hok, Hall.
  - destruct (doCheck_ts_channel parseFloat shared view ch Hpl Hen) as [Hrec _].
    destruct Hms as [Hv _]. rewrite Hv in Hrec. simpl default in Hrec.
    rewrite Huser in Hrec.
    pose proof (errorsOf_positive parseFloat (Some user) ch period Hf) as Hn.
    destruct (errorsOf parseFloat (Some user) ch) as [| n]; [lia |].
    eexists. split; [exact Hrec |]. split; [reflexivity | simpl; lia].
  - destruct (doCheck_ts_channel parseFloat shared view ch Hpl Hen) as [_ Hok].
    apply Hok. destruct Hms as [Hv _]. rewrite Hv. simpl default. rewrite Huser.
    pose proof (errorsOf_positive parseFloat (Some user) ch period Hf). lia.
Qed.

Lemma zero_frequency_period_never_matches_witness :
  ch_frequency zeroHzChannel = 0 /\
  Tsx.r_ok (Tsx.doCheck parseTable (stateWith zeroHzChannel)
              (viewWith (entriesWith "2" "Infinity" "0"))) = false.
Proof.
  split; [reflexivity |].
  exact (proj2 (proj2 (proj2 (proj2
           (zero_frequency_period_never_matches parseTable (stateWith zeroHzChannel)
              (viewWith (entriesWith "2" "Infinity" "0"))
              (entriesOf (entriesWith "2" "Infinity" "0"))
              zeroHzChannel (entriesWith "2" "Infinity" "0")
              (placed_stateWith zeroHzChannel eq_refl)
              (measured_viewWith zeroHzChannel (entriesWith "2" "Infinity" "0") eq_refl)
              eq_refl (entriesOf_1 _) eq_refl))))).
Defined.

(** * Further properties of the waveform sampler *)

(** ** The branches of the [switch] *)

Lemma sine_js_shape t p :
  Jsx.waveformSample "sine" t p = finish_js p (p_amplitude p * sin (angle p t)).
Proof. reflexivity. Qed.

Lemma sine_ts_shape t p :
  Tsx.waveformSample "sine" t p = finish_ts p (p_amplitude p * sin (angle p t)).
Proof. reflexivity. Qed.

Lemma triangle_js_shape t p :
  Jsx.waveformSample "triangle" t p
  = finish_js p (p_amplitude p * (4 * Rabs (wrap (cycle p t) - 0.5) - 1)).
Proof. reflexivity. Qed.

Lemma triangle_ts_shape t p :
  Tsx.waveformSample "triangle" t p
  = finish_ts p (p_amplitude p * (4 * Rabs (wrap (cycle p t) - 0.5) - 1)).
Proof. reflexivity. Qed.

Lemma saw_js_shape t p :
  Jsx.waveformSample "saw" t p = finish_js p (p_amplitude p * (2 * wrap (cycle p t) - 1)).
Proof. reflexivity. Qed.

Lemma saw_ts_shape t p :
  Tsx.waveformSample "saw" t p = finish_ts p (p_amplitude p * (2 * wrap (cycle p t) - 1)).
Proof. reflexivity. Qed.

Lemma rectified_js_shape t p :
  Jsx.waveformSample "rectified" t p = finish_js p (p_amplitude p * Rmax 0 (sin (angle p t))).
Proof. reflexivity. Qed.

Lemma rectified_ts_shape t p :
  Tsx.waveformSample "rectified" t p = finish_ts p (p_amplitude p * Rmax 0 (sin (angle p t))).
Proof. reflexivity. Qed.

Lemma am_js_shape t p :
  Jsx.waveformSample "am" t p
  = finish_js p (p_amplitude p * (envelope p t * sin (angle p t))).
Proof.
  change (Jsx.waveformSample "am" t p)
    with (finish_js p (p_amplitude p * envelope p t * sin (angle p t))).
  rewrite Rmult_assoc. reflexivity.
Qed.

Lemma am_ts_shape t p :
  Tsx.waveformSample "am" t p
  = finish_ts p (p_amplitude p * (envelope p t * sin (angle p t))).
Proof.
  change (Tsx.waveformSample "am" t p)
    with (finish_ts p (p_amplitude p * envelope p t * sin (angle p t))).
  rewrite Rmult_assoc. reflexivity.
Qed.

Lemma fm_js_shape t p :
  Jsx.waveformSample "fm" t p = finish_js p (p_amplitude p * sin (instPhase p t)).
Proof. reflexivity. Qed.

Lemma fm_ts_shape t p :
  Tsx.waveformSample "fm" t p = finish_ts p (p_amplitude p * sin (instPhase p t)).
Proof. reflexivity. Qed.

Lemma noise_js_shape t p u rest :
  Jsx.waveformSample "noise" t p (u :: rest) = finish_js p (p_amplitude p * (u * 2 - 1)) rest.
Proof. reflexivity. Qed.

Lemma noise_ts_shape t p u rest :
  Tsx.waveformSample "noise" t p (u :: rest) = finish_ts p (p_amplitude p * (u * 2 - 1)) rest.
Proof. reflexivity. Qed.

Lemma sum2_js_shape t p :
  Jsx.waveformSample "sum2" t p
  = finish_js p (0.6 * p_amplitude p * sin (angle p t)
                 + 0.6 * p_amplitude p
                   * sin (2 * (2 * PI * p_frequency p) * t + p_phase p / 3)).
Proof. reflexivity. Qed.

Lemma sum2_ts_shape t p :
  Tsx.waveformSample "sum2" t p
  = finish_ts p (p_amplitude p
                 * ((sin (angle p t)
                     + 0.5 * sin (2 * (2 * PI * p_frequency p) * t + 2 * p_phase p))
                    / Tsx.NORM)).
Proof. reflexivity. Qed.

Lemma kind_cases (type : string) : In type kinds \/ ~ In type kinds.
Proof. destruct (in_dec string_dec type kinds); [left | right]; assumption. Qed.


(** ** The double remainder is the fractional part *)

Lemma rem_1 x : rem x 1 = x - IZR (trunc x).
Proof. unfold rem. rewrite Rdiv_1_r. lra. Qed.

Lemma wrap_frac_part x : wrap x = frac_part x.
Proof.
  unfold wrap, frac_part. rewrite !rem_1.
  destruct (base_Int_part x) as [Hlo Hhi].
  destruct (Rle_dec 0 x) as [Hx | Hx].
  - assert (H0 : trunc x = Int_part x).
    { unfold trunc. destruct (Rle_dec 0 x); [reflexivity | contradiction]. }
    rewrite H0.
    assert (H1 : trunc (x - IZR (Int_part x) + 1) = 1%Z).
    { unfold trunc. destruct (Rle_dec 0 (x - IZR (Int_part x) + 1)) as [_ | H]; [| lra].
      symmetry. apply Int_part_spec. lra. }
    rewrite H1. lra.
  - assert (H0 : trunc x = (- Int_part (- x))%Z).
    { unfold trunc. destruct (Rle_dec 0 x); [contradiction | reflexivity]. }
    rewrite H0, opp_IZR.
    destruct (base_Int_part (- x)) as [Mlo Mhi].
    destruct (Req_dec (x + IZR (Int_part (- x))) 0) as [Hz | Hz].
    + assert (H1 : trunc (x - - IZR (Int_part (- x)) + 1) = 1%Z).
      { unfold trunc. destruct (Rle_dec 0 _) as [_ | H]; [| lra].
        symmetry. apply Int_part_spec. lra. }
      rewrite H1.
      assert (H2 : Int_part x = (- Int_part (- x))%Z).
      { symmetry. apply Int_part_spec. rewrite opp_IZR. lra. }
      rewrite H2, opp_IZR. lra.
    + assert (H1 : trunc (x - - IZR (Int_part (- x)) + 1) = 0%Z).
      { unfold trunc. destruct (Rle_dec 0 _) as [_ | H]; [| lra].
        symmetry. apply Int_part_spec. lra. }
      rewrite H1.
      assert (H2 : Int_part x = (- Int_part (- x) - 1)%Z).
      { symmetry. apply Int_part_spec. rewrite minus_IZR, opp_IZR. lra. }
      rewrite H2, minus_IZR, opp_IZR. lra.
Qed.

Lemma wrap_range x : 0 <= wrap x < 1.
Proof. rewrite wrap_frac_part. destruct (base_fp x). lra. Qed.

Lemma frac_part_shift x : frac_part (x + 1) = frac_part x.
Proof.
  unfold frac_part. destruct (base_Int_part x) as [Hlo Hhi].
  assert (H : Int_part (x + 1) = (Int_part x + 1)%Z).
  { symmetry. apply Int_part_spec. rewrite plus_IZR. lra. }
  rewrite H, plus_IZR. lra.
Qed.

Lemma frac_part_shift_nat x (k : nat) : frac_part (x + INR k) = frac_part x.
Proof.
  induction k as [| k IH]; [simpl; f_equal; lra |].
  rewrite S_INR. replace (x + (INR k + 1)) with (x + INR k + 1) by lra.
  rewrite frac_part_shift. exact IH.
Qed.

(** ** Range of the samples *)

Lemma scaled_bound (A s : R) : -1 <= s <= 1 -> Rabs (A * s) <= Rabs A.
Proof.
  intros Hs. rewrite Rabs_mult.
  assert (H1 : Rabs s <= 1) by (apply Rabs_le; lra).
  pose proof (Rabs_pos A). pose proof (Rabs_pos s). nra.
Qed.

Lemma sin_shift x : sin (x + 2 * PI) = sin x.
Proof.
  replace (x + 2 * PI) with (x + 2 * INR 1 * PI) by (simpl; lra). apply sin_period.
Qed.

Lemma angle_shift p t :
  p_frequency p <> 0 -> angle p (t + 1 / p_frequency p) = angle p t + 2 * PI.
Proof. intros Hf. unfold angle. field. exact Hf. Qed.

Lemma cycle_shift p t :
  p_frequency p <> 0 -> cycle p (t + 1 / p_frequency p) = cycle p t + 1.
Proof.
  intros Hf. unfold cycle. pose proof PI_RGT_0. field. split; [lra | exact Hf].
Qed.

Lemma wrap_shift p t :
  p_frequency p <> 0 -> wrap (cycle p (t + 1 / p_frequency p)) = wrap (cycle p t).
Proof.
  intros Hf. rewrite !wrap_frac_part, cycle_shift by exact Hf. apply frac_part_shift.
Qed.

(** The envelope of the AM branch stays within [0, 1]. *)
Lemma envelope_range p t : 0 <= envelope p t <= 1.
Proof.
  unfold envelope. pose proof (SIN_bound (2 * PI * (p_frequency p / 10) * t)). lra.
Qed.

(** Every kind but ["noise"] and ["sum2"]: the sample is the amplitude times
    a unit wave, the same in both editions, which repeats after [1/f] unless
    the kind is ["am"] or ["fm"]. *)
Lemma unit_shape (type : string) (p : WaveParams) :
  type <> "noise"%string -> type <> "sum2"%string ->
  exists s : R -> R,
    (forall t, -1 <= s t <= 1) /\
    (forall t, Jsx.waveformSample type t p = finish_js p (p_amplitude p * s t)) /\
    (forall t, Tsx.waveformSample type t p = finish_ts p (p_amplitude p * s t)) /\
    (type <> "am"%string -> type <> "fm"%string -> p_frequency p <> 0 ->
     forall t, s (t + 1 / p_frequency p) = s t).
Proof.
  intros Hn Hs.
  assert (Hsine : exists s : R -> R,
             (forall t, -1 <= s t <= 1) /\
             (forall t, Jsx.waveformSample "sine" t p = finish_js p (p_amplitude p * s t)) /\
             (forall t, Tsx.waveformSample "sine" t p = finish_ts p (p_amplitude p * s t)) /\
             (p_frequency p <> 0 -> forall t, s (t + 1 / p_frequency p) = s t)).
  { exists (fun t => sin (angle p t)).
    split; [intros t; apply SIN_bound |].
    split; [intros t; apply sine_js_shape |].
    split; [intros t; apply sine_ts_shape |].
    intros Hf t. rewrite angle_shift by exact Hf. apply sin_shift. }
  destruct (kind_cases type) as [Hin | Hout].
  - simpl in Hin.
    destruct Hin as [<- | [<- | [<- | [<- | [<- | [<- | [<- | [<- | [<- | []]]]]]]]]].
    + destruct Hsine as (s & H1 & H2 & H3 & H4). exists s. tauto.
    + exists (fun t => sign (sin (angle p t))).
      split; [intros t; destruct (sign_cases (sin (angle p t))) as [[_ ->] | [_ ->]]; lra |].
      split; [intros t; apply square_js_shape |].
      split; [intros t; apply square_ts_shape |].
      intros _ _ Hf t. rewrite angle_shift by exact Hf. rewrite sin_shift. reflexivity.
    + exists (fun t => 4 * Rabs (wrap (cycle p t) - 0.5) - 1).
      split.
      { intros t. pose proof (wrap_range (cycle p t)) as Hw.
        unfold Rabs. destruct (Rcase_abs _); lra. }
      split; [intros t; apply triangle_js_shape |].
      split; [intros t; apply triangle_ts_shape |].
      intros _ _ Hf t. rewrite wrap_shift by exact Hf. reflexivity.
    + exists (fun t => 2 * wrap (cycle p t) - 1).
      split; [intros t; pose proof (wrap_range (cycle p t)); lra |].
      split; [intros t; apply saw_js_shape |].
      split; [intros t; apply saw_ts_shape |].
      intros _ _ Hf t. rewrite wrap_shift by exact Hf. reflexivity.
    + exists (fun t => Rmax 0 (sin (angle p t))).
      split.
      { intros t. pose proof (SIN_bound (angle p t)).
        unfold Rmax. destruct (Rle_dec 0 _); lra. }
      split; [intros t; apply rectified_js_shape |].
      split; [intros t; apply rectified_ts_shape |].
      intros _ _ Hf t. rewrite angle_shift by exact Hf. rewrite sin_shift. reflexivity.
    + exists (fun t => envelope p t * sin (angle p t)).
      split.
      { intros t. pose proof (envelope_range p t). pose proof (SIN_bound (angle p t)).
        split; nra. }
      split; [intros t; apply am_js_shape |].
      split; [intros t; apply am_ts_shape |].
      intros H. contradiction H. reflexivity.
    + exists (fun t => sin (instPhase p t)).
      split; [intros t; apply SIN_bound |].
      split; [intros t; apply fm_js_shape |].
      split; [intros t; apply fm_ts_shape |].
      intros _ H. contradiction H. reflexivity.
    + contradiction Hn. reflexivity.
    + contradiction Hs. reflexivity.
  - destruct Hsine as (s & H1 & H2 & H3 & H4). exists s.
    split; [exact H1 |].
    split; [intros t; rewrite (default_js_shape type t p Hout), <- sine_js_shape; apply H2 |].
    split; [intros t; rewrite (default_ts_shape type t p Hout), <- sine_ts_shape; apply H3 |].
    intros _ _. exact H4.
Qed.



Lemma NORM_bound : 3 * sqrt 3 / 4 <= Tsx.NORM.
Proof.
  unfold Tsx.NORM.
  assert (H3 : sqrt 3 * sqrt 3 = 3) by (apply sqrt_sqrt; lra).
  assert (Hp : 0 <= sqrt 3) by apply sqrt_pos.
  destruct (Rle_dec (3 * sqrt 3 / 4) 1.299038105676658) as [H | H]; [exact H | exfalso].
  apply Rnot_le_lt in H.
  assert (Hc : 1.299038105676658 * 4 / 3 < sqrt 3) by lra.
  assert (Hsq : (1.299038105676658 * 4 / 3) * (1.299038105676658 * 4 / 3) < sqrt 3 * sqrt 3).
  { apply Rmult_le_0_lt_compat; lra. }
  lra.
Qed.

Lemma harmonic_sum_lower x : - (3 * sqrt 3 / 4) <= sin x + 0.5 * sin (2 * x).
Proof.
  pose proof (harmonic_sum_bound (- x)) as H.
  replace (2 * - x) with (- (2 * x)) in H by lra.
  rewrite !sin_neg in H. lra.
Qed.

Lemma sum2_ts_unit p t :
  -1 <= (sin (angle p t) + 0.5 * sin (2 * (2 * PI * p_frequency p) * t + 2 * p_phase p))
        / Tsx.NORM <= 1.
Proof.
  replace (2 * (2 * PI * p_frequency p) * t + 2 * p_phase p) with (2 * angle p t)
    by (unfold angle; ring).
  pose proof (harmonic_sum_bound (angle p t)) as Hhi.
  pose proof (harmonic_sum_lower (angle p t)) as Hlo.
  pose proof NORM_bound as Hn. pose proof sqrt3_bounds as [Hs _].
  assert (Hpos : 0 < Tsx.NORM) by lra.
  set (r := sin (angle p t) + 0.5 * sin (2 * angle p t)) in *. clearbody r.
  split.
  - apply Rmult_le_reg_r with Tsx.NORM; [exact Hpos |].
    unfold Rdiv. rewrite Rmult_assoc, Rinv_l by lra. lra.
  - apply Rmult_le_reg_r with Tsx.NORM; [exact Hpos |].
    unfold Rdiv. rewrite Rmult_assoc, Rinv_l by lra. lra.
Qed.

(** Without noise every sample lies within the amplitude of the offset: for
    every kind but ["noise"] the type-annotated edition returns, on every
    tape, a value [y] with [|y − dc| <= |A|], and so does the JavaScript
    edition unless the kind is ["sum2"]; for the kind ["noise"] and a draw
    [u] of [Math.random] both return [A·(2u − 1) + dc], within the same
    range.  The reference values [dc ± A] of the checker therefore bound the
    drawn signal. *)
Theorem sample_within_amplitude (type : string) (t : R) (p : WaveParams) :
  quiet p ->
  (type <> "noise"%string ->
   exists y,
     (forall tape, Tsx.waveformSample type t p tape = Some (y, tape)) /\
     (type <> "sum2"%string ->
      forall tape, Jsx.waveformSample type t p tape = Some (y, tape)) /\
     Rabs (y - p_dc p) <= Rabs (p_amplitude p)) /\
  (forall u rest,
     0 <= u <= 1 ->
     let y := p_amplitude p * (u * 2 - 1) + p_dc p in
     Jsx.waveformSample "noise" t p (u :: rest) = Some (y, rest) /\
     Tsx.waveformSample "noise" t p (u :: rest) = Some (y, rest) /\
     Rabs (y - p_dc p) <= Rabs (p_amplitude p)).
Proof.
  intros Hq. pose proof (quiet_noiseStd p Hq) as H0.
  assert (Hz : noiseStdOf p <= 0) by lra.
  split.
  - intros Hn. destruct (String.eqb_spec type "sum2") as [-> | Hs].
    + eexists. split; [intros tape; rewrite sum2_ts_shape; apply finish_ts_quiet, Hz |].
      split; [intros H; contradiction H; reflexivity |].
      match goal with |- Rabs (?a + ?d - ?d) <= _ => replace (a + d - d) with a by lra end.
      apply scaled_bound, sum2_ts_unit.
    + destruct (unit_shape type p Hn Hs) as (s & Hb & Hj & Ht & _).
      exists (p_amplitude p * s t + p_dc p).
      split; [intros tape; rewrite Ht; apply finish_ts_quiet, Hz |].
      split; [intros _ tape; rewrite Hj; apply finish_js_quiet, Hz |].
      replace (p_amplitude p * s t + p_dc p - p_dc p) with (p_amplitude p * s t) by lra.
      apply scaled_bound, Hb.
  - intros u rest Hu y.
    rewrite noise_js_shape, noise_ts_shape.
    rewrite finish_js_quiet, finish_ts_quiet by exact Hz.
    split; [reflexivity |]. split; [reflexivity |].
    unfold y. replace (p_amplitude p * (u * 2 - 1) + p_dc p - p_dc p)
      with (p_amplitude p * (u * 2 - 1)) by lra.
    apply scaled_bound. lra.
Qed.

Lemma sample_within_amplitude_witness :
  quiet noiseProbe /\ 0 <= 0.75 <= 1 /\
  Jsx.waveformSample "noise" 0 noiseProbe [0.75] = Some (1 * (0.75 * 2 - 1) + 0, []) /\
  Rabs (1 * (0.75 * 2 - 1) + 0 - 0) <= Rabs 1.
Proof.
  assert (Hu : 0 <= 0.75 <= 1) by lra.
  split; [exact noiseProbe_quiet |]. split; [exact Hu |].
  destruct (proj2 (sample_within_amplitude "noise" 0 noiseProbe noiseProbe_quiet)
              0.75 [] Hu) as (Hj & _ & Hb).
  split; [exact Hj | exact Hb].
Defined.

(** ** Periods *)

Lemma reference_period_ts ch :
  0 < ch_frequency ch -> c_period (Tsx.corr ch) = Fin (1 / ch_frequency ch).
Proof. intros Hf. unfold Tsx.corr. simpl. rewrite gtb_true by exact Hf. reflexivity. Qed.

Lemma reference_period_js ch :
  0 < ch_frequency ch -> ch_waveform ch <> "noise"%string ->
  c_period (Jsx.correctFor ch) = Fin (1 / ch_frequency ch).
Proof.
  intros Hf Hn. apply String.eqb_neq in Hn.
  rewrite correctFor_period, Hn. cbv zeta.
  destruct (_ || _)%bool; rewrite gtb_true by exact Hf; reflexivity.
Qed.

Lemma sum2_js_periodic p t :
  p_frequency p <> 0 ->
  Jsx.waveformSample "sum2" (t + 1 / p_frequency p) p = Jsx.waveformSample "sum2" t p.
Proof.
  intros Hf. rewrite !sum2_js_shape, angle_shift by exact Hf. rewrite sin_shift.
  replace (2 * (2 * PI * p_frequency p) * (t + 1 / p_frequency p) + p_phase p / 3)
    with (2 * (2 * PI * p_frequency p) * t + p_phase p / 3 + 2 * INR 2 * PI)
    by (simpl; field; exact Hf).
  rewrite sin_period. reflexivity.
Qed.

Lemma sum2_ts_periodic p t :
  p_frequency p <> 0 ->
  Tsx.waveformSample "sum2" (t + 1 / p_frequency p) p = Tsx.waveformSample "sum2" t p.
Proof.
  intros Hf. rewrite !sum2_ts_shape, angle_shift by exact Hf. rewrite sin_shift.
  replace (2 * (2 * PI * p_frequency p) * (t + 1 / p_frequency p) + 2 * p_phase p)
    with (2 * (2 * PI * p_frequency p) * t + 2 * p_phase p + 2 * INR 2 * PI)
    by (simpl; field; exact Hf).
  rewrite sin_period. reflexivity.
Qed.

(** The reference period is a period of the continuous waveforms: for a
    channel of positive frequency [f] whose waveform is none of ["am"],
    ["fm"], ["square"] and ["saw"] the reference period is [1/f] (in the
    JavaScript edition unless the waveform is ["noise"], whose reference
    period is infinite), and in exact arithmetic the sampler, as a function
    of the random tape, is the same at [t + 1/f] as at [t], with or without
    noise, in both editions.  The modulated waveforms repeat later, and the
    square and sawtooth waves jump: at a jump the side is decided by the
    rounding of the computed phase, so they are left out. *)
Theorem reference_period_repeats_the_trace (shared : Shared) (ch : Channel) :
  ch_waveform ch <> "am"%string -> ch_waveform ch <> "fm"%string ->
  ch_waveform ch <> "square"%string -> ch_waveform ch <> "saw"%string ->
  0 < ch_frequency ch ->
  let T := 1 / ch_frequency ch in
  let p := paramsOf shared ch in
  c_period (Tsx.corr ch) = Fin T /\
  (ch_waveform ch <> "noise"%string -> c_period (Jsx.correctFor ch) = Fin T) /\
  forall t,
    Jsx.waveformSample (ch_waveform ch) (t + T) p = Jsx.waveformSample (ch_waveform ch) t p /\
    Tsx.waveformSample (ch_waveform ch) (t + T) p = Tsx.waveformSample (ch_waveform ch) t p.
Proof.
  intros Ham Hfm _ _ Hf T p.
  assert (Hf' : p_frequency p <> 0) by (simpl; lra).
  split; [apply reference_period_ts, Hf |].
  split; [intros Hn; apply reference_period_js; assumption |].
  intros t. change T with (1 / p_frequency p).
  destruct (String.eqb_spec (ch_waveform ch) "noise") as [-> | Hn]; [split; reflexivity |].
  destruct (String.eqb_spec (ch_waveform ch) "sum2") as [-> | Hs].
  - split; [apply sum2_js_periodic | apply sum2_ts_periodic]; exact Hf'.
  - destruct (unit_shape (ch_waveform ch) p Hn Hs) as (s & _ & Hj & Ht & Hp).
    rewrite !Hj, !Ht, (Hp Ham Hfm Hf'). split; reflexivity.
Qed.

Lemma reference_period_repeats_the_trace_witness :
  0 < ch_frequency (waveChannel "triangle") /\
  c_period (Jsx.correctFor (waveChannel "triangle")) = Fin (1 / 1000) /\
  Jsx.waveformSample "triangle" (0 + 1 / 1000) (paramsOf Jsx.defaultSharedState (waveChannel "triangle"))
  = Jsx.waveformSample "triangle" 0 (paramsOf Jsx.defaultSharedState (waveChannel "triangle")).
Proof.
  assert (Hf : 0 < ch_frequency (waveChannel "triangle")) by (simpl; lra).
  assert (H1 : ch_waveform (waveChannel "triangle") <> "am"%string) by discriminate.
  assert (H2 : ch_waveform (waveChannel "triangle") <> "fm"%string) by discriminate.
  assert (H3 : ch_waveform (waveChannel "triangle") <> "noise"%string) by discriminate.
  assert (H4 : ch_waveform (waveChannel "triangle") <> "square"%string) by discriminate.
  assert (H5 : ch_waveform (waveChannel "triangle") <> "saw"%string) by discriminate.
  destruct (reference_period_repeats_the_trace Jsx.defaultSharedState
              (waveChannel "triangle") H1 H2 H4 H5 Hf) as (_ & Hj & Hp).
  split; [exact Hf |]. split; [exact (Hj H3) | exact (proj1 (Hp 0))].
Defined.

Lemma envelope_shift p t :
  p_frequency p <> 0 -> envelope p (t + 10 * (1 / p_frequency p)) = envelope p t.
Proof.
  intros Hf. unfold envelope.
  replace (2 * PI * (p_frequency p / 10) * (t + 10 * (1 / p_frequency p)))
    with (2 * PI * (p_frequency p / 10) * t + 2 * PI) by (field; exact Hf).
  rewrite sin_shift. reflexivity.
Qed.

Lemma angle_shift_nat p t (k : nat) :
  p_frequency p <> 0 ->
  angle p (t + INR k * (1 / p_frequency p)) = angle p t + 2 * INR k * PI.
Proof. intros Hf. unfold angle. field. exact Hf. Qed.

Lemma instPhase_shift p t :
  p_frequency p <> 0 ->
  instPhase p (t + 8 * (1 / p_frequency p)) = instPhase p t + 2 * INR 8 * PI.
Proof.
  intros Hf. unfold instPhase.
  replace (2 * PI * (p_frequency p / 8) * (t + 8 * (1 / p_frequency p)))
    with (2 * PI * (p_frequency p / 8) * t + 2 * INR 1 * PI) by (simpl; field; exact Hf).
  rewrite cos_period. simpl. pose proof PI_RGT_0. field. lra.
Qed.

(** The envelope of the AM branch one carrier period after the first crest. *)
Lemma envelope_grows p :
  0 < p_frequency p ->
  envelope p (1 / (4 * p_frequency p))
  < envelope p (1 / (4 * p_frequency p) + 1 / p_frequency p).
Proof.
  intros Hf. unfold envelope. pose proof PI_RGT_0 as Hpi.
  replace (2 * PI * (p_frequency p / 10) * (1 / (4 * p_frequency p))) with (PI / 20)
    by (field; lra).
  replace (2 * PI * (p_frequency p / 10) * (1 / (4 * p_frequency p) + 1 / p_frequency p))
    with (PI / 4) by (field; lra).
  assert (sin (PI / 20) < sin (PI / 4)) by (apply sin_increasing_1; lra).
  lra.
Qed.

(** The modulated waveforms repeat later than the reference period says: the
    reference period of an ["am"] or ["fm"] channel of positive frequency [f]
    is [1/f] in both editions, but the AM sampler repeats after [10/f] and
    the FM sampler after [8/f]; the AM signal does not repeat after [1/f]:
    without noise, for phase 0 and a positive amplitude, its sample at the
    first crest of the carrier is smaller than the sample one reference
    period later. *)
Theorem modulated_waves_repeat_later (p : WaveParams) :
  0 < p_frequency p ->
  let T := 1 / p_frequency p in
  (forall ch,
     ch_frequency ch = p_frequency p ->
     ch_waveform ch = "am"%string \/ ch_waveform ch = "fm"%string ->
     c_period (Jsx.correctFor ch) = Fin T /\ c_period (Tsx.corr ch) = Fin T) /\
  (forall t,
     Jsx.waveformSample "am" (t + 10 * T) p = Jsx.waveformSample "am" t p /\
     Tsx.waveformSample "am" (t + 10 * T) p = Tsx.waveformSample "am" t p /\
     Jsx.waveformSample "fm" (t + 8 * T) p = Jsx.waveformSample "fm" t p /\
     Tsx.waveformSample "fm" (t + 8 * T) p = Tsx.waveformSample "fm" t p) /\
  (quiet p -> p_phase p = 0 -> 0 < p_amplitude p ->
   exists y1 y2,
     (forall tape,
        Jsx.waveformSample "am" (1 / (4 * p_frequency p)) p tape = Some (y1, tape) /\
        Tsx.waveformSample "am" (1 / (4 * p_frequency p)) p tape = Some (y1, tape) /\
        Jsx.waveformSample "am" (1 / (4 * p_frequency p) + T) p tape = Some (y2, tape) /\
        Tsx.waveformSample "am" (1 / (4 * p_frequency p) + T) p tape = Some (y2, tape)) /\
     y1 < y2).
Proof.
  intros Hf T. assert (Hf' : p_frequency p <> 0) by lra.
  split; [| split].
  - intros ch Hch Hw. unfold T. rewrite <- Hch. rewrite <- Hch in Hf. split.
    + apply reference_period_js; [exact Hf |].
      destruct Hw as [-> | ->]; discriminate.
    + apply reference_period_ts, Hf.
  - intros t. unfold T.
    assert (Ha : sin (angle p (t + 10 * (1 / p_frequency p))) = sin (angle p t)).
    { replace 10 with (INR 10) by (simpl; lra).
      rewrite angle_shift_nat by exact Hf'. apply sin_period. }
    rewrite !am_js_shape, !am_ts_shape, !fm_js_shape, !fm_ts_shape.
    rewrite envelope_shift, Ha, instPhase_shift by exact Hf'.
    rewrite sin_period. repeat split; reflexivity.
  - intros Hq Hph HA. pose proof (quiet_noiseStd p Hq) as H0.
    assert (Hz : noiseStdOf p <= 0) by lra.
    assert (H1 : sin (angle p (1 / (4 * p_frequency p))) = 1).
    { unfold angle. rewrite Hph.
      replace (2 * PI * p_frequency p * (1 / (4 * p_frequency p)) + 0) with (PI / 2)
        by (field; lra).
      apply sin_PI2. }
    assert (H2 : sin (angle p (1 / (4 * p_frequency p) + T)) = 1).
    { unfold T. rewrite angle_shift, sin_shift by exact Hf'. exact H1. }
    exists (p_amplitude p * (envelope p (1 / (4 * p_frequency p)) * 1) + p_dc p),
           (p_amplitude p * (envelope p (1 / (4 * p_frequency p) + T) * 1) + p_dc p).
    split.
    + intros tape. rewrite !am_js_shape, !am_ts_shape, H1, H2.
      rewrite !finish_js_quiet, !finish_ts_quiet by exact Hz.
      repeat split; reflexivity.
    + pose proof (envelope_grows p Hf) as Hg. fold T in Hg. nra.
Qed.

Lemma modulated_waves_repeat_later_witness :
  0 < p_frequency (unitSum2 1000) /\
  Jsx.waveformSample "am" (0 + 10 * (1 / 1000)) (unitSum2 1000)
  = Jsx.waveformSample "am" 0 (unitSum2 1000).
Proof.
  assert (Hf : 0 < p_frequency (unitSum2 1000)) by (simpl; lra).
  split; [exact Hf |].
  exact (proj1 (proj1 (proj2 (modulated_waves_repeat_later (unitSum2 1000) Hf)) 0)).
Defined.

(** ** Triangle, sawtooth and rectified waves *)

Lemma rnd_0 M : rnd M 0 = 0.
Proof. apply (rnd_int M 0). vm_compute. discriminate. Qed.

Lemma rnd_1 M : rnd M 1 = 1.
Proof. apply (rnd_int M 1). vm_compute. discriminate. Qed.

Lemma rnd_2 M : rnd M 2 = 2.
Proof. apply (rnd_int M 2). vm_compute. discriminate. Qed.

Lemma rnd_between M a b x : rnd M a = a -> rnd M b = b -> a <= x <= b -> a <= rnd M x <= b.
Proof.
  intros Ha Hb [H1 H2]. split.
  - rewrite <- Ha. apply rnd_le. exact H1.
  - rewrite <- Hb. apply rnd_le. exact H2.
Qed.

Lemma rnd_m1 M : rnd M (-1) = -1.
Proof. apply (rnd_int M (-1)). vm_compute. discriminate. Qed.

Lemma rnd_mhalf M : rnd M (Ropp 0.5) = Ropp 0.5.
Proof. rewrite rnd_opp, rnd_half. reflexivity. Qed.

Lemma rnd_Rabs M x : rnd M x = x -> rnd M (Rabs x) = Rabs x /\ rnd M (- Rabs x) = - Rabs x.
Proof.
  intros H. unfold Rabs. destruct (Rcase_abs x).
  - rewrite Ropp_involutive, rnd_opp, H. split; reflexivity.
  - rewrite rnd_opp, H. split; reflexivity.
Qed.

(** A remainder by 1 of a number that is not negative is its fractional
    part. *)
Lemma rem_1_nonneg x : 0 <= x -> rem x 1 = frac_part x.
Proof.
  intros Hx. rewrite rem_1. unfold trunc, frac_part.
  destruct (Rle_dec 0 x); [reflexivity | contradiction].
Qed.

Lemma rem_1_range x : -1 < rem x 1 < 1.
Proof.
  rewrite rem_1. unfold trunc. destruct (Rle_dec 0 x).
  - destruct (base_Int_part x). lra.
  - destruct (base_Int_part (- x)). rewrite opp_IZR. lra.
Qed.

Lemma rem_1_IZR (n : Z) : rem (IZR n) 1 = 0.
Proof.
  rewrite rem_1. assert (H : trunc (IZR n) = n).
  { unfold trunc. destruct (Rle_dec 0 (IZR n)).
    - symmetry. apply Int_part_spec. lra.
    - rewrite <- opp_IZR. rewrite <- (Int_part_spec (IZR (- n)) (- n)) by lra. lia. }
  rewrite H. lra.
Qed.

Lemma wrapOn_range M x : 0 <= wrapOn M x < 1.
Proof.
  unfold wrapOn, fadd. pose proof (rem_1_range x) as Hr.
  assert (Hs : 0 <= rnd M (rem x 1 + 1)).
  { rewrite <- (rnd_0 M). apply rnd_le. lra. }
  rewrite rem_1_nonneg by exact Hs. destruct (base_fp (rnd M (rem x 1 + 1))). lra.
Qed.

Lemma wrapOn_IZR M (n : Z) : wrapOn M (IZR n) = 0.
Proof.
  unfold wrapOn, fadd. rewrite rem_1_IZR, Rplus_0_l, rnd_1. exact (rem_1_IZR 1).
Qed.

Lemma unit_factor_bound M (A z : R) :
  rnd M A = A -> -1 <= z <= 1 -> Rabs (fmul M A z) <= Rabs A.
Proof.
  intros HA Hz. destruct (rnd_Rabs M A HA) as [Hp Hn].
  pose proof (scaled_bound A z Hz) as Hb.
  pose proof (Rle_abs (A * z)) as H1. pose proof (Rle_abs (- (A * z))) as H2.
  rewrite Rabs_Ropp in H2.
  apply Rabs_le. unfold fmul. apply rnd_between; [exact Hn | exact Hp | lra].
Qed.

Lemma triangleOn_factor M frac :
  0 <= frac < 1 -> -1 <= fsub M (fmul M 4 (Rabs (fsub M frac 0.5))) 1 <= 1.
Proof.
  intros Hf. unfold fsub, fmul.
  assert (H1 : Ropp 0.5 <= rnd M (frac - 0.5) <= 0.5).
  { apply rnd_between; [apply rnd_mhalf | apply rnd_half | lra]. }
  assert (H2 : 0 <= Rabs (rnd M (frac - 0.5)) <= 0.5).
  { split; [apply Rabs_pos | apply Rabs_le; exact H1]. }
  assert (H3 : 0 <= rnd M (4 * Rabs (rnd M (frac - 0.5))) <= 2).
  { apply rnd_between; [apply rnd_0 | apply rnd_2 | lra]. }
  apply rnd_between; [apply rnd_m1 | apply rnd_1 | lra].
Qed.

Lemma sawOn_factor M frac : 0 <= frac < 1 -> -1 <= fsub M (fmul M 2 frac) 1 <= 1.
Proof.
  intros Hf. unfold fsub, fmul.
  assert (H1 : 0 <= rnd M (2 * frac) <= 2).
  { apply rnd_between; [apply rnd_0 | apply rnd_2 | lra]. }
  apply rnd_between; [apply rnd_m1 | apply rnd_1 | lra].
Qed.

Lemma triangleOn_0 M A : rnd M A = A -> triangleOn M A 0 = A.
Proof.
  intros HA. unfold triangleOn, fsub at 2.
  replace (0 - 0.5) with (Ropp 0.5) by lra. rewrite rnd_mhalf, Rabs_Ropp.
  assert (Hh : Rabs 0.5 = 0.5) by (apply Rabs_right; lra). rewrite Hh.
  unfold fmul at 2. replace (4 * 0.5) with 2 by lra. rewrite rnd_2.
  unfold fsub. replace (2 - 1) with 1 by lra. rewrite rnd_1.
  apply fmul_1_r, HA.
Qed.

Lemma sawOn_0 M A : rnd M A = A -> sawOn M A 0 = - A.
Proof.
  intros HA. unfold sawOn, fmul at 2. rewrite Rmult_0_r, rnd_0.
  unfold fsub. replace (0 - 1) with (-1) by lra. rewrite rnd_m1.
  apply fmul_m1_r, HA.
Qed.

Lemma triangleOn_shape M t p :
  JsxM.waveformSample M "triangle" t p
  = finishOn_js M p (triangleOn M (p_amplitude p) (wrapOn M (cycleOn M p t))) /\
  TsxM.waveformSample M "triangle" t p
  = finishOn_ts M p (triangleOn M (p_amplitude p) (wrapOn M (cycleOn M p t))).
Proof. split; reflexivity. Qed.

Lemma sawOn_shape M t p :
  JsxM.waveformSample M "saw" t p
  = finishOn_js M p (sawOn M (p_amplitude p) (wrapOn M (cycleOn M p t))) /\
  TsxM.waveformSample M "saw" t p
  = finishOn_ts M p (sawOn M (p_amplitude p) (wrapOn M (cycleOn M p t))).
Proof. split; reflexivity. Qed.

(** The triangle and sawtooth branches on a machine: whatever the rounding,
    the idiom [((x % 1) + 1) % 1] leaves the computed cycle position
    [t·f + φ/(2π)] wrapped into [0, 1), also at negative times, where the
    first remainder is negative; for an amplitude that is a number of the
    machine the two branch values [A·(4·|frac − 0.5| − 1)] and
    [A·(2·frac − 1)] therefore lie between [−|A|] and [|A|]; and when the
    computed position is a whole number the wrapped position is 0, the
    triangle is at its crest [A] and the sawtooth at its bottom [−A].
    Without noise the sample is the branch value plus [dc], whatever the
    tape. *)
Theorem triangle_and_saw_wrap_the_computed_position (M : Machine) (t : R) (p : WaveParams) :
  rnd M (p_amplitude p) = p_amplitude p ->
  let A := p_amplitude p in
  let frac := wrapOn M (cycleOn M p t) in
  0 <= frac < 1 /\
  (JsxM.waveformSample M "triangle" t p = finishOn_js M p (triangleOn M A frac) /\
   TsxM.waveformSample M "triangle" t p = finishOn_ts M p (triangleOn M A frac) /\
   JsxM.waveformSample M "saw" t p = finishOn_js M p (sawOn M A frac) /\
   TsxM.waveformSample M "saw" t p = finishOn_ts M p (sawOn M A frac)) /\
  (Rabs (triangleOn M A frac) <= Rabs A /\ Rabs (sawOn M A frac) <= Rabs A) /\
  ((exists n : Z, cycleOn M p t = IZR n) ->
   frac = 0 /\ triangleOn M A frac = A /\ sawOn M A frac = - A) /\
  (quiet p ->
   forall tape,
     JsxM.waveformSample M "triangle" t p tape
     = Some (fadd M (triangleOn M A frac) (p_dc p), tape) /\
     TsxM.waveformSample M "triangle" t p tape
     = Some (fadd M (triangleOn M A frac) (p_dc p), tape) /\
     JsxM.waveformSample M "saw" t p tape = Some (fadd M (sawOn M A frac) (p_dc p), tape) /\
     TsxM.waveformSample M "saw" t p tape = Some (fadd M (sawOn M A frac) (p_dc p), tape)).
Proof.
  intros HA A frac. pose proof (wrapOn_range M (cycleOn M p t)) as Hf. fold frac in Hf.
  destruct (triangleOn_shape M t p) as [Htj Htt].
  destruct (sawOn_shape M t p) as [Hsj Hst].
  split; [exact Hf |].
  split; [repeat split; assumption |].
  split.
  { split; apply unit_factor_bound;
      [exact HA | apply triangleOn_factor, Hf | exact HA | apply sawOn_factor, Hf]. }
  split.
  - intros [n Hn]. assert (H0 : frac = 0) by (unfold frac; rewrite Hn; apply wrapOn_IZR).
    rewrite H0. split; [reflexivity |].
    split; [apply triangleOn_0, HA | apply sawOn_0, HA].
  - intros Hq tape. pose proof (quiet_noiseStdOn M p Hq) as H0.
    rewrite Htj, Htt, Hsj, Hst.
    rewrite !finishOn_js_quiet, !finishOn_ts_quiet by lra.
    repeat split; reflexivity.
Qed.

Lemma triangle_and_saw_wrap_the_computed_position_witness :
  cycleOn exact quietSquare 0.003 = 3 /\
  quiet quietSquare /\
  forall tape,
    JsxM.waveformSample exact "saw" 0.003 quietSquare tape = Some (- 2 + 1, tape) /\
    TsxM.waveformSample exact "triangle" 0.003 quietSquare tape = Some (2 + 1, tape).
Proof.
  assert (Hc : cycleOn exact quietSquare 0.003 = 3).
  { change (cycleOn exact quietSquare 0.003) with (0.003 * 1000 + 0 / (2 * PI)).
    unfold Rdiv. rewrite Rmult_0_l. lra. }
  split; [exact Hc |]. split; [exact quietSquare_quiet |]. intros tape.
  destruct (triangle_and_saw_wrap_the_computed_position exact 0.003 quietSquare eq_refl)
    as (_ & _ & _ & Hz & Hq).
  destruct (Hz (ex_intro _ 3%Z Hc)) as (_ & Ht & Hs).
  destruct (Hq quietSquare_quiet tape) as (_ & Htt & Hsj & _).
  rewrite Hsj, Htt, Ht, Hs. split; reflexivity.
Defined.

(** The rectified wave never goes below the offset, yet its reference
    minimum is [dc − A]: for a non-negative amplitude and without noise both
    editions return a sample [y] with [dc <= y <= dc + A], equal to [dc]
    whenever [sin(ωt+φ) <= 0], while the reference values of a rectified
    channel are [vmin = dc − A] and [vpp = 2A] in both editions; the true
    minimum [dc], entered as vmin, is therefore rejected as soon as
    [A > 0.05·(|dc − A| + 1e−9)]. *)
Theorem rectified_wave_and_its_reference (shared : Shared) (ch : Channel) (t : R) :
  ch_waveform ch = "rectified"%string ->
  quiet (paramsOf shared ch) ->
  0 <= ch_amplitude ch ->
  let A := ch_amplitude ch in
  let dc := ch_dc ch in
  (exists y,
     (forall tape,
        Jsx.waveformSample "rectified" t (paramsOf shared ch) tape = Some (y, tape) /\
        Tsx.waveformSample "rectified" t (paramsOf shared ch) tape = Some (y, tape)) /\
     dc <= y <= dc + A /\
     (sin (2 * PI * ch_frequency ch * t + ch_phase ch) <= 0 -> y = dc)) /\
  c_vmin (Jsx.correctFor ch) = Fin (dc - A) /\
  c_vmin (Tsx.corr ch) = Fin (- A + dc) /\
  c_vpp (Jsx.correctFor ch) = Fin (2 * A) /\
  c_vpp (Tsx.corr ch) = Fin (2 * A) /\
  (A > 0.05 * (Rabs (dc - A) + 1e-9) ->
   Jsx.fieldPass (Fin dc) (c_vmin (Jsx.correctFor ch)) 0.05 = false /\
   Tsx.fieldFails (Fin dc) (c_vmin (Tsx.corr ch)) 0.05 = true).
Proof.
  intros Hw Hq HA A dc. pose proof (quiet_noiseStd _ Hq) as H0.
  assert (Hz : noiseStdOf (paramsOf shared ch) <= 0) by lra.
  assert (Hmin : c_vmin (Jsx.correctFor ch) = Fin (dc - A)).
  { unfold Jsx.correctFor. rewrite Hw. reflexivity. }
  assert (Hfail : A > 0.05 * (Rabs (dc - A) + 1e-9) ->
                  Jsx.fieldPass (Fin dc) (Fin (dc - A)) 0.05 = false).
  { intros Hbig. rewrite fieldPass_finite. unfold leb.
    destruct (Rle_dec (relativeError dc (dc - A)) 0.05) as [H | H]; [exfalso | reflexivity].
    unfold relativeError in H. pose proof (Rabs_pos (dc - A)).
    assert (Hd : 0 < Rabs (dc - A) + 1e-9) by lra.
    apply (proj1 (div_le_iff _ _ _ Hd)) in H.
    replace (dc - (dc - A)) with A in H by lra. rewrite Rabs_pos_eq in H by exact HA. lra. }
  split; [| split; [exact Hmin | split; [reflexivity | split; [| split; [reflexivity |]]]]].
  - exists (A * Rmax 0 (sin (angle (paramsOf shared ch) t)) + dc).
    split.
    + intros tape. rewrite rectified_js_shape, rectified_ts_shape.
      rewrite finish_js_quiet, finish_ts_quiet by exact Hz. split; reflexivity.
    + change (angle (paramsOf shared ch) t) with (2 * PI * ch_frequency ch * t + ch_phase ch).
      pose proof (SIN_bound (2 * PI * ch_frequency ch * t + ch_phase ch)) as Hs.
      set (s := sin (2 * PI * ch_frequency ch * t + ch_phase ch)) in *. clearbody s.
      unfold A, dc in *. clear A dc.
      unfold Rmax. destruct (Rle_dec 0 _) as [Hle | Hgt].
      * split; [split; nra |]. intros Hneg.
        replace s with 0 by lra. lra.
      * split; [lra |]. intros _. lra.
  - unfold Jsx.correctFor. rewrite Hw. reflexivity.
  - intros Hbig. rewrite Hmin. split; [apply Hfail, Hbig |].
    change (c_vmin (Tsx.corr ch)) with (Fin (- A + dc)).
    replace (- A + dc) with (dc - A) by lra.
    rewrite fieldFails_fieldPass, (Hfail Hbig). reflexivity.
Qed.

Lemma rectified_wave_and_its_reference_witness :
  ch_waveform (waveChannel "rectified") = "rectified"%string /\
  quiet (paramsOf Jsx.defaultSharedState (waveChannel "rectified")) /\
  0 <= ch_amplitude (waveChannel "rectified") /\
  Jsx.fieldPass (Fin 1) (c_vmin (Jsx.correctFor (waveChannel "rectified"))) 0.05 = false.
Proof.
  assert (Hq : quiet (paramsOf Jsx.defaultSharedState (waveChannel "rectified")))
    by (split; [reflexivity | left; reflexivity]).
  assert (HA : 0 <= ch_amplitude (waveChannel "rectified")) by (simpl; lra).
  split; [reflexivity |]. split; [exact Hq |]. split; [exact HA |].
  destruct (rectified_wave_and_its_reference Jsx.defaultSharedState
              (waveChannel "rectified") 0 eq_refl Hq HA) as (_ & _ & _ & _ & _ & H).
  apply H. change (2 > 0.05 * (Rabs (1 - 2) + 1e-9)).
  assert (Hh : Rabs (1 - 2) = 1) by (unfold Rabs; destruct (Rcase_abs _); lra).
  rewrite Hh. lra.
Defined.

(** ** The Gaussian term *)

Lemma untilNonzero_zeros (m : nat) (u : R) (rest : list R) :
  u <> 0 -> untilNonzero (repeat 0 m ++ u :: rest) = Some (u, rest).
Proof.
  intros Hu. induction m as [| m IH]; [apply untilNonzero_head, Hu |].
  simpl. destruct (Req_dec_T 0 0) as [_ | H]; [exact IH | contradiction].
Qed.

Lemma silenced_quiet p : quiet (silenced p).
Proof. split; [reflexivity | left; reflexivity]. Qed.

Lemma shape_js_silenced type t p :
  type <> "noise"%string ->
  exists y,
    Jsx.waveformSample type t p = finish_js p y /\
    Jsx.waveformSample type t (silenced p) = finish_js (silenced p) y.
Proof.
  intros Hk. apply String.eqb_neq in Hk. unfold Jsx.waveformSample. rewrite Hk.
  repeat match goal with
         | |- context [if String.eqb type ?k then _ else _] =>
             destruct (String.eqb type k)
         end; eexists; split; reflexivity.
Qed.

Lemma shape_ts_silenced type t p :
  type <> "noise"%string ->
  exists y,
    Tsx.waveformSample type t p = finish_ts p y /\
    Tsx.waveformSample type t (silenced p) = finish_ts (silenced p) y.
Proof.
  intros Hk. apply String.eqb_neq in Hk. unfold Tsx.waveformSample. rewrite Hk.
  repeat match goal with
         | |- context [if String.eqb type ?k then _ else _] =>
             destruct (String.eqb type k)
         end; eexists; split; reflexivity.
Qed.

(** Noise is an additive Gaussian term whose deviation is the channel noise
    plus the floor of the difficulty: 2% of the amplitude for "intermedio",
    5% for "avanzato", nothing for any other difficulty.  For every kind but
    ["noise"], when that deviation [σ] is positive the sample is the
    noise-free sample plus [sqrt(−2·ln u)·cos(2πv)·σ], where [u] and [v] are
    the first two draws that are not zero (zero draws are read and
    discarded); when [σ] is not positive (a negative amplitude can cancel the
    channel noise) no draw is read at all. *)
Theorem gaussian_term_is_additive (type : string) (t : R) (p : WaveParams)
    (m n : nat) (u v : R) (rest : list R) :
  type <> "noise"%string -> u <> 0 -> v <> 0 ->
  let noise := default 0 (p_noise p) in
  let sigma :=
    if String.eqb (p_difficulty p) "intermedio" then noise + 0.02 * p_amplitude p
    else if String.eqb (p_difficulty p) "avanzato" then noise + 0.05 * p_amplitude p
    else noise in
  let g := sqrt (-2 * ln u) * cos (2 * PI * v) in
  let tape := repeat 0 m ++ u :: repeat 0 n ++ v :: rest in
  exists yj yt,
    (forall tp, Jsx.waveformSample type t (silenced p) tp = Some (yj, tp)) /\
    (forall tp, Tsx.waveformSample type t (silenced p) tp = Some (yt, tp)) /\
    (0 < sigma ->
     Jsx.waveformSample type t p tape = Some (yj + g * sigma, rest) /\
     Tsx.waveformSample type t p tape = Some (yt + g * sigma, rest)) /\
    (sigma <= 0 ->
     forall tp,
       Jsx.waveformSample type t p tp = Some (yj, tp) /\
       Tsx.waveformSample type t p tp = Some (yt, tp)).
Proof.
  intros Hk Hu Hv noise sigma g tape.
  assert (Hsigma : sigma = noiseStdOf p).
  { unfold sigma, noiseStdOf. fold noise.
    destruct (String.eqb_spec (p_difficulty p) "intermedio") as [E | _]; [| reflexivity].
    rewrite E. reflexivity. }
  assert (H1 : untilNonzero tape = Some (u, repeat 0 n ++ v :: rest))
    by (apply untilNonzero_zeros, Hu).
  assert (H2 : untilNonzero (repeat 0 n ++ v :: rest) = Some (v, rest))
    by (apply untilNonzero_zeros, Hv).
  pose proof (quiet_noiseStd _ (silenced_quiet p)) as Hs0.
  destruct (shape_js_silenced type t p Hk) as (yj & Hj & Hjs).
  destruct (shape_ts_silenced type t p Hk) as (yt & Ht & Hts).
  exists (yj + p_dc p), (yt + p_dc p).
  split; [intros tp; rewrite Hjs; apply (finish_js_quiet (silenced p)); lra |].
  split; [intros tp; rewrite Hts; apply (finish_ts_quiet (silenced p)); lra |].
  rewrite Hsigma. split.
  - intros Hpos. rewrite Hj, Ht.
    rewrite (finish_js_noisy p yj tape u v _ rest Hpos H1 H2).
    rewrite (finish_ts_noisy p yt tape u v _ rest Hpos H1 H2).
    unfold g, boxMuller. split; [reflexivity |]. do 2 f_equal. lra.
  - intros Hneg tp. rewrite Hj, Ht.
    rewrite finish_js_quiet, finish_ts_quiet by exact Hneg. split; reflexivity.
Qed.

Lemma gaussian_term_is_additive_witness :
  Jsx.waveformSample "cosine" 0 advancedSine [0; exp (- (1 / 2)); 0; 0; 1 / 2]
  = Some (2 * sin (2 * PI * 1 * 0 + 0) + 1
          + sqrt (-2 * ln (exp (- (1 / 2)))) * cos (2 * PI * (1 / 2)) * (0 + 0.05 * 2), []).
Proof.
  assert (Hk : "cosine"%string <> "noise"%string) by discriminate.
  assert (Hu : exp (- (1 / 2)) <> 0) by (pose proof (exp_pos (- (1 / 2))); lra).
  assert (Hv : 1 / 2 <> 0) by lra.
  destruct (gaussian_term_is_additive "cosine" 0 advancedSine 1 2 _ _ [] Hk Hu Hv)
    as (yj & yt & Hq & _ & Hnoisy & _).
  assert (Hy : yj = 2 * sin (2 * PI * 1 * 0 + 0) + 1).
  { specialize (Hq []).
    change (Jsx.waveformSample "cosine" 0 (silenced advancedSine) [])
      with (finish_js (silenced advancedSine) (2 * sin (2 * PI * 1 * 0 + 0)) []) in Hq.
    rewrite finish_js_quiet in Hq
      by (rewrite (quiet_noiseStd _ (silenced_quiet advancedSine)); lra).
    inversion Hq. reflexivity. }
  rewrite <- Hy. apply (proj1 (Hnoisy ltac:(simpl; lra))).
Defined.

(** * Further properties of the trace renderer *)

(** ** The horizontal axis *)

Lemma grid_js_calls shared view :
  exists before,
    length before = gridCalls shared /\
    Jsx.grid shared view
    = before ++ [strokeStyle "#334155"; setLineDash [6; 6]; beginPath;
                 moveTo 0 (pixelY shared view (2 * v_vOffset view));
                 lineTo width (pixelY shared view (2 * v_vOffset view));
                 stroke; setLineDash []].
Proof.
  unfold Jsx.grid. cbv zeta.
  match goal with
  | |- exists before, _ /\ ?a ++ ?b ++ ?c ++ _ = _ => exists (a ++ b ++ c)
  end.
  split.
  - rewrite !length_app.
    rewrite !(flat_map_constant_length (c := 4)) by (intros; reflexivity).
    rewrite !length_seqZ. unfold gridCalls. simpl length. lia.
  - rewrite <- !app_assoc. do 3 f_equal. unfold pixelY.
    replace (2 * v_vOffset view - v_vOffset view) with (v_vOffset view) by lra.
    reflexivity.
Qed.

Lemma grid_ts_calls shared view :
  exists before,
    length before = gridCalls shared /\
    Tsx.grid shared view
    = before ++ [strokeStyle "#475569"; lineWidth 1.5; setLineDash [];
                 beginPath; moveTo (width / 2) 0; lineTo (width / 2) height; stroke;
                 beginPath;
                 moveTo 0 (pixelY shared view (2 * v_vOffset view));
                 lineTo width (pixelY shared view (2 * v_vOffset view));
                 stroke].
Proof.
  unfold Tsx.grid. cbv zeta.
  match goal with
  | |- exists before, _ /\ ?a ++ ?b ++ ?c ++ _ = _ => exists (a ++ b ++ c)
  end.
  split.
  - rewrite !length_app.
    rewrite !(flat_map_constant_length (c := 4)) by (intros; reflexivity).
    rewrite !length_seqZ. unfold gridCalls. simpl length. lia.
  - rewrite <- !app_assoc. do 3 f_equal. unfold pixelY.
    replace (2 * v_vOffset view - v_vOffset view) with (v_vOffset view) by lra.
    reflexivity.
Qed.

Lemma pixelY_axis_gap shared view :
  pixelY shared view 0 - pixelY shared view (2 * v_vOffset view)
  = 2 * (v_vOffset view / v_vPerDiv view) * (height / IZR (sh_verticalDivs shared)).
Proof. unfold pixelY, Rdiv. ring. Qed.

(** The horizontal axis and the traces move in opposite directions with the
    vertical offset.  In both editions the axis is drawn, right after the
    grid, at [y = H/2 − (vOffset/vDiv)·dy], not aligned to the pixel.  The
    JavaScript edition draws a sample of [v] volts at
    [y = H/2 − ((v − vOffset)/vDiv)·dy]: its axis is the row of a sample of
    [2·vOffset] volts, and the row of a 0 V sample only when the offset is
    0.  The type-annotated edition draws the sample at [round(y) + 0.5]:
    there the row of a sample of [2·vOffset] volts lies below the axis, by
    at most one pixel, and with offset 0 (and a scale and a number of
    divisions that are not 0) the axis is at [y = 260] and a 0 V sample at
    [y = 260.5].  The canvas is drawn on every tape when no
    enabled channel has noise. *)
Theorem horizontal_axis_marks_twice_the_offset (shared : Shared) (view : View) :
  let yAxis := height / 2 - (v_vOffset view / v_vPerDiv view)
                            * (height / IZR (sh_verticalDivs shared)) in
  (forall tape cmds tape',
     Jsx.ScopeCanvas shared view tape = Some (cmds, tape') ->
     exists before traces,
       length before = gridCalls shared /\
       cmds = before ++ [strokeStyle "#334155"; setLineDash [6; 6]; beginPath;
                         moveTo 0 yAxis; lineTo width yAxis; stroke; setLineDash []]
                     ++ traces) /\
  (forall tape cmds tape',
     Tsx.ScopeCanvas shared view tape = Some (cmds, tape') ->
     exists before traces,
       length before = gridCalls shared /\
       cmds = before ++ [strokeStyle "#475569"; lineWidth 1.5; setLineDash [];
                         beginPath; moveTo (width / 2) 0; lineTo (width / 2) height; stroke;
                         beginPath; moveTo 0 yAxis; lineTo width yAxis; stroke]
                     ++ traces) /\
  ((forall ch, In ch (sh_channels shared) -> ch_enabled ch = true -> quietChannel shared ch) ->
   forall tape,
     is_Some (Jsx.ScopeCanvas shared view tape) /\
     is_Some (Tsx.ScopeCanvas shared view tape)) /\
  (forall ch N i tape v tape',
     (Jsx.waveformSample (ch_waveform ch) (sampleTime shared view N i) (paramsOf shared ch) tape
      = Some (v, tape') ->
      Jsx.samplePoint shared view ch N i tape
      = Some ([plot i (pixelX N i) (pixelY shared view v)], tape')) /\
     (Tsx.waveformSample (ch_waveform ch) (sampleTime shared view N i) (paramsOf shared ch) tape
      = Some (v, tape') ->
      Tsx.samplePoint shared view ch N i tape
      = Some ([plot i (snap (pixelX N i)) (snap (pixelY shared view v))], tape'))) /\
  yAxis = pixelY shared view (2 * v_vOffset view) /\
  (v_vPerDiv view <> 0 -> sh_verticalDivs shared <> 0%Z ->
   (yAxis = pixelY shared view 0 <-> v_vOffset view = 0)) /\
  yAxis < snap (pixelY shared view (2 * v_vOffset view)) <= yAxis + 1 /\
  (v_vPerDiv view <> 0 -> sh_verticalDivs shared <> 0%Z -> v_vOffset view = 0 ->
   yAxis = 260 /\ pixelY shared view 0 = 260 /\ snap (pixelY shared view 0) = 260.5).
Proof.
  intros yAxis.
  assert (Hy : yAxis = pixelY shared view (2 * v_vOffset view)).
  { unfold yAxis, pixelY.
    replace (2 * v_vOffset view - v_vOffset view) with (v_vOffset view) by lra.
    reflexivity. }
  split; [| split; [| split; [| split; [| split; [| split; [| split]]]]]].
  - intros tape cmds tape' H. rewrite Hy.
    destruct (ScopeCanvas_js_grid _ _ _ _ _ H) as [traces ->].
    destruct (grid_js_calls shared view) as (before & Hlen & ->).
    exists before, traces. split; [exact Hlen |]. rewrite <- app_assoc. reflexivity.
  - intros tape cmds tape' H. rewrite Hy.
    destruct (ScopeCanvas_ts_grid _ _ _ _ _ H) as [traces ->].
    destruct (grid_ts_calls shared view) as (before & Hlen & ->).
    exists before, traces. split; [exact Hlen |]. rewrite <- app_assoc. reflexivity.
  - intros Hq tape.
    destruct (ScopeCanvas_js_quiet shared view Hq) as [tj Hj].
    destruct (ScopeCanvas_ts_quiet shared view Hq) as [tt Ht].
    rewrite Hj, Ht. split; eexists; reflexivity.
  - intros ch N i tape v tape'. split; [apply samplePoint_js | apply samplePoint_ts].
  - exact Hy.
  - intros Hv Hd. rewrite Hy. pose proof (pixelY_axis_gap shared view) as Hgap.
    assert (Hdy : height / IZR (sh_verticalDivs shared) <> 0).
    { unfold height, Rdiv. apply Rmult_integral_contrapositive_currified; [lra |].
      apply Rinv_neq_0_compat. apply not_0_IZR. exact Hd. }
    split.
    + intros E. rewrite E in Hgap.
      replace (pixelY shared view 0 - pixelY shared view 0) with 0 in Hgap by lra.
      symmetry in Hgap. apply Rmult_integral in Hgap as [Hgap | Hgap]; [| contradiction].
      apply Rmult_integral in Hgap as [Hgap | Hgap]; [lra |].
      unfold Rdiv in Hgap. apply Rmult_integral in Hgap as [Hgap | Hgap]; [exact Hgap |].
      exfalso. revert Hgap. apply Rinv_neq_0_compat, Hv.
    + intros E. rewrite E, Rmult_0_r. reflexivity.
  - rewrite Hy. apply snap_half_integer.
  - intros _ _ E.
    assert (H0 : pixelY shared view 0 = 260).
    { unfold pixelY, height, Rdiv. rewrite E, Rminus_diag, !Rmult_0_l. lra. }
    split; [rewrite Hy, E, Rmult_0_r; exact H0 |]. split; [exact H0 |].
    rewrite H0. change 260 with (IZR 260). rewrite snap_IZR. lra.
Qed.

Lemma horizontal_axis_marks_twice_the_offset_witness :
  (exists before traces,
     length before = gridCalls Jsx.defaultSharedState /\
     Jsx.ScopeCanvas Jsx.defaultSharedState offsetView []
     = Some (before ++ [strokeStyle "#334155"; setLineDash [6; 6]; beginPath;
                        moveTo 0 (height / 2 - 1 / 1 * (height / 8));
                        lineTo width (height / 2 - 1 / 1 * (height / 8));
                        stroke; setLineDash []] ++ traces, [])) /\
  height / 2 - 1 / 1 * (height / 8) = 195 /\
  pixelY Jsx.defaultSharedState offsetView 0 = 325 /\
  snap (pixelY Tsx.defaultSharedState defaultView 0) = 260.5.
Proof.
  split; [| split; [unfold height; lra | split]].
  - destruct (ScopeCanvas_js_quiet Jsx.defaultSharedState offsetView
                default_js_channels_quiet) as [traces0 H].
    destruct (proj1 (horizontal_axis_marks_twice_the_offset Jsx.defaultSharedState
                       offsetView) [] _ [] (H [])) as (before & traces & Hlen & E).
    exists before, traces. split; [exact Hlen |]. rewrite (H []), E. reflexivity.
  - unfold pixelY, height. simpl. lra.
  - destruct (horizontal_axis_marks_twice_the_offset Tsx.defaultSharedState defaultView)
      as (_ & _ & _ & _ & _ & _ & _ & H0).
    apply H0; [simpl; lra | discriminate | reflexivity].
Defined.

(** ** Disabled channels *)

Lemma forEach_filter (keep : Channel -> bool) (body : Channel -> Rand (list DrawCmd))
    (l : list Channel) :
  (forall ch, keep ch = false -> body ch = ret []) ->
  forall tape, forEach l body tape = forEach (List.filter keep l) body tape.
Proof.
  intros Hskip. induction l as [| ch l IH]; intros tape; [reflexivity |].
  simpl. destruct (keep ch) eqn:E.
  - simpl. unfold bind. destruct (body ch tape) as [[cs tape1] |]; [| reflexivity].
    rewrite IH. reflexivity.
  - rewrite (Hskip ch E). unfold bind, ret. rewrite IH.
    destruct (forEach (List.filter keep l) body tape) as [[ds tape2] |]; reflexivity.
Qed.

Lemma trace_js_disabled shared view ch :
  ch_enabled ch = false -> Jsx.trace shared view ch = ret [].
Proof. intros H. unfold Jsx.trace. rewrite H. reflexivity. Qed.

Lemma trace_ts_disabled shared view ch :
  ch_enabled ch = false -> Tsx.trace shared view ch = ret [].
Proof. intros H. unfold Tsx.trace. rewrite H. reflexivity. Qed.

Lemma filter_all_disabled (l : list Channel) :
  Forall (fun ch => ch_enabled ch = false) l -> List.filter ch_enabled l = [].
Proof.
  induction 1 as [| ch l H _ IH]; [reflexivity |]. simpl. rewrite H. exact IH.
Qed.

(** A disabled channel leaves no trace and reads no random draw: in both
    editions the canvas of a state is, on every tape, the canvas of the same
    state without its disabled channels (same drawing calls, same remaining
    tape); when every channel is disabled the drawing is the grid with its
    axes alone and the tape is left untouched. *)
Theorem disabled_channels_are_not_drawn (shared : Shared) (view : View) :
  (forall tape,
     Jsx.ScopeCanvas shared view tape = Jsx.ScopeCanvas (enabledOnly shared) view tape /\
     Tsx.ScopeCanvas shared view tape = Tsx.ScopeCanvas (enabledOnly shared) view tape) /\
  (Forall (fun ch => ch_enabled ch = false) (sh_channels shared) ->
   forall tape,
     Jsx.ScopeCanvas shared view tape = Some (Jsx.grid shared view, tape) /\
     Tsx.ScopeCanvas shared view tape = Some (Tsx.grid shared view, tape)).
Proof.
  assert (Hall : forall tape,
             Jsx.ScopeCanvas shared view tape = Jsx.ScopeCanvas (enabledOnly shared) view tape /\
             Tsx.ScopeCanvas shared view tape = Tsx.ScopeCanvas (enabledOnly shared) view tape).
  { intros tape. unfold Jsx.ScopeCanvas, Tsx.ScopeCanvas, bind.
    change (sh_channels (enabledOnly shared)) with (List.filter ch_enabled (sh_channels shared)).
    change (Jsx.trace (enabledOnly shared) view) with (Jsx.trace shared view).
    change (Tsx.trace (enabledOnly shared) view) with (Tsx.trace shared view).
    change (Jsx.grid (enabledOnly shared) view) with (Jsx.grid shared view).
    change (Tsx.grid (enabledOnly shared) view) with (Tsx.grid shared view).
    rewrite <- (forEach_filter ch_enabled (Jsx.trace shared view))
      by (intros ch; apply trace_js_disabled).
    rewrite <- (forEach_filter ch_enabled (Tsx.trace shared view))
      by (intros ch; apply trace_ts_disabled).
    split; reflexivity. }
  split; [exact Hall |].
  intros Hoff tape. destruct (Hall tape) as [-> ->].
  unfold Jsx.ScopeCanvas, Tsx.ScopeCanvas, bind.
  change (sh_channels (enabledOnly shared)) with (List.filter ch_enabled (sh_channels shared)).
  rewrite (filter_all_disabled _ Hoff). simpl. unfold ret.
  rewrite !app_nil_r. split; reflexivity.
Qed.

(** ** The right and bottom edges *)

Lemma last_gridline_raw (extent : R) (div : Z) :
  (0 < div)%Z -> IZR (Z.of_nat (Z.to_nat div)) * (extent / IZR div) = extent.
Proof.
  intros Hd. rewrite Z2Nat.id by lia. field. apply not_0_IZR. lia.
Qed.

Lemma sampleCount_js_floor shared view : (1000 <= Jsx.sampleCount shared view)%Z.
Proof. unfold Jsx.sampleCount. lia. Qed.

Lemma sampleCount_ts_floor shared view : (2000 <= Tsx.sampleCount shared view)%Z.
Proof. unfold Tsx.sampleCount. lia. Qed.

Lemma pixelX_last (N : Z) : (2 <= N)%Z -> pixelX N (N - 1) = width.
Proof.
  intros HN. unfold pixelX. field. apply not_0_IZR. lia.
Qed.

Lemma plot_later (i : Z) (x y : R) : (0 < i)%Z -> plot i x y = lineTo x y.
Proof. intros Hi. unfold plot. destruct (Z.eqb_spec i 0); [lia | reflexivity]. Qed.

(** The pixel alignment of the type-annotated edition pushes the last lines
    off the canvas: with positive numbers of divisions its vertical gridline
    of index [divX] is drawn at [x = W + 0.5] and its horizontal gridline of
    index [divY] at [y = H + 0.5], half a pixel beyond the canvas of [W × H]
    pixels, and every trace ends with a segment to [x = W + 0.5]; the
    JavaScript edition draws that gridline at [x = W] and ends every trace
    at [x = W]. *)
Theorem ts_edge_lines_fall_off_the_canvas (shared : Shared) (view : View) :
  (0 < sh_durationDivs shared)%Z -> (0 < sh_verticalDivs shared)%Z ->
  let divX := sh_durationDivs shared in
  let divY := sh_verticalDivs shared in
  (forall tape cmds tape',
     Tsx.ScopeCanvas shared view tape = Some (cmds, tape') ->
     verticalGridline cmds (Z.to_nat divX)
     = [beginPath; moveTo (width + 0.5) 0; lineTo (width + 0.5) height; stroke] /\
     horizontalGridline divX cmds (Z.to_nat divY)
     = [beginPath; moveTo 0 (height + 0.5); lineTo width (height + 0.5); stroke]) /\
  (forall tape cmds tape',
     Jsx.ScopeCanvas shared view tape = Some (cmds, tape') ->
     verticalGridline cmds (Z.to_nat divX)
     = [beginPath; moveTo width 0; lineTo width height; stroke]) /\
  (forall ch tape cmds tape',
     ch_enabled ch = true ->
     Tsx.trace shared view ch tape = Some (cmds, tape') ->
     exists points voltage,
       cmds = [lineWidth 2; lineJoin "round"; lineCap "round"; strokeStyle (ch_color ch);
               beginPath] ++ points ++ [stroke] /\
       last points = Some (lineTo (width + 0.5) (snap (pixelY shared view voltage)))) /\
  (forall ch tape cmds tape',
     ch_enabled ch = true ->
     Jsx.trace shared view ch tape = Some (cmds, tape') ->
     exists points voltage,
       cmds = [lineWidth 2; strokeStyle (ch_color ch); beginPath] ++ points ++ [stroke] /\
       last points = Some (lineTo width (pixelY shared view voltage))) /\
  ((forall ch, In ch (sh_channels shared) -> ch_enabled ch = true -> quietChannel shared ch) ->
   forall tape,
     is_Some (Jsx.ScopeCanvas shared view tape) /\
     is_Some (Tsx.ScopeCanvas shared view tape)).
Proof.
  intros HX HY divX divY. subst divX divY.
  assert (Hw : snap width = width + 0.5).
  { unfold width. change 980 with (IZR 980). apply snap_IZR. }
  assert (Hh : snap height = height + 0.5).
  { unfold height. change 520 with (IZR 520). apply snap_IZR. }
  split; [| split; [| split; [| split]]].
  - intros tape cmds tape' H.
    destruct (ScopeCanvas_ts_grid _ _ _ _ _ H) as [traces ->]. split.
    + rewrite verticalGridline_ts by (rewrite Z2Nat.id; lia).
      cbv zeta. rewrite last_gridline_raw by exact HX.
      fold (snap width). rewrite Hw. reflexivity.
    + rewrite horizontalGridline_ts by (rewrite Z2Nat.id; lia).
      cbv zeta. rewrite last_gridline_raw by exact HY.
      fold (snap height). rewrite Hh. reflexivity.
  - intros tape cmds tape' H.
    destruct (ScopeCanvas_js_grid _ _ _ _ _ H) as [traces ->].
    rewrite verticalGridline_js by (rewrite Z2Nat.id; lia).
    cbv zeta. rewrite last_gridline_raw by exact HX. reflexivity.
  - intros ch tape cmds tape' Hen H.
    destruct (trace_ts_points _ _ _ _ _ _ Hen H) as (points & Hc & Hlen & Hpt).
    pose proof (sampleCount_ts_floor shared view) as HN.
    set (N := Tsx.sampleCount shared view) in *.
    destruct (Hpt (N - 1)%Z ltac:(lia)) as (tp & yV & tp' & _ & Hlast).
    exists points, yV. split; [exact Hc |].
    rewrite last_lookup, Hlen.
    replace (Nat.pred (Z.to_nat N)) with (Z.to_nat (N - 1)) by lia.
    rewrite Hlast, pixelX_last, Hw, plot_later by lia. reflexivity.
  - intros ch tape cmds tape' Hen H.
    destruct (trace_js_points _ _ _ _ _ _ Hen H) as (points & Hc & Hlen & Hpt).
    pose proof (sampleCount_js_floor shared view) as HN.
    set (N := Jsx.sampleCount shared view) in *.
    destruct (Hpt (N - 1)%Z ltac:(lia)) as (tp & yV & tp' & _ & Hlast).
    exists points, yV. split; [exact Hc |].
    rewrite last_lookup, Hlen.
    replace (Nat.pred (Z.to_nat N)) with (Z.to_nat (N - 1)) by lia.
    rewrite Hlast, pixelX_last, plot_later by lia. reflexivity.
  - intros Hq tape.
    destruct (ScopeCanvas_js_quiet shared view Hq) as [tj Hj].
    destruct (ScopeCanvas_ts_quiet shared view Hq) as [tt Ht].
    rewrite Hj, Ht. split; eexists; reflexivity.
Qed.

Lemma ts_edge_lines_fall_off_the_canvas_witness :
  exists cmds,
    Tsx.ScopeCanvas Tsx.defaultSharedState defaultView [] = Some (cmds, []) /\
    verticalGridline cmds 10
    = [beginPath; moveTo (width + 0.5) 0; lineTo (width + 0.5) height; stroke].
Proof.
  destruct (ScopeCanvas_ts_quiet Tsx.defaultSharedState defaultView
              default_ts_channels_quiet) as [traces H].
  exists (Tsx.grid Tsx.defaultSharedState defaultView ++ traces).
  split; [apply H |].
  exact (proj1 (proj1 (ts_edge_lines_fall_off_the_canvas Tsx.defaultSharedState defaultView
                         eq_refl eq_refl) [] _ [] (H []))).
Defined.

(** * Further properties of the measurement checker *)

(** ** The loop of the type-annotated [doCheck] *)

Lemma doCheck_ts_result parseFloat shared view :
  let loop := foldl (step_ts parseFloat (measuresOf view)) (true, ∅) (sh_channels shared) in
  Tsx.doCheck parseFloat shared view
  = {| Tsx.r_ok := fst loop;
       Tsx.r_perChannel := settle <$> snd loop;
       Tsx.r_punteggio := score (totalErrorsOf (snd loop)) (blankFields view);
       Tsx.r_erroriCount := totalErrorsOf (snd loop);
       Tsx.r_datiMancanti := blankFields view |}.
Proof.
  intros loop. unfold Tsx.doCheck.
  change (foldl _ (true, ∅) (sh_channels shared)) with loop.
  destruct loop as [ok pc]. reflexivity.
Qed.

Lemma totalErrorsOf_insert_fresh (id : Z) (r : Tsx.ChannelErrors)
    (pc : gmap Z Tsx.ChannelErrors) :
  pc !! id = None ->
  totalErrorsOf (<[id := r]> pc) = (totalErrorsOf pc + Tsx.ce_errors r)%nat.
Proof.
  intros H. unfold totalErrorsOf.
  rewrite map_fold_insert_L; [reflexivity | intros; lia | exact H].
Qed.

Lemma totalErrorsOf_insert (id : Z) (r : Tsx.ChannelErrors) (pc : gmap Z Tsx.ChannelErrors) :
  (totalErrorsOf (<[id := r]> pc)
   + Tsx.ce_errors (default {| Tsx.ce_ok := true; Tsx.ce_errors := 0 |} (pc !! id)))%nat
  = (totalErrorsOf pc + Tsx.ce_errors r)%nat.
Proof.
  destruct (pc !! id) as [r0 |] eqn:E.
  - rewrite <- (insert_delete_eq pc).
    rewrite totalErrorsOf_insert_fresh by apply lookup_delete_eq.
    rewrite <- (insert_delete_id pc id r0 E) at 2.
    rewrite totalErrorsOf_insert_fresh by apply lookup_delete_eq.
    simpl. lia.
  - rewrite totalErrorsOf_insert_fresh by exact E. simpl. lia.
Qed.

Lemma totalErrorsOf_countError (id : Z) (pc : gmap Z Tsx.ChannelErrors) :
  totalErrorsOf (Tsx.countError id pc) = S (totalErrorsOf pc).
Proof.
  unfold Tsx.countError.
  pose proof (totalErrorsOf_insert id
                {| Tsx.ce_ok := Tsx.ce_ok (default {| Tsx.ce_ok := true; Tsx.ce_errors := 0 |}
                                            (pc !! id));
                   Tsx.ce_errors := S (Tsx.ce_errors
                                         (default {| Tsx.ce_ok := true; Tsx.ce_errors := 0 |}
                                            (pc !! id))) |} pc) as H.
  simpl in H. lia.
Qed.

Lemma totalErrorsOf_iter (n : nat) (id : Z) (pc : gmap Z Tsx.ChannelErrors) :
  totalErrorsOf (Nat.iter n (Tsx.countError id) pc) = (totalErrorsOf pc + n)%nat.
Proof.
  induction n as [| n IH]; [simpl; lia |].
  simpl. rewrite totalErrorsOf_countError, IH. lia.
Qed.

Lemma iter_countError_same (n : nat) (id : Z) (pc : gmap Z Tsx.ChannelErrors) :
  let r0 := default {| Tsx.ce_ok := true; Tsx.ce_errors := 0 |} (pc !! id) in
  Nat.iter (S n) (Tsx.countError id) pc !! id
  = Some {| Tsx.ce_ok := Tsx.ce_ok r0; Tsx.ce_errors := (Tsx.ce_errors r0 + S n)%nat |}.
Proof.
  intros r0. induction n as [| n IH].
  - simpl. unfold Tsx.countError. rewrite lookup_insert_eq. fold r0.
    do 2 f_equal. lia.
  - change (Nat.iter (S (S n)) (Tsx.countError id) pc)
      with (Tsx.countError id (Nat.iter (S n) (Tsx.countError id) pc)).
    unfold Tsx.countError at 1. rewrite lookup_insert_eq, IH. simpl.
    do 2 f_equal. lia.
Qed.

Lemma errorsOf_at_most_5 parseFloat user ch : (errorsOf parseFloat user ch <= 5)%nat.
Proof.
  unfold errorsOf, allFields. cbn [List.filter].
  destruct (fails_ts _ _ _ vmax), (fails_ts _ _ _ vmin), (fails_ts _ _ _ vpp),
    (fails_ts _ _ _ period), (fails_ts _ _ _ freq); simpl; lia.
Qed.

Lemma loopState_start parseFloat view : loopState parseFloat view [] (true, ∅).
Proof.
  split; [split; reflexivity |]. split; [| split].
  - intros id r H. cbn [snd] in H. rewrite lookup_empty in H. discriminate H.
  - intros ch [].
  - reflexivity.
Qed.

Lemma loopState_step parseFloat view done res c :
  loopState parseFloat view done res ->
  loopState parseFloat view (done ++ [c]) (step_ts parseFloat (measuresOf view) res c).
Proof.
  intros (Hok & Hrec & Hdom & Hsum). destruct res as [ok pc]. simpl in *.
  destruct (ch_enabled c) eqn:Hen.
  2: { assert (E : step_ts parseFloat (measuresOf view) (ok, pc) c = (ok, pc))
         by (unfold step_ts; rewrite Hen; reflexivity).
       rewrite E. unfold loopState. cbn [fst snd]. split; [exact Hok |]. split; [| split].
       - intros id r H. destruct (Hrec id r H) as (H1 & H2 & ch & Hin & H3).
         split; [exact H1 |]. split; [exact H2 |]. exists ch.
         split; [apply in_or_app; left; exact Hin | exact H3].
       - intros ch Hin Hch Hf. apply in_app_or in Hin as [Hin | [<- | []]].
         + exact (Hdom ch Hin Hch Hf).
         + rewrite Hen in Hch. discriminate Hch.
       - simpl. rewrite List.filter_app. simpl. rewrite Hen, app_nil_r. exact Hsum. }
  rewrite step_ts_enabled by exact Hen.
  fold (failedFields parseFloat view c).
  destruct (failedFields parseFloat view c) as [| n] eqn:En.
  - unfold loopState. cbn [Nat.eqb Nat.iter nat_rect fst snd].
    split; [exact Hok |]. split; [| split].
    + intros id r H. destruct (Hrec id r H) as (H1 & H2 & ch & Hin & H3).
      split; [exact H1 |]. split; [exact H2 |]. exists ch.
      split; [apply in_or_app; left; exact Hin | exact H3].
    + intros ch Hin Hch Hf. apply in_app_or in Hin as [Hin | [<- | []]].
      * exact (Hdom ch Hin Hch Hf).
      * rewrite En in Hf. lia.
    + rewrite List.filter_app. simpl. rewrite Hen, sum_list_with_app.
      simpl. rewrite En, Hsum. lia.
  - unfold loopState. cbn [Nat.eqb fst snd]. split; [| split; [| split]].
    + split; [discriminate |]. intros E.
      pose proof (iter_countError_same n (ch_id c) pc) as Hl. cbv zeta in Hl.
      rewrite E, lookup_empty in Hl. discriminate Hl.
    + intros id r H. destruct (decide (id = ch_id c)) as [-> | Hne].
      * rewrite iter_countError_same in H. inversion H; subst r; clear H. simpl.
        assert (Hflag : Tsx.ce_ok (default {| Tsx.ce_ok := true; Tsx.ce_errors := 0 |}
                                     (pc !! ch_id c)) = true).
        { destruct (pc !! ch_id c) as [r0 |] eqn:E0; [| reflexivity].
          exact (proj1 (Hrec _ _ E0)). }
        split; [exact Hflag |]. split; [lia |]. exists c.
        split; [apply in_or_app; right; left; reflexivity |].
        split; [exact Hen |]. split; [reflexivity |]. rewrite En. lia.
      * rewrite iter_countError_other in H by exact Hne.
        destruct (Hrec id r H) as (H1 & H2 & ch & Hin & H3).
        split; [exact H1 |]. split; [exact H2 |]. exists ch.
        split; [apply in_or_app; left; exact Hin | exact H3].
    + intros ch Hin Hch Hf.
      destruct (decide (ch_id ch = ch_id c)) as [E | Hne].
      * rewrite E, iter_countError_same. eexists; reflexivity.
      * rewrite iter_countError_other by exact Hne.
        apply in_app_or in Hin as [Hin | [<- | []]]; [| contradiction Hne; reflexivity].
        exact (Hdom ch Hin Hch Hf).
    + rewrite totalErrorsOf_iter, List.filter_app. simpl.
      rewrite Hen, sum_list_with_app. simpl. rewrite En, Hsum. lia.
Qed.

Lemma loopState_foldl parseFloat view (l done : list Channel) res :
  loopState parseFloat view done res ->
  loopState parseFloat view (done ++ l) (foldl (step_ts parseFloat (measuresOf view)) res l).
Proof.
  revert done res. induction l as [| c l IH]; intros done res H.
  - rewrite app_nil_r. exact H.
  - simpl. replace (done ++ c :: l) with ((done ++ [c]) ++ l)
      by (rewrite <- app_assoc; reflexivity).
    apply IH, loopState_step, H.
Qed.

Lemma loopState_end parseFloat shared view :
  loopState parseFloat view (sh_channels shared)
    (foldl (step_ts parseFloat (measuresOf view)) (true, ∅) (sh_channels shared)).
Proof. exact (loopState_foldl parseFloat view (sh_channels shared) [] _ (loopState_start _ _)). Qed.

Lemma sum_list_at_most (f : Channel -> nat) (bound : nat) (l : list Channel) :
  (forall ch, (f ch <= bound)%nat) -> (sum_list_with f l <= bound * length l)%nat.
Proof.
  intros Hb. induction l as [| c l IH]; [simpl; lia |].
  simpl. pose proof (Hb c). lia.
Qed.

(** ** Error count, verdict and mark of the type-annotated edition *)

Lemma failedFields_unmeasured parseFloat view ch :
  measuresOf view !! ch_id ch = None -> failedFields parseFloat view ch = 5%nat.
Proof. intros H. unfold failedFields. rewrite H. reflexivity. Qed.

(** The type-annotated [doCheck] counts every failed field of every enabled
    channel, once: [erroriCount] is the sum over the enabled channels of the
    number of their fields that fail the comparison, at most five per
    channel; a channel without a measurement object counts five; and the
    overall [ok] holds exactly when the count is zero. *)
Theorem ts_check_counts_every_failed_field (parseFloat : string -> number)
    (shared : Shared) (view : View) :
  let r := Tsx.doCheck parseFloat shared view in
  let enabled := List.filter ch_enabled (sh_channels shared) in
  Tsx.r_erroriCount r = sum_list_with (failedFields parseFloat view) enabled /\
  (Tsx.r_ok r = true <-> Tsx.r_erroriCount r = 0%nat) /\
  (Tsx.r_erroriCount r <= 5 * length enabled)%nat /\
  (forall ch, measuresOf view !! ch_id ch = None -> failedFields parseFloat view ch = 5%nat).
Proof.
  intros r enabled. unfold r. rewrite doCheck_ts_result. cbv zeta. cbn [Tsx.r_erroriCount Tsx.r_ok].
  destruct (loopState_end parseFloat shared view) as (Hok & Hrec & Hdom & Hsum).
  fold enabled in Hsum.
  set (loop := foldl (step_ts parseFloat (measuresOf view)) (true, ∅) (sh_channels shared)) in *.
  split; [exact Hsum |]. split; [| split].
  - rewrite Hok. split.
    + intros ->. reflexivity.
    + intros Hzero. apply map_empty. intros id.
      destruct (snd loop !! id) as [rec |] eqn:E; [exfalso | reflexivity].
      destruct (Hrec id rec E) as (_ & _ & ch & Hin & Hen & _ & Hf).
      assert (Hmem : ch ∈ enabled).
      { apply list_elem_of_In, filter_In. split; assumption. }
      pose proof (sum_list_with_in ch (failedFields parseFloat view) enabled Hmem).
      rewrite <- Hsum in H. lia.
  - rewrite Hsum. rewrite Nat.mul_comm, Nat.mul_comm.
    apply sum_list_at_most. intros ch. apply errorsOf_at_most_5.
  - intros ch. apply failedFields_unmeasured.
Qed.

(** A record of the type-annotated [doCheck] is always a failure: the result
    holds a record for an id exactly when an enabled channel with this id has
    a failed field, and every record has [ok = false] and at least one
    error, so the page never shows "OK" beside a listed channel; a channel
    that passes is not listed. *)
Theorem ts_records_only_hold_failures (parseFloat : string -> number)
    (shared : Shared) (view : View) :
  let r := Tsx.doCheck parseFloat shared view in
  (forall id rec,
     Tsx.r_perChannel r !! id = Some rec ->
     Tsx.ce_ok rec = false /\ (1 <= Tsx.ce_errors rec)%nat) /\
  (forall id,
     is_Some (Tsx.r_perChannel r !! id) <->
     exists ch,
       In ch (sh_channels shared) /\ ch_enabled ch = true /\ ch_id ch = id /\
       (1 <= failedFields parseFloat view ch)%nat).
Proof.
  intros r. unfold r. rewrite doCheck_ts_result. cbv zeta. cbn [Tsx.r_perChannel].
  destruct (loopState_end parseFloat shared view) as (Hok & Hrec & Hdom & Hsum).
  set (loop := foldl (step_ts parseFloat (measuresOf view)) (true, ∅) (sh_channels shared)) in *.
  split.
  - intros id rec H. apply lookup_fmap_Some in H as (r0 & <- & H0).
    destruct (Hrec id r0 H0) as (_ & Hpos & _). unfold settle. simpl.
    split; [| exact Hpos]. destruct (Tsx.ce_errors r0); [lia | reflexivity].
  - intros id. rewrite lookup_fmap. split.
    + intros [rec H]. destruct (snd loop !! id) as [r0 |] eqn:E; [| discriminate H].
      destruct (Hrec id r0 E) as (_ & _ & ch & Hch). exists ch. exact Hch.
    + intros (ch & Hin & Hen & <- & Hf).
      destruct (Hdom ch Hin Hen Hf) as [r0 ->]. eexists; reflexivity.
Qed.

Lemma blankFields_at_most_4 view : (blankFields view <= 4)%nat.
Proof.
  unfold blankFields.
  destruct (String.eqb (v_name view) ""), (String.eqb (v_surname view) ""),
    (String.eqb (v_class view) ""), (String.eqb (v_date view) ""); simpl; lia.
Qed.

Lemma blankFields_zero view :
  blankFields view = 0%nat <->
  v_name view <> ""%string /\ v_surname view <> ""%string /\
  v_class view <> ""%string /\ v_date view <> ""%string.
Proof.
  unfold blankFields.
  destruct (String.eqb_spec (v_name view) ""), (String.eqb_spec (v_surname view) ""),
    (String.eqb_spec (v_class view) ""), (String.eqb_spec (v_date view) "");
    simpl; split; intros H; try lia; try tauto.
Qed.

Lemma score_formula (e d : nat) :
  score e d
  = (10 - Z.min 5 ((Z.of_nat e + 1) / 2) - (if Nat.eqb d 0 then 0 else 1))%Z.
Proof.
  unfold score. rewrite Nat.div2_div.
  replace (Z.of_nat (S e / 2)) with ((Z.of_nat e + 1) / 2)%Z
    by (rewrite Nat2Z.inj_div; f_equal; lia).
  destruct (Nat.eqb d 0); lia.
Qed.

(** The mark of the type-annotated [doCheck] is
    [10 − min(5, ⌈errors/2⌉)], less one point when any of name, surname,
    class and date is empty, however many of them are: it always lies
    between 4 and 10 (the guard [Math.max(0, …)] never takes effect), it is
    10 exactly when nothing failed and no personal data is missing, and a
    check in which nine or more fields failed still earns 5, or 4 with
    missing data. *)
Theorem ts_mark_lies_between_4_and_10 (parseFloat : string -> number)
    (shared : Shared) (view : View) :
  let r := Tsx.doCheck parseFloat shared view in
  let errors := Z.of_nat (Tsx.r_erroriCount r) in
  let penalty := if Nat.eqb (Tsx.r_datiMancanti r) 0 then 0%Z else 1%Z in
  Tsx.r_punteggio r = (10 - Z.min 5 ((errors + 1) / 2) - penalty)%Z /\
  (4 <= Tsx.r_punteggio r <= 10)%Z /\
  (Tsx.r_punteggio r = 10%Z <->
   Tsx.r_erroriCount r = 0%nat /\ Tsx.r_datiMancanti r = 0%nat) /\
  ((9 <= Tsx.r_erroriCount r)%nat -> Tsx.r_punteggio r = (5 - penalty)%Z) /\
  (Tsx.r_datiMancanti r <= 4)%nat /\
  (Tsx.r_datiMancanti r = 0%nat <->
   v_name view <> ""%string /\ v_surname view <> ""%string /\
   v_class view <> ""%string /\ v_date view <> ""%string).
Proof.
  intros r errors penalty. unfold penalty, errors, r. clear penalty errors r.
  rewrite doCheck_ts_result. cbv zeta.
  cbn [Tsx.r_punteggio Tsx.r_erroriCount Tsx.r_datiMancanti].
  set (e := totalErrorsOf _). set (d := blankFields view). clearbody e.
  rewrite score_formula.
  split; [reflexivity |].
  assert (Hhalf : (0 <= (Z.of_nat e + 1) / 2)%Z) by (apply Z.div_pos; lia).
  split; [destruct (Nat.eqb d 0); lia |].
  split; [| split; [| split; [apply blankFields_at_most_4 | apply blankFields_zero]]].
  - destruct (Nat.eqb_spec d 0) as [Hd | Hd]; cbv iota.
    + split.
      * intros H. split; [| exact Hd].
        assert (Hz : ((Z.of_nat e + 1) / 2 = 0)%Z) by lia.
        apply Z.div_small_iff in Hz; lia.
      * intros [He _]. rewrite He. reflexivity.
    + split; [lia | intros [_ H]; contradiction].
  - intros Hmany.
    assert (Hbig : (5 <= (Z.of_nat e + 1) / 2)%Z).
    { apply Z.div_le_lower_bound; lia. }
    destruct (Nat.eqb d 0); lia.
Qed.

(** ** Missing measurement objects *)

Lemma step_js_fails parseFloat shared view res c :
  In c (sh_channels shared) ->
  (step_js parseFloat shared view res c = None <->
   ch_enabled c = true /\ unmeasured view c).
Proof.
  intros Hin. unfold step_js, unmeasured.
  destruct (computeCorrect_member shared c Hin) as [corr Hcorr]. rewrite Hcorr.
  destruct (ch_enabled c); cbv beta iota delta [negb].
  - destruct (v_measures view) as [ms |]; [| tauto].
    destruct (ms !! ch_id c) as [user |]; [| tauto].
    destruct (Jsx.checkFields _ _ user corr) as [ok comp].
    split; [discriminate | intros [_ H]; discriminate H].
  - split; [discriminate | intros [H _]; discriminate H].
Qed.

Lemma forOf_js_fails parseFloat shared view (l : list Channel) :
  (forall c, In c l -> In c (sh_channels shared)) ->
  forall res,
    forOf l (step_js parseFloat shared view) res = None <->
    exists c, In c l /\ ch_enabled c = true /\ unmeasured view c.
Proof.
  induction l as [| c l IH]; intros Hsub res.
  - simpl. split; [discriminate | intros (c & [] & _)].
  - simpl. pose proof (step_js_fails parseFloat shared view res c
                         (Hsub c (or_introl eq_refl))) as Hc.
    destruct (step_js parseFloat shared view res c) as [res1 |].
    + rewrite (IH (fun d Hd => Hsub d (or_intror Hd)) res1). split.
      * intros (d & Hd & H). exists d. split; [right; exact Hd | exact H].
      * intros (d & [<- | Hd] & H).
        -- apply Hc in H. discriminate H.
        -- exists d. split; [exact Hd | exact H].
    + split; [| reflexivity]. intros _. exists c.
      split; [left; reflexivity | apply Hc; reflexivity].
Qed.

Lemma fails_ts_unmeasured parseFloat ch k : fails_ts parseFloat None ch k = true.
Proof. unfold fails_ts. apply fieldFails_not_finite. left. reflexivity. Qed.

(** A missing measurement object is an exception in the JavaScript edition
    and five errors in the type-annotated one: the JavaScript [doCheck]
    throws (and sets no result) exactly when the view has no measurement
    object for some enabled channel; the type-annotated [doCheck] always
    returns, and gives an enabled channel without measurement object, the
    only one of its id, a record of five errors. *)
Theorem doCheck_without_measurement_object (parseFloat : string -> number)
    (shared : Shared) (view : View) :
  (Jsx.doCheck parseFloat shared view = None <->
   exists ch, In ch (sh_channels shared) /\ ch_enabled ch = true /\ unmeasured view ch) /\
  (forall ch,
     placed shared ch -> ch_enabled ch = true ->
     measuresOf view !! ch_id ch = None ->
     Tsx.r_perChannel (Tsx.doCheck parseFloat shared view) !! ch_id ch
     = Some {| Tsx.ce_ok := false; Tsx.ce_errors := 5 |} /\
     Tsx.r_ok (Tsx.doCheck parseFloat shared view) = false).
Proof.
  split.
  - rewrite doCheck_js_unfold. apply forOf_js_fails. tauto.
  - intros ch Hpl Hen Hnone.
    destruct (doCheck_ts_channel parseFloat shared view ch Hpl Hen) as [Hrec Hok].
    cbv zeta in Hrec, Hok. fold (measuresOf view) in Hrec, Hok.
    rewrite Hnone in Hrec, Hok.
    change (errorsOf parseFloat None ch) with 5%nat in Hrec, Hok.
    split; [exact Hrec | apply Hok; discriminate].
Qed.

Lemma doCheck_without_measurement_object_witness :
  Jsx.doCheck parseTable (stateWith roundTripChannel) bareView = None.
Proof.
  apply (proj1 (doCheck_without_measurement_object parseTable (stateWith roundTripChannel)
                  bareView)).
  exists roundTripChannel. split; [left; reflexivity |]. split; reflexivity.
Defined.

(** ** No enabled channel *)

Lemma forOf_js_disabled parseFloat shared view (l : list Channel) res :
  Forall (fun ch => ch_enabled ch = false) l ->
  forOf l (step_js parseFloat shared view) res = Some res.
Proof.
  induction 1 as [| c l Hc _ IH]; [reflexivity |].
  simpl. unfold step_js at 1. rewrite Hc. exact IH.
Qed.

Lemma foldl_ts_disabled parseFloat measures (l : list Channel) res :
  Forall (fun ch => ch_enabled ch = false) l ->
  foldl (step_ts parseFloat measures) res l = res.
Proof.
  induction 1 as [| c l Hc _ IH]; [reflexivity |].
  simpl. unfold step_ts at 2. rewrite Hc. exact IH.
Qed.

(** With no enabled channel the check passes without looking at the view:
    the JavaScript [doCheck] returns [ok = true] with no record, also for a
    view without measurement objects, and the type-annotated [doCheck]
    returns [ok = true], no record, no error and the mark 10, or 9 when a
    personal data field is empty. *)
Theorem check_without_enabled_channels (parseFloat : string -> number)
    (shared : Shared) (view : View) :
  Forall (fun ch => ch_enabled ch = false) (sh_channels shared) ->
  Jsx.doCheck parseFloat shared view
  = Some {| Jsx.r_ok := true; Jsx.r_perChannel := ∅ |} /\
  Tsx.doCheck parseFloat shared view
  = {| Tsx.r_ok := true;
       Tsx.r_perChannel := ∅;
       Tsx.r_punteggio := if Nat.eqb (blankFields view) 0 then 10%Z else 9%Z;
       Tsx.r_erroriCount := 0;
       Tsx.r_datiMancanti := blankFields view |}.
Proof.
  intros Hoff. split.
  - rewrite doCheck_js_unfold. apply forOf_js_disabled, Hoff.
  - rewrite doCheck_ts_result. cbv zeta.
    rewrite (foldl_ts_disabled _ _ _ _ Hoff). cbn [fst snd].
    unfold totalErrorsOf. rewrite map_fold_empty, fmap_empty.
    unfold score. destruct (Nat.eqb (blankFields view) 0); reflexivity.
Qed.

Lemma check_without_enabled_channels_witness :
  Jsx.doCheck parseTable (stateWith idleChannel) bareView
  = Some {| Jsx.r_ok := true; Jsx.r_perChannel := ∅ |}.
Proof.
  refine (proj1 (check_without_enabled_channels parseTable _ bareView _)).
  repeat constructor.
Defined.

(** ** Reference values *)

Lemma references_agree ch k :
  sameReference ch -> reference k (Jsx.correctFor ch) = reference k (Tsx.corr ch).
Proof.
  intros Hsame. unfold sameReference in Hsame. unfold Jsx.correctFor, Tsx.corr.
  destruct (String.eqb (ch_waveform ch) "sine");
    [destruct k; simpl; try reflexivity; f_equal; lra |].
  destruct (String.eqb (ch_waveform ch) "square");
    [destruct k; simpl; try reflexivity; f_equal; lra |].
  destruct (String.eqb_spec (ch_waveform ch) "noise") as [Hn | _].
  - rewrite (Hsame Hn). destruct k; simpl; try reflexivity; f_equal; lra.
  - destruct k; simpl; try reflexivity; f_equal; lra.
Qed.

Lemma correctFor_freq ch :
  c_freq (Jsx.correctFor ch)
  = Fin (if String.eqb (ch_waveform ch) "noise" then 0 else ch_frequency ch).
Proof.
  unfold Jsx.correctFor.
  destruct (String.eqb_spec (ch_waveform ch) "sine") as [E | _];
    [rewrite E; reflexivity |].
  destruct (String.eqb_spec (ch_waveform ch) "square") as [E | _];
    [rewrite E; reflexivity |].
  destruct (String.eqb (ch_waveform ch) "noise"); reflexivity.
Qed.

Lemma correctFor_voltages ch :
  c_vmax (Jsx.correctFor ch) = Fin (ch_dc ch + ch_amplitude ch) /\
  c_vmin (Jsx.correctFor ch) = Fin (ch_dc ch - ch_amplitude ch) /\
  c_vpp (Jsx.correctFor ch) = Fin (2 * ch_amplitude ch).
Proof.
  unfold Jsx.correctFor.
  destruct (String.eqb (ch_waveform ch) "sine"); [repeat split |].
  destruct (String.eqb (ch_waveform ch) "square"); repeat split.
Qed.

(** The reference values of a channel: in both editions, for every waveform,
    [vmax = dc + A], [vmin = dc − A] and [vpp = 2A = vmax − vmin]; the
    reference period is [1/freq] when the reference frequency is positive and
    infinite otherwise; and the two editions use the same five values
    exactly for the channels that are not noise channels with a frequency
    field other than 0. *)
Theorem reference_values_of_a_channel (ch : Channel) :
  let js := Jsx.correctFor ch in
  let ts := Tsx.corr ch in
  (c_vmax js = Fin (ch_dc ch + ch_amplitude ch) /\ c_vmax ts = c_vmax js) /\
  (c_vmin js = Fin (ch_dc ch - ch_amplitude ch) /\ c_vmin ts = c_vmin js) /\
  (c_vpp js = Fin ((ch_dc ch + ch_amplitude ch) - (ch_dc ch - ch_amplitude ch)) /\
   c_vpp ts = c_vpp js) /\
  (exists fj, c_freq js = Fin fj /\
              c_period js = (if gtb fj 0 then Fin (1 / fj) else Infinity) /\
              (0 < fj -> 1 / fj * fj = 1)) /\
  (c_freq ts = Fin (ch_frequency ch) /\
   c_period ts = (if gtb (ch_frequency ch) 0 then Fin (1 / ch_frequency ch) else Infinity)) /\
  ((forall k, reference k js = reference k ts) <->
   (ch_waveform ch = "noise"%string -> ch_frequency ch = 0)).
Proof.
  intros js ts. destruct (correctFor_voltages ch) as (Hmax & Hmin & Hpp).
  split; [split; [exact Hmax | unfold js; rewrite Hmax; simpl; f_equal; lra] |].
  split; [split; [exact Hmin | unfold js; rewrite Hmin; simpl; f_equal; lra] |].
  split; [split; [unfold js; rewrite Hpp; f_equal; lra | unfold js; rewrite Hpp; reflexivity] |].
  split; [| split; [split; reflexivity |]].
  - exists (if String.eqb (ch_waveform ch) "noise" then 0 else ch_frequency ch).
    split; [apply correctFor_freq |]. split.
    + unfold js. rewrite correctFor_period. cbv zeta.
      destruct (String.eqb_spec (ch_waveform ch) "sine") as [E | _];
        [rewrite E; reflexivity |].
      destruct (String.eqb_spec (ch_waveform ch) "square") as [E | _];
        [rewrite E; reflexivity |].
      reflexivity.
    + intros Hpos. field. lra.
  - split; [| intros H k; apply references_agree; exact H].
    intros Hall Hn. specialize (Hall freq). cbn [reference] in Hall.
    unfold js in Hall. rewrite correctFor_freq, Hn in Hall.
    simpl in Hall. inversion Hall. reflexivity.
Qed.

(** ** [computeCorrect] *)

Lemma foldl_insert_last (id : Z) (l : list Channel) (m : gmap Z Correct) :
  foldl (fun map ch => <[ch_id ch := Jsx.correctFor ch]> map) m l !! id
  = match last (List.filter (fun ch => Z.eqb (ch_id ch) id) l) with
    | Some ch => Some (Jsx.correctFor ch)
    | None => m !! id
    end.
Proof.
  revert m. induction l as [| c l IH]; intros m; [reflexivity |].
  simpl foldl. rewrite IH. simpl List.filter.
  destruct (Z.eqb_spec (ch_id c) id) as [E | E].
  - rewrite last_cons.
    destruct (last (List.filter (fun ch => Z.eqb (ch_id ch) id) l)); [reflexivity |].
    rewrite E. apply lookup_insert_eq.
  - destruct (last (List.filter (fun ch => Z.eqb (ch_id ch) id) l)); [reflexivity |].
    apply lookup_insert_ne. exact E.
Qed.

(** [computeCorrect] keeps one entry per channel id, enabled or not, and the
    last channel of an id wins: the entry of [id] is the reference of the
    last channel of the list whose id is [id], and there is none when no
    channel has this id. *)
Theorem computeCorrect_keeps_the_last_channel_of_an_id (shared : Shared) (id : Z) :
  Jsx.computeCorrect shared !! id
  = Jsx.correctFor <$> last (List.filter (fun ch => Z.eqb (ch_id ch) id) (sh_channels shared))
  /\ (is_Some (Jsx.computeCorrect shared !! id) <->
      exists ch, In ch (sh_channels shared) /\ ch_id ch = id).
Proof.
  assert (H : Jsx.computeCorrect shared !! id
              = Jsx.correctFor
                  <$> last (List.filter (fun ch => Z.eqb (ch_id ch) id) (sh_channels shared))).
  { unfold Jsx.computeCorrect. rewrite foldl_insert_last.
    destruct (last _); [reflexivity | apply lookup_empty]. }
  split; [exact H |]. rewrite H. split.
  - intros [corr Hc].
    destruct (last (List.filter (fun ch => Z.eqb (ch_id ch) id) (sh_channels shared)))
      as [ch |] eqn:E; [| discriminate Hc].
    apply last_Some_elem_of, list_elem_of_In, filter_In in E as [Hin Hid].
    exists ch. split; [exact Hin | apply Z.eqb_eq, Hid].
  - intros (ch & Hin & Hid).
    assert (Hmem : In ch (List.filter (fun ch => Z.eqb (ch_id ch) id) (sh_channels shared))).
    { apply filter_In. split; [exact Hin | apply Z.eqb_eq, Hid]. }
    destruct (List.filter (fun ch => Z.eqb (ch_id ch) id) (sh_channels shared)) as [| c l];
      [destruct Hmem |].
    rewrite last_cons. destruct (last l); eexists; reflexivity.
Qed.

(** ** The accepted interval *)

(** The entries a field accepts form an interval around the reference: for a
    finite reference [c], a finite entry [u] passes in both editions exactly
    when [c − tol·(|c| + 1e−9) <= u <= c + tol·(|c| + 1e−9)].  When the
    reference is 0 the interval shrinks to [|u| <= tol·1e−9], at most
    [5e−11]: a reference of zero accepts, in practice, only the entry 0. *)
Theorem accepted_entries_form_an_interval (u c tol : R) :
  let margin := tol * (Rabs c + 1e-9) in
  (Jsx.fieldPass (Fin u) (Fin c) tol = true <-> c - margin <= u <= c + margin) /\
  (Tsx.fieldFails (Fin u) (Fin c) tol = false <-> c - margin <= u <= c + margin) /\
  (c = 0 -> tol <= 0.05 ->
   Jsx.fieldPass (Fin u) (Fin c) tol = true -> Rabs u <= 5e-11).
Proof.
  intros margin.
  assert (Hpos : 0 < Rabs c + 1e-9) by (pose proof (Rabs_pos c); lra).
  assert (Hrule : Jsx.fieldPass (Fin u) (Fin c) tol = true <-> c - margin <= u <= c + margin).
  { rewrite fieldPass_finite, leb_true_iff. unfold relativeError.
    rewrite (div_le_iff _ _ _ Hpos). fold margin.
    unfold Rabs at 1. destruct (Rcase_abs (u - c)); split; intros H; lra. }
  split; [exact Hrule |]. split.
  - rewrite fieldFails_fieldPass, negb_false_iff. exact Hrule.
  - intros Hc Htol H. apply Hrule in H. unfold margin in H. rewrite Hc in H.
    rewrite Rabs_R0 in H. unfold Rabs. destruct (Rcase_abs u); lra.
Qed.

(** ** The verdicts of the two editions *)

Lemma NoDup_placed shared ch :
  NoDup (ch_id <$> sh_channels shared) -> In ch (sh_channels shared) -> placed shared ch.
Proof.
  intros Hnd Hin. destruct (in_split _ _ Hin) as (pre & post & E).
  exists pre, post. split; [exact E |].
  rewrite E, fmap_app, fmap_cons in Hnd.
  apply NoDup_app in Hnd as (_ & Hpre & Hpost).
  apply NoDup_cons in Hpost as [Hpost _].
  apply Forall_app. split; apply Forall_forall; intros c Hc Heq.
  - apply (Hpre (ch_id c)).
    + apply list_elem_of_fmap. exists c. split; [reflexivity | exact Hc].
    + rewrite Heq. left.
  - apply Hpost. apply list_elem_of_fmap. exists c.
    split; [symmetry; exact Heq | exact Hc].
Qed.

Lemma forOf_js_ok parseFloat shared view ms (l : list Channel) :
  v_measures view = Some ms ->
  (forall c, In c l -> Jsx.computeCorrect shared !! ch_id c = Some (Jsx.correctFor c)) ->
  forall res res',
    forOf l (step_js parseFloat shared view) res = Some res' ->
    (Jsx.r_ok res' = true <->
     Jsx.r_ok res = true /\
     forall c, In c l -> ch_enabled c = true ->
               exists user, ms !! ch_id c = Some user /\
                            forallb (pass_js parseFloat user c) allFields = true).
Proof.
  intros Hms. induction l as [| c l IH]; intros Hcorr res res' H.
  - inversion H; subst. split; [intros Hok; split; [exact Hok | intros c []] | tauto].
  - simpl in H.
    destruct (step_js parseFloat shared view res c) as [res1 |] eqn:E1; [| discriminate H].
    rewrite (IH (fun d Hd => Hcorr d (or_intror Hd)) res1 res' H). clear IH H.
    unfold step_js in E1. rewrite Hms, (Hcorr c (or_introl eq_refl)) in E1.
    destruct (ch_enabled c) eqn:Hen; cbv beta iota delta [negb] in E1.
    + destruct (ms !! ch_id c) as [user |] eqn:Eu; [| discriminate E1].
      rewrite checkFields_js in E1.
      remember (forallb (pass_js parseFloat user c) allFields) as ok eqn:Hdef.
      injection E1 as <-. cbn [Jsx.r_ok].
      split.
      * intros [Hok Hrest]. destruct ok; [| discriminate Hok].
        split; [exact Hok |]. intros d [<- | Hd] Hd_en.
        -- exists user. split; [exact Eu | symmetry; exact Hdef].
        -- exact (Hrest d Hd Hd_en).
      * intros [Hok Hall].
        destruct (Hall c (or_introl eq_refl) Hen) as (user' & Eu' & Hpass).
        rewrite Eu in Eu'. injection Eu' as <-. rewrite Hpass in Hdef. subst ok.
        split; [exact Hok |]. intros d Hd. apply Hall. right. exact Hd.
    + injection E1 as <-. split.
      * intros [Hok Hrest]. split; [exact Hok |]. intros d [<- | Hd] Hd_en.
        -- rewrite Hen in Hd_en. discriminate Hd_en.
        -- exact (Hrest d Hd Hd_en).
      * intros [Hok Hall]. split; [exact Hok |]. intros d Hd. apply Hall. right. exact Hd.
Qed.

Lemma ts_ok_iff parseFloat shared view :
  Tsx.r_ok (Tsx.doCheck parseFloat shared view) = true <->
  forall c, In c (sh_channels shared) -> ch_enabled c = true ->
            failedFields parseFloat view c = 0%nat.
Proof.
  rewrite doCheck_ts_result. cbv zeta. cbn [Tsx.r_ok].
  destruct (loopState_end parseFloat shared view) as (Hok & Hrec & Hdom & _).
  set (loop := foldl (step_ts parseFloat (measuresOf view)) (true, ∅) (sh_channels shared)) in *.
  rewrite Hok. split.
  - intros Hempty c Hin Hen.
    destruct (failedFields parseFloat view c) as [| n] eqn:En; [reflexivity | exfalso].
    destruct (Hdom c Hin Hen ltac:(rewrite En; lia)) as [r Hr].
    rewrite Hempty, lookup_empty in Hr. discriminate Hr.
  - intros Hall. apply map_empty. intros id.
    destruct (snd loop !! id) as [r |] eqn:E; [exfalso | reflexivity].
    destruct (Hrec id r E) as (_ & _ & c & Hin & Hen & _ & Hf).
    rewrite (Hall c Hin Hen) in Hf. lia.
Qed.

Lemma fails_pass_agree parseFloat user ch k :
  sameReference ch ->
  fails_ts parseFloat (Some user) ch k = negb (pass_js parseFloat user ch k).
Proof.
  intros Hsame. unfold fails_ts, pass_js.
  rewrite fieldFails_fieldPass, (references_agree ch k Hsame). reflexivity.
Qed.

Lemma failed_count_agrees parseFloat user ch :
  sameReference ch ->
  errorsOf parseFloat (Some user) ch
  = failedMarks {| Jsx.cc_ok := forallb (pass_js parseFloat user ch) allFields;
                   Jsx.cc_comp := map (fun k => (k, pass_js parseFloat user ch k)) allFields |}.
Proof.
  intros Hsame. unfold errorsOf, failedMarks, allFields. cbn [Jsx.cc_comp map List.filter snd].
  rewrite !(fails_pass_agree _ _ _ _ Hsame).
  destruct (pass_js _ _ _ vmax), (pass_js _ _ _ vmin), (pass_js _ _ _ vpp),
    (pass_js _ _ _ period), (pass_js _ _ _ freq); reflexivity.
Qed.

Lemma no_failure_iff_all_pass parseFloat user ch :
  sameReference ch ->
  (errorsOf parseFloat (Some user) ch = 0%nat <->
   forallb (pass_js parseFloat user ch) allFields = true).
Proof.
  intros Hsame. unfold errorsOf, allFields. cbn [List.filter forallb].
  rewrite !(fails_pass_agree _ _ _ _ Hsame).
  destruct (pass_js _ _ _ vmax), (pass_js _ _ _ vmin), (pass_js _ _ _ vpp),
    (pass_js _ _ _ period), (pass_js _ _ _ freq); simpl; split; intros H;
    first [reflexivity | discriminate H].
Qed.

(** The two editions give the same verdict whenever they use the same
    reference values: when the channel ids are distinct, the view holds a
    measurement object for every enabled channel and no enabled channel is a
    noise channel with a frequency field other than 0, the JavaScript
    [doCheck] returns a result whose overall [ok] equals that of the
    type-annotated [doCheck], and for every enabled channel its record marks
    as many fields failed as the type-annotated edition counts errors; the
    channel is [ok] in the one exactly when it has no record in the other. *)
Theorem editions_give_the_same_verdict (parseFloat : string -> number)
    (shared : Shared) (view : View) (ms : gmap Z Measures) :
  NoDup (ch_id <$> sh_channels shared) ->
  measured shared view ms ->
  Forall (fun ch => ch_enabled ch = true -> sameReference ch) (sh_channels shared) ->
  exists res,
    Jsx.doCheck parseFloat shared view = Some res /\
    Jsx.r_ok res = Tsx.r_ok (Tsx.doCheck parseFloat shared view) /\
    Tsx.r_erroriCount (Tsx.doCheck parseFloat shared view)
    = sum_list_with (fun ch => from_option failedMarks 0%nat (Jsx.r_perChannel res !! ch_id ch))
        (List.filter ch_enabled (sh_channels shared)) /\
    forall ch,
      In ch (sh_channels shared) -> ch_enabled ch = true ->
      exists rec,
        Jsx.r_perChannel res !! ch_id ch = Some rec /\
        failedMarks rec = failedFields parseFloat view ch /\
        (Jsx.cc_ok rec = true <->
         Tsx.r_perChannel (Tsx.doCheck parseFloat shared view) !! ch_id ch = None).
Proof.
  intros Hnd Hmeas Hsame0. pose proof Hmeas as [Hms Hall0].
  assert (Hall : forall c, In c (sh_channels shared) -> ch_enabled c = true ->
                           is_Some (ms !! ch_id c)).
  { intros c Hc. rewrite Forall_forall in Hall0. apply Hall0, list_elem_of_In, Hc. }
  assert (Hsame : forall c, In c (sh_channels shared) -> ch_enabled c = true ->
                            sameReference c).
  { intros c Hc. rewrite Forall_forall in Hsame0. apply Hsame0, list_elem_of_In, Hc. }
  clear Hall0 Hsame0.
  assert (Hret : exists res, Jsx.doCheck parseFloat shared view = Some res).
  { destruct (Jsx.doCheck parseFloat shared view) as [res |] eqn:E; [exists res; reflexivity |].
    apply (proj1 (forOf_js_fails parseFloat shared view (sh_channels shared)
                    (fun c Hc => Hc) _)) in E as (c & Hin & Hen & Hun).
    unfold unmeasured in Hun. rewrite Hms in Hun.
    destruct (Hall c Hin Hen) as [user Hu]. rewrite Hu in Hun. discriminate Hun. }
  destruct Hret as [res Hres]. exists res. split; [exact Hres |].
  assert (Hchan : forall ch,
             In ch (sh_channels shared) -> ch_enabled ch = true ->
             exists rec,
               Jsx.r_perChannel res !! ch_id ch = Some rec /\
               failedMarks rec = failedFields parseFloat view ch /\
               (Jsx.cc_ok rec = true <->
                Tsx.r_perChannel (Tsx.doCheck parseFloat shared view) !! ch_id ch = None)).
  { intros ch Hin Hen. pose proof (NoDup_placed shared ch Hnd Hin) as Hpl.
    destruct (Hall ch Hin Hen) as [user Hu].
    destruct (doCheck_js_channel parseFloat shared view ms ch user Hpl Hmeas Hen Hu)
      as (res0 & Hres0 & Hrec & _).
    rewrite Hres in Hres0. inversion Hres0; subst res0; clear Hres0.
    destruct (doCheck_ts_channel parseFloat shared view ch Hpl Hen) as [Hts _].
    cbv zeta in Hts. rewrite Hms in Hts. simpl default in Hts. rewrite Hu in Hts.
    assert (Hf : failedFields parseFloat view ch = errorsOf parseFloat (Some user) ch).
    { unfold failedFields, measuresOf. rewrite Hms. simpl default. rewrite Hu. reflexivity. }
    eexists. split; [exact Hrec |]. split.
    - rewrite Hf. symmetry. apply failed_count_agrees, Hsame; assumption.
    - cbn [Jsx.cc_ok]. rewrite Hts.
      rewrite <- (no_failure_iff_all_pass parseFloat user ch (Hsame ch Hin Hen)).
      destruct (errorsOf parseFloat (Some user) ch); split; intros H;
        first [reflexivity | discriminate H]. }
  split; [| split; [| exact Hchan]].
  - assert (Hjs : Jsx.r_ok res = true <->
                  forall c, In c (sh_channels shared) -> ch_enabled c = true ->
                            failedFields parseFloat view c = 0%nat).
    { rewrite doCheck_js_unfold in Hres.
      rewrite (forOf_js_ok parseFloat shared view ms (sh_channels shared) Hms
                 (fun c Hc => computeCorrect_placed shared c (NoDup_placed shared c Hnd Hc))
                 _ _ Hres).
      split.
      - intros [_ Hpass] c Hin Hen. destruct (Hpass c Hin Hen) as (user & Hu & Hp).
        unfold failedFields, measuresOf. rewrite Hms. simpl default. rewrite Hu.
        apply no_failure_iff_all_pass; [apply Hsame; assumption | exact Hp].
      - intros Hzero. split; [reflexivity |]. intros c Hin Hen.
        destruct (Hall c Hin Hen) as [user Hu]. exists user. split; [exact Hu |].
        apply no_failure_iff_all_pass; [apply Hsame; assumption |].
        specialize (Hzero c Hin Hen).
        unfold failedFields, measuresOf in Hzero. rewrite Hms in Hzero.
        simpl default in Hzero. rewrite Hu in Hzero. exact Hzero. }
    pose proof (ts_ok_iff parseFloat shared view) as Hts.
    destruct (Jsx.r_ok res), (Tsx.r_ok (Tsx.doCheck parseFloat shared view));
      try reflexivity.
    + symmetry. apply Hts, Hjs. reflexivity.
    + apply Hjs, Hts. reflexivity.
  - rewrite doCheck_ts_result. cbv zeta. cbn [Tsx.r_erroriCount].
    destruct (loopState_end parseFloat shared view) as (_ & _ & _ & Hsum).
    rewrite Hsum. clear Hsum.
    assert (Hsub : forall c, In c (List.filter ch_enabled (sh_channels shared)) ->
                             In c (sh_channels shared) /\ ch_enabled c = true)
      by (intros c Hc; apply filter_In in Hc; exact Hc).
    induction (List.filter ch_enabled (sh_channels shared)) as [| c l IH]; [reflexivity |].
    simpl. rewrite IH by (intros d Hd; apply Hsub; right; exact Hd).
    destruct (Hsub c (or_introl eq_refl)) as [Hin Hen].
    destruct (Hchan c Hin Hen) as (rec & Hrec & Hmarks & _).
    rewrite Hrec. simpl. rewrite Hmarks. reflexivity.
Qed.

Lemma NoDup_stateWith ch : ch_id ch = 1%Z -> NoDup (ch_id <$> sh_channels (stateWith ch)).
Proof.
  intros H. simpl. rewrite H.
  repeat (apply NoDup_cons; split; [rewrite ?elem_of_cons, ?elem_of_nil; intuition lia |]).
  apply NoDup_nil. exact I.
Qed.

Lemma editions_give_the_same_verdict_witness :
  exists res,
    Jsx.doCheck parseTable (stateWith roundTripChannel) (viewWith roundTripEntries) = Some res /\
    Jsx.r_ok res
    = Tsx.r_ok (Tsx.doCheck parseTable (stateWith roundTripChannel) (viewWith roundTripEntries)).
Proof.
  destruct (editions_give_the_same_verdict parseTable (stateWith roundTripChannel)
              (viewWith roundTripEntries) (entriesOf roundTripEntries)
              (NoDup_stateWith roundTripChannel eq_refl)
              (measured_viewWith roundTripChannel roundTripEntries eq_refl))
    as (res & Hres & Hok & _).
  - unfold stateWith. cbn [sh_channels].
    repeat constructor; intros _ H; discriminate H.
  - exists res. split; [exact Hres | exact Hok].
Defined.

(** * Properties of [setMeasure] *)

Lemma entry_setField_same k v m : entry k (Tsx.setField k v m) = v.
Proof. destruct k; reflexivity. Qed.

Lemma entry_setField_other k k' v m : k' <> k -> entry k' (Tsx.setField k v m) = entry k' m.
Proof. intros H. destruct k, k'; try reflexivity; contradiction H; reflexivity. Qed.

Lemma setField_twice k v v' m : Tsx.setField k v' (Tsx.setField k v m) = Tsx.setField k v' m.
Proof. destruct k; reflexivity. Qed.

Lemma setField_commute k1 k2 v1 v2 m :
  k1 <> k2 ->
  Tsx.setField k1 v1 (Tsx.setField k2 v2 m) = Tsx.setField k2 v2 (Tsx.setField k1 v1 m).
Proof. intros H. destruct k1, k2; try reflexivity; contradiction H; reflexivity. Qed.

Lemma measuresOf_setMeasure chId k v s :
  measuresOf (Tsx.setMeasure chId k v s)
  = <[chId := Tsx.setField k v (default blankMeasures (measuresOf s !! chId))]> (measuresOf s).
Proof. reflexivity. Qed.

Lemma setMeasure_view chId k v s :
  Tsx.setMeasure chId k v s
  = {| v_vPerDiv := v_vPerDiv s;
       v_sPerDiv := v_sPerDiv s;
       v_vOffset := v_vOffset s;
       v_tOffset := v_tOffset s;
       v_name := v_name s;
       v_surname := v_surname s;
       v_class := v_class s;
       v_date := v_date s;
       v_measures := Some (measuresOf (Tsx.setMeasure chId k v s)) |}.
Proof. reflexivity. Qed.

(** [setMeasure(chId, k, v)] writes one field and nothing else: afterwards
    the view holds a measurement object for [chId] whose field [k] is [v] and
    whose other fields are those it had before (blank if the object, or the
    whole [measures] object, was missing); the objects of the other channels
    and the rest of the view are unchanged; writing the same field again
    keeps only the last text, and writes to different fields or channels
    commute. *)
Theorem setMeasure_writes_one_field (chId : Z) (k : Field) (v : string) (s : View) :
  let s' := Tsx.setMeasure chId k v s in
  let before := default blankMeasures (measuresOf s !! chId) in
  (exists m,
     v_measures s' = Some (measuresOf s') /\
     measuresOf s' !! chId = Some m /\
     entry k m = v /\
     forall k', k' <> k -> entry k' m = entry k' before) /\
  (forall id, id <> chId -> measuresOf s' !! id = measuresOf s !! id) /\
  (v_vPerDiv s' = v_vPerDiv s /\ v_sPerDiv s' = v_sPerDiv s /\
   v_vOffset s' = v_vOffset s /\ v_tOffset s' = v_tOffset s /\
   v_name s' = v_name s /\ v_surname s' = v_surname s /\
   v_class s' = v_class s /\ v_date s' = v_date s) /\
  (forall v', Tsx.setMeasure chId k v' s' = Tsx.setMeasure chId k v' s) /\
  (forall chId2 k2 v2,
     chId2 <> chId \/ k2 <> k ->
     Tsx.setMeasure chId2 k2 v2 s' = Tsx.setMeasure chId k v (Tsx.setMeasure chId2 k2 v2 s)).
Proof.
  intros s' before.
  split; [| split; [| split; [repeat split | split]]].
  - exists (Tsx.setField k v before). split; [reflexivity |].
    split; [unfold s'; rewrite measuresOf_setMeasure; apply lookup_insert_eq |].
    split; [apply entry_setField_same | intros k' Hk; apply entry_setField_other, Hk].
  - intros id Hid. unfold s'. rewrite measuresOf_setMeasure.
    apply lookup_insert_ne. congruence.
  - intros v'. unfold s'.
    rewrite (setMeasure_view chId k v' (Tsx.setMeasure chId k v s)).
    rewrite (setMeasure_view chId k v' s).
    cbn [v_vPerDiv v_sPerDiv v_vOffset v_tOffset v_name v_surname v_class v_date
         Tsx.setMeasure].
    do 2 f_equal. rewrite !measuresOf_setMeasure.
    rewrite lookup_insert_eq. simpl default. rewrite setField_twice.
    apply insert_insert_eq.
  - intros chId2 k2 v2 Hne. unfold s'.
    rewrite (setMeasure_view chId2 k2 v2 (Tsx.setMeasure chId k v s)).
    rewrite (setMeasure_view chId k v (Tsx.setMeasure chId2 k2 v2 s)).
    cbn [v_vPerDiv v_sPerDiv v_vOffset v_tOffset v_name v_surname v_class v_date
         Tsx.setMeasure].
    do 2 f_equal. rewrite !measuresOf_setMeasure.
    destruct (decide (chId2 = chId)) as [-> | Hid].
    + destruct Hne as [Hne | Hk]; [contradiction Hne; reflexivity |].
      rewrite !lookup_insert_eq. simpl default.
      rewrite !insert_insert_eq. f_equal. apply setField_commute. exact Hk.
    + rewrite !lookup_insert_ne by congruence.
      apply insert_insert_ne. exact Hid.
Qed.

(** ** Typing the entries of a channel *)

Lemma typeEntries_measures chId m s :
  measuresOf (typeEntries chId m s) = <[chId := m]> (measuresOf s).
Proof.
  unfold typeEntries, allFields. cbn [foldl entry].
  rewrite !measuresOf_setMeasure, !lookup_insert_eq. simpl default.
  rewrite !insert_insert_eq. f_equal. destruct m. reflexivity.
Qed.

Lemma failedFields_typed_other parseFloat chId m view c :
  ch_id c <> chId ->
  failedFields parseFloat (typeEntries chId m view) c = failedFields parseFloat view c.
Proof.
  intros H. unfold failedFields. rewrite typeEntries_measures.
  rewrite lookup_insert_ne by congruence. reflexivity.
Qed.

Lemma fieldFails_exact (x y tol : R) :
  x = y -> 0 <= tol -> Tsx.fieldFails (Fin x) (Fin y) tol = false.
Proof.
  intros Hxy Ht. rewrite fieldFails_fieldPass, fieldPass_exact by assumption. reflexivity.
Qed.

Lemma tolerance_nonneg k : 0 <= tolerance k.
Proof. destruct k; simpl; lra. Qed.

Lemma references_finite ch k :
  0 < ch_frequency ch -> exists x, reference k (Tsx.corr ch) = Fin x.
Proof.
  intros Hf. destruct k; simpl; try (eexists; reflexivity).
  rewrite gtb_true by exact Hf. eexists; reflexivity.
Qed.

Lemma sum_enabled_split (f g : Channel -> nat) (ch : Channel) (pre post : list Channel) :
  ch_enabled ch = true ->
  (forall c, In c (pre ++ post) -> f c = g c) ->
  f ch = 0%nat ->
  (sum_list_with f (List.filter ch_enabled (pre ++ ch :: post)) + g ch)%nat
  = sum_list_with g (List.filter ch_enabled (pre ++ ch :: post)).
Proof.
  intros Hen Hsame Hzero.
  assert (Hl : forall l, (forall c, In c l -> f c = g c) ->
                         sum_list_with f (List.filter ch_enabled l)
                         = sum_list_with g (List.filter ch_enabled l)).
  { induction l as [| c l IH]; intros H; [reflexivity |].
    simpl. destruct (ch_enabled c).
    - simpl. rewrite (H c (or_introl eq_refl)), IH; [reflexivity |].
      intros d Hd. apply H. right. exact Hd.
    - apply IH. intros d Hd. apply H. right. exact Hd. }
  rewrite !List.filter_app. simpl. rewrite Hen, !sum_list_with_app. simpl.
  rewrite Hzero.
  rewrite (Hl pre) by (intros c Hc; apply Hsame, in_or_app; left; exact Hc).
  rewrite (Hl post) by (intros c Hc; apply Hsame, in_or_app; right; exact Hc).
  lia.
Qed.

(** Typing the reference values of a channel clears exactly that channel:
    when an enabled channel of positive frequency, the only one of its id,
    gets its five fields typed through [setMeasure] with texts that parse to
    its reference values, the type-annotated [doCheck] has no record for it
    any more, whatever the view held before (also no [measures] object at
    all); the failed fields of the other channels are unchanged and the error
    count drops by the number of fields the channel failed before. *)
Theorem typed_reference_values_clear_the_channel (parseFloat : string -> number)
    (shared : Shared) (view : View) (ch : Channel) (m : Measures) :
  placed shared ch ->
  ch_enabled ch = true ->
  0 < ch_frequency ch ->
  (forall k, parseFloat (entry k m) = reference k (Tsx.corr ch)) ->
  let view' := typeEntries (ch_id ch) m view in
  measuresOf view' !! ch_id ch = Some m /\
  Tsx.r_perChannel (Tsx.doCheck parseFloat shared view') !! ch_id ch = None /\
  (forall c, ch_id c <> ch_id ch ->
             failedFields parseFloat view' c = failedFields parseFloat view c) /\
  (Tsx.r_erroriCount (Tsx.doCheck parseFloat shared view')
   + failedFields parseFloat view ch)%nat
  = Tsx.r_erroriCount (Tsx.doCheck parseFloat shared view).
Proof.
  intros Hpl Hen Hf Hparse view'.
  assert (Hm : measuresOf view' !! ch_id ch = Some m).
  { unfold view'. rewrite typeEntries_measures. apply lookup_insert_eq. }
  assert (Hzero : failedFields parseFloat view' ch = 0%nat).
  { unfold failedFields. rewrite Hm. unfold errorsOf.
    assert (Hnone : forall k, fails_ts parseFloat (Some m) ch k = false).
    { intros k. unfold fails_ts. rewrite Hparse.
      destruct (references_finite ch k Hf) as [x ->].
      apply fieldFails_exact; [reflexivity | apply tolerance_nonneg]. }
    unfold allFields. cbn [List.filter]. rewrite !Hnone. reflexivity. }
  split; [exact Hm |]. split; [| split].
  - destruct (doCheck_ts_channel parseFloat shared view' ch Hpl Hen) as [Hrec _].
    cbv zeta in Hrec. fold (measuresOf view') in Hrec.
    fold (failedFields parseFloat view' ch) in Hrec. rewrite Hzero in Hrec. exact Hrec.
  - intros c Hc. apply failedFields_typed_other, Hc.
  - rewrite !doCheck_ts_result. cbv zeta. cbn [Tsx.r_erroriCount].
    destruct (loopState_end parseFloat shared view') as (_ & _ & _ & ->).
    destruct (loopState_end parseFloat shared view) as (_ & _ & _ & ->).
    destruct Hpl as (pre & post & -> & Hid).
    apply sum_enabled_split; [exact Hen | | exact Hzero].
    intros c Hc. apply failedFields_typed_other.
    rewrite Forall_forall in Hid. apply Hid, list_elem_of_In, Hc.
Qed.

Lemma typed_reference_values_clear_the_channel_witness :
  Tsx.r_perChannel
    (Tsx.doCheck parseTable (stateWith roundTripChannel)
       (typeEntries 1 referenceEntries bareView)) !! 1%Z = None.
Proof.
  assert (Hf : 0 < ch_frequency roundTripChannel) by (simpl; lra).
  assert (Hg : gtb 1000 0 = true) by (apply gtb_true; lra).
  refine (proj1 (proj2 (typed_reference_values_clear_the_channel parseTable
                          (stateWith roundTripChannel) bareView roundTripChannel
                          referenceEntries (placed_stateWith roundTripChannel eq_refl) eq_refl Hf _))).
  intros k. destruct k.
  - change (Fin 3 = Fin (2 + 1)). f_equal; lra.
  - change (Fin (-1) = Fin (- 2 + 1)). f_equal; lra.
  - change (Fin 4 = Fin (2 * 2)). f_equal; lra.
  - change (Fin 0.001 = (if gtb 1000 0 then Fin (1 / 1000) else Infinity)).
    rewrite Hg. f_equal; lra.
  - reflexivity.
Defined.

(** * Properties of [randomize] *)

Lemma Math_round_between (a b : Z) (y : R) :
  IZR a <= y <= IZR b -> (a <= Math_round y <= b)%Z.
Proof.
  intros [Ha Hb]. pose proof (Math_round_bounds y) as [Hlo Hhi].
  split.
  - assert (H : (a - 1 < Math_round y)%Z); [| lia].
    apply lt_IZR. rewrite minus_IZR. lra.
  - assert (H : (Math_round y < b + 1)%Z); [| lia].
    apply lt_IZR. rewrite plus_IZR. lra.
Qed.

Lemma toFixed2_range (a b : Z) (x : R) :
  IZR a <= x * 100 <= IZR b -> IZR a / 100 <= toFixed2 x <= IZR b / 100.
Proof.
  intros H. unfold toFixed2. destruct (Rlt_dec x 0) as [Hneg | Hpos].
  - assert (H' : IZR (- b) <= - x * 100 <= IZR (- a)) by (rewrite !opp_IZR; lra).
    apply Math_round_between in H' as [H1 H2].
    apply IZR_le in H1, H2. rewrite opp_IZR in H1, H2. lra.
  - apply Math_round_between in H as [H1 H2]. apply IZR_le in H1, H2. lra.
Qed.

Lemma toFixed2_near (x : R) : - 0.005 <= toFixed2 x - x <= 0.005.
Proof.
  unfold toFixed2. destruct (Rlt_dec x 0) as [Hneg | Hpos].
  - pose proof (Math_round_bounds (- x * 100)) as [Hlo Hhi]. lra.
  - pose proof (Math_round_bounds (x * 100)) as [Hlo Hhi]. lra.
Qed.

Lemma toFixed2_centesimal (x : R) : exists n : Z, toFixed2 x = IZR n / 100.
Proof.
  unfold toFixed2. destruct (Rlt_dec x 0).
  - exists (- Math_round (- x * 100))%Z. rewrite opp_IZR. lra.
  - eexists. reflexivity.
Qed.

(** An index drawn with [Math.floor(Math.random() * n)] is in range. *)
Lemma pick_in_range {A} (arr : list A) (r : R) (rest : list R) :
  0 <= r < 1 -> arr <> [] ->
  exists a, pick arr (r :: rest) = Some (a, rest) /\ In a arr.
Proof.
  intros Hr Hne.
  assert (Hlen : (0 < length arr)%nat) by (destruct arr; [contradiction | simpl; lia]).
  assert (Hn : 0 < INR (length arr)) by (apply lt_0_INR, Hlen).
  destruct (base_Int_part (r * INR (length arr))) as [Hlo Hhi].
  assert (H0 : (0 <= Math_floor (r * INR (length arr)))%Z).
  { unfold Math_floor.
    assert (H : (-1 < Int_part (r * INR (length arr)))%Z); [| lia].
    apply lt_IZR. nra. }
  assert (H1 : (Math_floor (r * INR (length arr)) < Z.of_nat (length arr))%Z).
  { unfold Math_floor. apply lt_IZR. rewrite <- INR_IZR_INZ. nra. }
  destruct (lookup_lt_is_Some_2 arr (Z.to_nat (Math_floor (r * INR (length arr)))))
    as [a Ha]; [lia |].
  exists a. split.
  - unfold pick, bind, Math_random.
    apply Z.leb_le in H0. rewrite H0, Ha. reflexivity.
  - apply list_elem_of_In. eapply list_elem_of_lookup_2. exact Ha.
Qed.

Lemma noise_in_range (level : string) (u : R) :
  0 <= u < 1 ->
  0 <= (if String.eqb level "avanzato" then toFixed2 (u * 0.2)
        else if String.eqb level "intermedio" then toFixed2 (u * 0.1)
        else toFixed2 (u * 0.03))
    <= noiseCeiling level.
Proof.
  intros Hu. unfold noiseCeiling.
  destruct (String.eqb level "avanzato"); [| destruct (String.eqb level "intermedio")].
  - pose proof (toFixed2_range 0 20 (u * 0.2) ltac:(lra)). lra.
  - pose proof (toFixed2_range 0 10 (u * 0.1) ltac:(lra)). lra.
  - pose proof (toFixed2_range 0 3 (u * 0.03) ltac:(lra)). lra.
Qed.

Lemma randomizeChannel_spec (level : string) (ch : Channel) (u1 u2 u3 u4 u5 u6 u7 : R)
    (rest : list R) :
  Forall (fun u => 0 <= u < 1) [u1; u2; u3; u4; u5; u6; u7] ->
  exists ch',
    randomizeChannel level ch (u1 :: u2 :: u3 :: u4 :: u5 :: u6 :: u7 :: rest)
    = Some (ch', rest) /\
    randomized level ch ch'.
Proof.
  intros Hall.
  inversion Hall as [| ? ? H1 Hall1]; subst. inversion Hall1 as [| ? ? H2 Hall2]; subst.
  inversion Hall2 as [| ? ? H3 Hall3]; subst. inversion Hall3 as [| ? ? H4 Hall4]; subst.
  inversion Hall4 as [| ? ? H5 Hall5]; subst. inversion Hall5 as [| ? ? H6 Hall6]; subst.
  inversion Hall6 as [| ? ? H7 _]; subst.
  destruct (pick_in_range forms u2 (u3 :: u4 :: u5 :: u6 :: u7 :: rest) H2 ltac:(discriminate))
    as (w & Hw & Hwin).
  destruct (pick_in_range baseFreqs u4 (u5 :: u6 :: u7 :: rest) H4 ltac:(discriminate))
    as (f & Hf & Hfin).
  eexists. split.
  - unfold randomizeChannel. unfold bind at 1. unfold Math_random at 1.
    unfold bind at 1. rewrite Hw.
    unfold bind at 1. unfold Math_random at 1.
    unfold bind at 1. rewrite Hf.
    unfold bind, Math_random, ret. reflexivity.
  - unfold randomized. cbn [ch_id ch_color ch_waveform ch_frequency ch_amplitude ch_phase
                            ch_dc ch_noise].
    split; [reflexivity |]. split; [reflexivity |].
    split; [exact Hwin |]. split; [exact Hfin |].
    split; [pose proof (toFixed2_range 50 450 (0.5 + u3 * 4) ltac:(lra)); lra |].
    split.
    { pose proof PI_RGT_0 as Hpi. pose proof (toFixed2_near (u5 * PI)) as Hnear.
      assert (H0 : 0 <= u5 * PI) by nra. assert (Hlt : u5 * PI <= PI) by nra.
      split; [| lra].
      unfold toFixed2. destruct (Rlt_dec (u5 * PI) 0) as [Hneg | _]; [lra |].
      assert (Hr : (0 <= Math_round (u5 * PI * 100))%Z).
      { pose proof (Math_round_bounds (u5 * PI * 100)) as [Hlo _].
        assert (H : (-1 < Math_round (u5 * PI * 100))%Z); [| lia].
        apply lt_IZR. lra. }
      apply IZR_le in Hr. lra. }
    split; [pose proof (toFixed2_range (-100) 100 (-1 + u6 * 2) ltac:(lra)); lra |].
    split; [apply noise_in_range, H7 |].
    split; apply toFixed2_centesimal.
Qed.

Lemma mapRand_randomize (level : string) (l : list Channel) (tape : list R) :
  Forall (fun u => 0 <= u < 1) tape ->
  (7 * length l <= length tape)%nat ->
  exists l',
    mapRand (randomizeChannel level) l tape = Some (l', drop (7 * length l) tape) /\
    Forall2 (randomized level) l l'.
Proof.
  revert tape. induction l as [| ch l IH]; intros tape Hall Hlen.
  - exists []. split; [reflexivity | constructor].
  - destruct tape as [| u1 [| u2 [| u3 [| u4 [| u5 [| u6 [| u7 rest]]]]]]];
      simpl in Hlen; try lia.
    assert (Hrest : Forall (fun u => 0 <= u < 1) rest).
    { do 7 (apply Forall_cons in Hall as [_ Hall]). exact Hall. }
    assert (Hhead : Forall (fun u => 0 <= u < 1) [u1; u2; u3; u4; u5; u6; u7]).
    { repeat (apply Forall_cons in Hall as [? Hall]; apply Forall_cons; split; [assumption |]).
      apply Forall_nil. exact I. }
    destruct (randomizeChannel_spec level ch u1 u2 u3 u4 u5 u6 u7 rest Hhead)
      as (ch' & Hch & Hprop).
    destruct (IH rest Hrest ltac:(lia)) as (l' & Hl & Hprops).
    exists (ch' :: l'). split.
    + simpl mapRand. unfold bind at 1. rewrite Hch.
      unfold bind at 1. rewrite Hl. unfold ret.
      replace (7 * length (ch :: l))%nat with (7 + 7 * length l)%nat by (simpl; lia).
      reflexivity.
    + constructor; assumption.
Qed.

(** [randomize(level)] on a tape of draws of [Math.random]: it reads seven
    draws per channel and returns the state with the difficulty set to
    [level], the other settings untouched, and as many channels as before,
    each with its id and colour kept, a waveform from the list of eight
    (never ["noise"]), a frequency from the list of seven (from 50 to
    5000 Hz), an amplitude between 0.5 and 4.5 V, a phase between 0 and
    [π + 0.005], an offset between −1 and 1 V and a channel noise between 0
    and 0.2, 0.1 or 0.03 V according to the level, amplitude and offset being
    whole hundredths. *)
Theorem randomize_stays_within_its_ranges (level : string) (shared : Shared)
    (tape : list R) :
  Forall (fun u => 0 <= u < 1) tape ->
  (7 * length (sh_channels shared) <= length tape)%nat ->
  exists shared',
    randomize level shared tape
    = Some (shared', drop (7 * length (sh_channels shared)) tape) /\
    sh_difficulty shared' = level /\
    (sh_locked shared' = sh_locked shared /\
     sh_showCorrect shared' = sh_showCorrect shared /\
     sh_timeBase shared' = sh_timeBase shared /\
     sh_sampleRate shared' = sh_sampleRate shared /\
     sh_durationDivs shared' = sh_durationDivs shared /\
     sh_verticalDivs shared' = sh_verticalDivs shared) /\
    Forall2 (randomized level) (sh_channels shared) (sh_channels shared') /\
    Forall (fun ch => ch_waveform ch <> "noise"%string /\ 50 <= ch_frequency ch <= 5000)
      (sh_channels shared').
Proof.
  intros Hall Hlen.
  destruct (mapRand_randomize level (sh_channels shared) tape Hall Hlen) as (l' & Hl & Hprops).
  eexists. split; [unfold randomize, bind; rewrite Hl; reflexivity |].
  cbn [sh_difficulty sh_locked sh_showCorrect sh_timeBase sh_sampleRate sh_durationDivs
       sh_verticalDivs sh_channels].
  split; [reflexivity |]. split; [repeat split |]. split; [exact Hprops |].
  clear Hl Hlen. induction Hprops as [| ch ch' l l' Hp _ IH]; [constructor |].
  constructor; [| exact IH].
  destruct Hp as (_ & _ & Hw & Hf & _). split.
  - intros E. rewrite E in Hw. simpl in Hw.
    repeat destruct Hw as [Hw | Hw]; try discriminate Hw. exact Hw.
  - simpl in Hf.
    repeat destruct Hf as [Hf | Hf]; try (rewrite <- Hf; lra). destruct Hf.
Qed.

Lemma draws21_in_range : Forall (fun u => 0 <= u < 1) draws21.
Proof. apply Forall_replicate. lra. Qed.

Lemma randomize_stays_within_its_ranges_witness :
  exists shared',
    randomize "intermedio" Jsx.defaultSharedState draws21 = Some (shared', []) /\
    sh_difficulty shared' = "intermedio"%string /\
    Forall (fun ch => ch_waveform ch <> "noise"%string /\ 50 <= ch_frequency ch <= 5000)
      (sh_channels shared').
Proof.
  destruct (randomize_stays_within_its_ranges "intermedio" Jsx.defaultSharedState draws21
              draws21_in_range) as (shared' & Hr & Hd & _ & _ & Hc).
  - simpl. lia.
  - exists shared'. split; [exact Hr |]. split; [exact Hd | exact Hc].
Defined.

Lemma randomized_ids level (l l' : list Channel) :
  Forall2 (randomized level) l l' -> ch_id <$> l' = ch_id <$> l.
Proof.
  induction 1 as [| ch ch' l l' Hp _ IH]; [reflexivity |].
  rewrite !fmap_cons, IH. f_equal. exact (proj1 Hp).
Qed.

Lemma randomized_not_noise level ch ch' :
  randomized level ch ch' -> ch_waveform ch' <> "noise"%string.
Proof.
  intros (_ & _ & Hw & _) E. rewrite E in Hw. simpl in Hw.
  repeat destruct Hw as [Hw | Hw]; try discriminate Hw. exact Hw.
Qed.

Lemma randomized_frequency level ch ch' :
  randomized level ch ch' -> 50 <= ch_frequency ch' <= 5000.
Proof.
  intros (_ & _ & _ & Hf & _). simpl in Hf.
  repeat destruct Hf as [Hf | Hf]; try (rewrite <- Hf; lra). destruct Hf.
Qed.

(** An exercise made by [randomize] can always be graded: the randomized
    channels keep distinct ids, none is a noise channel and every frequency
    is positive, so that for every channel the two editions use the same
    five reference values, all of them finite numbers, with a reference
    period between 0.2 ms and 20 ms; an entry that parses to the reference
    value passes every field in both editions. *)
Theorem randomized_exercise_can_be_graded (level : string) (shared : Shared)
    (tape : list R) :
  Forall (fun u => 0 <= u < 1) tape ->
  (7 * length (sh_channels shared) <= length tape)%nat ->
  NoDup (ch_id <$> sh_channels shared) ->
  exists shared' tape',
    randomize level shared tape = Some (shared', tape') /\
    NoDup (ch_id <$> sh_channels shared') /\
    Forall
      (fun ch =>
         (forall k, exists x,
             reference k (Jsx.correctFor ch) = Fin x /\
             reference k (Tsx.corr ch) = Fin x /\
             forall parseFloat user,
               parseFloat (entry k user) = Fin x ->
               pass_js parseFloat user ch k = true /\
               fails_ts parseFloat (Some user) ch k = false) /\
         exists T,
           c_period (Jsx.correctFor ch) = Fin T /\ c_period (Tsx.corr ch) = Fin T /\
           0.0002 <= T <= 0.02)
      (sh_channels shared').
Proof.
  intros Hall Hlen Hnd.
  destruct (mapRand_randomize level (sh_channels shared) tape Hall Hlen) as (l' & Hl & Hprops).
  eexists _, _. split; [unfold randomize, bind; rewrite Hl; reflexivity |].
  cbn [sh_channels].
  split; [rewrite (randomized_ids level _ _ Hprops); exact Hnd |].
  clear Hl Hlen Hnd. induction Hprops as [| ch ch' l l' Hp _ IH]; [constructor |].
  constructor; [| exact IH].
  pose proof (randomized_not_noise level ch ch' Hp) as Hn.
  pose proof (randomized_frequency level ch ch' Hp) as Hf.
  assert (Hsame : sameReference ch') by (intros E; contradiction).
  assert (Hpos : 0 < ch_frequency ch') by lra.
  split.
  - intros k. destruct (references_finite ch' k Hpos) as [x Hx].
    exists x. split; [rewrite (references_agree ch' k Hsame); exact Hx |].
    split; [exact Hx |]. intros parseFloat user Hu.
    assert (Hpass : pass_js parseFloat user ch' k = true).
    { unfold pass_js. rewrite Hu, (references_agree ch' k Hsame), Hx.
      apply fieldPass_exact; [reflexivity | apply tolerance_nonneg]. }
    split; [exact Hpass |].
    rewrite (fails_pass_agree parseFloat user ch' k Hsame), Hpass. reflexivity.
  - exists (1 / ch_frequency ch').
    split; [apply reference_period_js; assumption |].
    split; [apply reference_period_ts; assumption |].
    split.
    + apply Rmult_le_reg_r with (ch_frequency ch'); [exact Hpos |].
      replace (1 / ch_frequency ch' * ch_frequency ch') with 1 by (field; lra). lra.
    + apply Rmult_le_reg_r with (ch_frequency ch'); [exact Hpos |].
      replace (1 / ch_frequency ch' * ch_frequency ch') with 1 by (field; lra). lra.
Qed.

Lemma NoDup_default_js : NoDup (ch_id <$> sh_channels Jsx.defaultSharedState).
Proof.
  simpl.
  repeat (apply NoDup_cons; split; [rewrite ?elem_of_cons, ?elem_of_nil; intuition lia |]).
  apply NoDup_nil. exact I.
Qed.

Lemma randomized_exercise_can_be_graded_witness :
  exists shared' tape',
    randomize "avanzato" Jsx.defaultSharedState draws21 = Some (shared', tape') /\
    NoDup (ch_id <$> sh_channels shared').
Proof.
  destruct (randomized_exercise_can_be_graded "avanzato" Jsx.defaultSharedState draws21
              draws21_in_range) as (shared' & tape' & Hr & Hnd & _).
  - simpl. lia.
  - exact NoDup_default_js.
  - exists shared', tape'. split; [exact Hr | exact Hnd].
Defined.

(** ** The records of the JavaScript edition *)

Lemma step_js_domain parseFloat shared view res res' c (k : Z) :
  step_js parseFloat shared view res c = Some res' ->
  (is_Some (Jsx.r_perChannel res' !! k) <->
   is_Some (Jsx.r_perChannel res !! k) \/ (ch_enabled c = true /\ ch_id c = k)).
Proof.
  unfold step_js. destruct (ch_enabled c); cbv beta iota delta [negb].
  - destruct (v_measures view) as [ms |]; [| discriminate].
    destruct (ms !! ch_id c) as [user |]; [| discriminate].
    destruct (Jsx.computeCorrect shared !! ch_id c) as [corr |]; [| discriminate].
    destruct (Jsx.checkFields _ _ user corr) as [ok comp].
    intros H. injection H as <-. cbn [Jsx.r_perChannel].
    destruct (decide (ch_id c = k)) as [<- | Hne].
    + rewrite lookup_insert_eq. split; [intros _; right; split; reflexivity |].
      intros _. eexists; reflexivity.
    + rewrite lookup_insert_ne by exact Hne. split; [tauto |].
      intros [H | [_ H]]; [exact H | contradiction].
  - intros H. injection H as <-. split; [tauto |].
    intros [H | [H _]]; [exact H | discriminate H].
Qed.

Lemma forOf_js_domain parseFloat shared view (l : list Channel) (k : Z) :
  forall res res',
    forOf l (step_js parseFloat shared view) res = Some res' ->
    (is_Some (Jsx.r_perChannel res' !! k) <->
     is_Some (Jsx.r_perChannel res !! k) \/
     exists c, In c l /\ ch_enabled c = true /\ ch_id c = k).
Proof.
  induction l as [| c l IH]; intros res res' H.
  - injection H as <-. split; [tauto |]. intros [H | (c & [] & _)]. exact H.
  - simpl in H.
    destruct (step_js parseFloat shared view res c) as [res1 |] eqn:E1; [| discriminate H].
    rewrite (IH res1 res' H), (step_js_domain _ _ _ _ _ _ k E1). split.
    + intros [[H0 | [Hen Hid]] | (d & Hd & Hd')].
      * left. exact H0.
      * right. exists c. split; [left; reflexivity | split; assumption].
      * right. exists d. split; [right; exact Hd | exact Hd'].
    + intros [H0 | (d & [<- | Hd] & Hd')].
      * left. left. exact H0.
      * left. right. exact Hd'.
      * right. exists d. split; [exact Hd | exact Hd'].
Qed.

(** The result of the JavaScript [doCheck], for distinct channel ids and a
    view that holds a measurement object for every enabled channel: it
    returns a result which lists every enabled channel, passing or not, and
    no other id; the record of a channel marks the five fields in the order
    vmax, vmin, vpp, period, freq, and is [ok] exactly when every mark is;
    the overall [ok] holds exactly when every record is [ok]. *)
Theorem js_result_lists_every_enabled_channel (parseFloat : string -> number)
    (shared : Shared) (view : View) (ms : gmap Z Measures) :
  NoDup (ch_id <$> sh_channels shared) ->
  measured shared view ms ->
  exists res,
    Jsx.doCheck parseFloat shared view = Some res /\
    (forall id,
       is_Some (Jsx.r_perChannel res !! id) <->
       exists ch, In ch (sh_channels shared) /\ ch_enabled ch = true /\ ch_id ch = id) /\
    (forall id rec,
       Jsx.r_perChannel res !! id = Some rec ->
       map fst (Jsx.cc_comp rec) = allFields /\
       Jsx.cc_ok rec = forallb snd (Jsx.cc_comp rec)) /\
    (Jsx.r_ok res = true <->
     forall id rec, Jsx.r_perChannel res !! id = Some rec -> Jsx.cc_ok rec = true).
Proof.
  intros Hnd Hmeas. pose proof Hmeas as [Hms Hall0].
  assert (Hall : forall c, In c (sh_channels shared) -> ch_enabled c = true ->
                           is_Some (ms !! ch_id c)).
  { intros c Hc. rewrite Forall_forall in Hall0. apply Hall0, list_elem_of_In, Hc. }
  clear Hall0.
  assert (Hret : exists res, Jsx.doCheck parseFloat shared view = Some res).
  { destruct (Jsx.doCheck parseFloat shared view) as [res |] eqn:E; [exists res; reflexivity |].
    apply (proj1 (forOf_js_fails parseFloat shared view (sh_channels shared)
                    (fun c Hc => Hc) _)) in E as (c & Hin & Hen & Hun).
    unfold unmeasured in Hun. rewrite Hms in Hun.
    destruct (Hall c Hin Hen) as [user Hu]. rewrite Hu in Hun. discriminate Hun. }
  destruct Hret as [res Hres]. exists res. split; [exact Hres |].
  assert (Hdom : forall id,
             is_Some (Jsx.r_perChannel res !! id) <->
             exists ch, In ch (sh_channels shared) /\ ch_enabled ch = true /\ ch_id ch = id).
  { intros id. rewrite doCheck_js_unfold in Hres.
    rewrite (forOf_js_domain _ _ _ _ id _ _ Hres). cbn [Jsx.r_perChannel].
    rewrite lookup_empty. split; [| intros H; right; exact H].
    intros [[x Hx] | H]; [discriminate Hx | exact H]. }
  assert (Hrec : forall ch,
             In ch (sh_channels shared) -> ch_enabled ch = true ->
             exists user,
               ms !! ch_id ch = Some user /\
               Jsx.r_perChannel res !! ch_id ch
               = Some {| Jsx.cc_ok := forallb (pass_js parseFloat user ch) allFields;
                         Jsx.cc_comp :=
                           map (fun k => (k, pass_js parseFloat user ch k)) allFields |}).
  { intros ch Hin Hen. destruct (Hall ch Hin Hen) as [user Hu]. exists user.
    split; [exact Hu |].
    destruct (doCheck_js_channel parseFloat shared view ms ch user
                (NoDup_placed shared ch Hnd Hin) Hmeas Hen Hu) as (res0 & Hres0 & Hr & _).
    rewrite Hres in Hres0. injection Hres0 as <-. exact Hr. }
  split; [exact Hdom |]. split.
  - intros id rec Hid.
    destruct (proj1 (Hdom id) (ex_intro _ rec Hid)) as (ch & Hin & Hen & <-).
    destruct (Hrec ch Hin Hen) as (user & _ & Hr). rewrite Hr in Hid.
    injection Hid as <-. cbn [Jsx.cc_comp Jsx.cc_ok]. unfold allFields. cbn [map forallb fst snd].
    split; reflexivity.
  - rewrite doCheck_js_unfold in Hres.
    rewrite (forOf_js_ok parseFloat shared view ms (sh_channels shared) Hms
               (fun c Hc => computeCorrect_placed shared c (NoDup_placed shared c Hnd Hc))
               _ _ Hres).
    split.
    + intros [_ Hpass] id rec Hid.
      destruct (proj1 (Hdom id) (ex_intro _ rec Hid)) as (ch & Hin & Hen & <-).
      destruct (Hrec ch Hin Hen) as (user & Hu & Hr). rewrite Hr in Hid.
      injection Hid as <-. cbn [Jsx.cc_ok].
      destruct (Hpass ch Hin Hen) as (user' & Hu' & Hp).
      rewrite Hu in Hu'. injection Hu' as <-. exact Hp.
    + intros Hok. split; [reflexivity |]. intros c Hin Hen.
      destruct (Hrec c Hin Hen) as (user & Hu & Hr). exists user.
      split; [exact Hu |]. exact (Hok _ _ Hr).
Qed.

Lemma js_result_lists_every_enabled_channel_witness :
  exists res,
    Jsx.doCheck parseTable (stateWith roundTripChannel) (viewWith roundTripEntries) = Some res /\
    (is_Some (Jsx.r_perChannel res !! 2%Z) <->
     exists ch, In ch (sh_channels (stateWith roundTripChannel)) /\
                ch_enabled ch = true /\ ch_id ch = 2%Z).
Proof.
  destruct (js_result_lists_every_enabled_channel parseTable (stateWith roundTripChannel)
              (viewWith roundTripEntries) (entriesOf roundTripEntries)
              (NoDup_stateWith roundTripChannel eq_refl)
              (measured_viewWith roundTripChannel roundTripEntries eq_refl))
    as (res & Hres & Hdom & _).
  exists res. split; [exact Hres | exact (Hdom 2%Z)].
Defined.

